(** * VirusGenealogy: a shallow embedding of [virus_genealogy.h]

    The C++ class keeps a [std::map] from identifiers to
    [std::shared_ptr<Node>]; every node owns its children through
    [shared_ptr]s and refers to its parents through [weak_ptr]s.  The
    embedding makes the free store explicit: a node lives at an address,
    the registry and the parent/child vectors hold addresses, and a node
    is destroyed when the last owning pointer to it goes away. *)

From stdpp Require Import base option list gmap fin_maps strings.

#[global] Set Warnings "-clear-no-such-hyp".

(** ** The payload concept

    [template <typename T> concept VirusClassType = requires(T t) { t.get_id(); }].
    The genealogy also constructs a payload from an identifier
    ([std::make_shared<Virus>(id)]); that constructor is user code and may
    throw, which is the [None] result of [Virus_new]. *)
Class VirusClassType (Virus id_type : Type) := {
  Virus_get_id : Virus → id_type;
  Virus_new : id_type → option Virus
}.

Section genealogy.
Context {id_type : Type} `{Countable id_type}.
Context {Virus : Type} `{!VirusClassType Virus id_type}.

(** ** Data *)

(** Addresses of nodes on the free store.  Addresses are never reused, so
    an expired [weak_ptr] never comes back to life. *)
Definition addr := nat.

(** [class Node]: [id], [virus], [parents] (weak pointers) and [children]
    (owning pointers). *)
Record Node := mkNode {
  node_id : id_type;
  virus : Virus;
  parents : list addr;
  children : list addr
}.

(** [class VirusGenealogy]: [stem_id] and [known_ids], together with the
    part of the free store that holds the nodes. *)
Record VirusGenealogy := mkGenealogy {
  stem_id : id_type;
  known_ids : gmap id_type addr;
  heap : gmap addr Node;
  next_addr : addr
}.

Definition set_known_ids (m : gmap id_type addr) (g : VirusGenealogy) :=
  mkGenealogy (stem_id g) m (heap g) (next_addr g).
Definition set_heap (h : gmap addr Node) (g : VirusGenealogy) :=
  mkGenealogy (stem_id g) (known_ids g) h (next_addr g).
Definition set_parents (ps : list addr) (n : Node) :=
  mkNode (node_id n) (virus n) ps (children n).
Definition set_children (cs : list addr) (n : Node) :=
  mkNode (node_id n) (virus n) (parents n) cs.

(** The exceptions of the header, the exception a payload constructor may
    throw, and [std::out_of_range] of [std::map::at]. *)
Inductive exn :=
  | VirusNotFound
  | VirusAlreadyCreated
  | TriedToRemoveStemVirus
  | PayloadFailure
  | OutOfRange.

(** How a call ends: it returns, it throws (both leave a genealogy
    behind), the process is terminated (a [throw;] with no exception in
    flight, the header's reaction to an expired [weak_ptr]), the
    behaviour is undefined ([erase(end())], an out-of-range
    [operator[]], a dangling pointer), or the recursion budget of the
    embedding ran out. *)
Inductive outcome (A : Type) :=
  | Ret (a : A) (g : VirusGenealogy)
  | Throw (e : exn) (g : VirusGenealogy)
  | Terminate
  | Undefined
  | OutOfFuel.
Arguments Ret {A} a g.
Arguments Throw {A} e g.
Arguments Terminate {A}.
Arguments Undefined {A}.
Arguments OutOfFuel {A}.

(** ** The monad of member functions *)

Definition M (A : Type) : Type := VirusGenealogy → outcome A.

Definition ret {A} (a : A) : M A := λ g, Ret a g.
Definition bind {A B} (m : M A) (f : A → M B) : M B := λ g,
  match m g with
  | Ret a g' => f a g'
  | Throw e g' => Throw e g'
  | Terminate => Terminate
  | Undefined => Undefined
  | OutOfFuel => OutOfFuel
  end.

Notation "'let*' x := m 'in' k" := (bind m (λ x, k))
  (at level 10, x binder, m at level 100, k at level 200).
Notation "'do' m 'in' k" := (bind m (λ _, k))
  (at level 10, m at level 100, k at level 200).

Definition throw {A} (e : exn) : M A := λ g, Throw e g.
Definition terminate {A} : M A := λ _, Terminate.
Definition undefined {A} : M A := λ _, Undefined.
Definition out_of_fuel {A} : M A := λ _, OutOfFuel.
Definition gets {A} (f : VirusGenealogy → A) : M A := λ g, Ret (f g) g.
Definition modify (f : VirusGenealogy → VirusGenealogy) : M unit :=
  λ g, Ret tt (f g).

(** [try { m } catch (...) { h; throw; }] *)
Definition try_catch {A} (m : M A) (h : M unit) : M A := λ g,
  match m g with
  | Throw e g' =>
      match h g' with
      | Ret _ g'' => Throw e g''
      | Throw e' g'' => Throw e' g''
      | Terminate => Terminate
      | Undefined => Undefined
      | OutOfFuel => OutOfFuel
      end
  | r => r
  end.

(** A range-based [for] whose body has no result. *)
Fixpoint for_each {A} (body : A → M unit) (l : list A) : M unit :=
  match l with
  | [] => ret tt
  | x :: l' => do body x in for_each body l'
  end.

(** ** The free store *)

(** [p->...] through an owning pointer. *)
Definition deref (a : addr) : M Node := λ g,
  match heap g !! a with
  | Some n => Ret n g
  | None => Undefined
  end.

(** [auto parent = w.lock(); if (!parent) throw;] *)
Definition lock (a : addr) : M Node := λ g,
  match heap g !! a with
  | Some n => Ret n g
  | None => Terminate
  end.

Definition store (a : addr) (n : Node) : M unit :=
  modify (λ g, set_heap (<[a := n]> (heap g)) g).

(** Owning pointers to the node at [a]: registry entries and entries of
    the [children] vectors of live nodes. *)
Definition referenced (g : VirusGenealogy) (a : addr) : bool :=
  existsb (λ ia : id_type * addr, bool_decide (ia.2 = a))
          (map_to_list (known_ids g))
  || existsb (λ bn : addr * Node, bool_decide (a ∈ children bn.2))
             (map_to_list (heap g)).

(** Destroying an owning pointer destroys the node it pointed to when it
    was the last one, and with the node its [children] vector, and so on.
    One round destroys every node nobody owns; [size (heap g)] rounds
    reach every node that has to go. *)
Definition sweep_once (g : VirusGenealogy) : VirusGenealogy :=
  set_heap (filter (λ an : addr * Node, referenced g an.1 = true) (heap g)) g.
Definition sweep (g : VirusGenealogy) : VirusGenealogy :=
  Nat.iter (size (heap g)) sweep_once g.

(** ** [std::map] operations on [known_ids] *)

(** [known_ids.contains(id)] *)
Definition exists_ (g : VirusGenealogy) (i : id_type) : bool :=
  bool_decide (is_Some (known_ids g !! i)).

(** [known_ids.at(id)] *)
Definition map_at (i : id_type) : M addr := λ g,
  match known_ids g !! i with
  | Some a => Ret a g
  | None => Throw OutOfRange g
  end.

(** [known_ids[id]] used as a value: a missing key would be inserted with
    a null pointer, which the callers dereference at once. *)
Definition map_index (i : id_type) : M addr := λ g,
  match known_ids g !! i with
  | Some a => Ret a g
  | None => Undefined
  end.

(** [known_ids[id] = p] *)
Definition map_assign (i : id_type) (a : addr) : M unit := λ g,
  match known_ids g !! i with
  | Some _ => Ret tt (sweep (set_known_ids (<[i := a]> (known_ids g)) g))
  | None => Ret tt (set_known_ids (<[i := a]> (known_ids g)) g)
  end.

(** [known_ids.erase(id)] *)
Definition map_erase (i : id_type) : M unit := λ g,
  match known_ids g !! i with
  | Some _ => Ret tt (sweep (set_known_ids (delete i (known_ids g)) g))
  | None => Ret tt g
  end.

(** ** [class Node] *)

(** [std::make_shared<Node>(id)]; the constructor builds the payload. *)
Definition Node_new (i : id_type) : M addr := λ g,
  match Virus_new i with
  | Some v =>
      Ret (next_addr g)
          (mkGenealogy (stem_id g) (known_ids g)
             (<[next_addr g := mkNode i v [] []]> (heap g))
             (S (next_addr g)))
  | None => Throw PayloadFailure g
  end.

Definition Node_get_id (this : addr) : M id_type :=
  let* n := deref this in ret (node_id n).

Definition Node_get_virus (this : addr) : M Virus :=
  let* n := deref this in ret (virus n).

Definition Node_is_orphan (this : addr) : M bool :=
  let* n := deref this in ret (bool_decide (parents n = [])).

(** [std::ranges::find_if(parents.begin(), parents.end(), has_this_id)]:
    the position of the first match, [None] for [parents.end()]. *)
Fixpoint find_parent (parent_id : id_type) (ps : list addr) : M (option nat) :=
  match ps with
  | [] => ret None
  | p :: ps' =>
      let* n := lock p in
      if decide (node_id n = parent_id) then ret (Some 0)
      else let* r := find_parent parent_id ps' in ret (S <$> r)
  end.

Fixpoint find_child (child_id : id_type) (cs : list addr) : M (option nat) :=
  match cs with
  | [] => ret None
  | c :: cs' =>
      let* n := deref c in
      if decide (node_id n = child_id) then ret (Some 0)
      else let* r := find_child child_id cs' in ret (S <$> r)
  end.

Definition Node_remove_parent (this : addr) (parent_id : id_type) : M unit :=
  let* n := deref this in
  let* r := find_parent parent_id (parents n) in
  match r with
  | Some i => store this (set_parents (delete i (parents n)) n)
  | None => undefined
  end.

Definition Node_remove_child (this : addr) (child_id : id_type) : M unit :=
  let* n := deref this in
  let* r := find_child child_id (children n) in
  match r with
  | Some i =>
      do store this (set_children (delete i (children n)) n) in
      modify sweep
  | None => undefined
  end.

Fixpoint lock_ids (ps : list addr) : M (list id_type) :=
  match ps with
  | [] => ret []
  | p :: ps' =>
      let* n := lock p in
      let* ids := lock_ids ps' in
      ret (node_id n :: ids)
  end.

Definition Node_get_parents (this : addr) : M (list id_type) :=
  let* n := deref this in lock_ids (parents n).

(** The first loop of [remove_my_trace]. *)
Fixpoint collect_orphans (this_id : id_type) (cs : list addr)
    (new_orphans : list id_type) : M (list id_type) :=
  match cs with
  | [] => ret new_orphans
  | child :: cs' =>
      do Node_remove_parent child this_id in
      let* o := Node_is_orphan child in
      if o then
        let* i := Node_get_id child in
        collect_orphans this_id cs' (new_orphans ++ [i])
      else collect_orphans this_id cs' new_orphans
  end.

Definition Node_remove_my_trace (this : addr) : M (list id_type) :=
  let* n := deref this in
  let* new_orphans := collect_orphans (node_id n) (children n) [] in
  let* n' := deref this in
  do for_each (λ p, do lock p in Node_remove_child p (node_id n)) (parents n') in
  ret new_orphans.

Definition Node_add_parent (this parent : addr) : M unit :=
  let* n := deref this in
  do store this (set_parents (parents n ++ [parent]) n) in
  let* p := deref parent in
  store parent (set_children (children p ++ [this]) p).

(** [add_child], the mirror image of [add_parent]; no member function
    calls it. *)
Definition Node_add_child (this child : addr) : M unit :=
  let* n := deref this in
  do store this (set_children (children n ++ [child]) n) in
  let* c := deref child in
  store child (set_parents (parents c ++ [this]) c).

(** ** The children iterator

    A [children_iterator] holds a pointer into the [children] vector of a
    node: the owner and the position.  [v[n]] on a [std::vector] requires
    [n < v.size()]. *)
Record children_iterator := mkIter { it_owner : addr; it_pos : nat }.

Definition vector_elem_ptr (owner : addr) (v : list addr) (n : nat)
    : M children_iterator :=
  if decide (n < length v) then ret (mkIter owner n) else undefined.

(** [return children_iterator(&children[0]);] *)
Definition Node_begin (this : addr) : M children_iterator :=
  let* n := deref this in vector_elem_ptr this (children n) 0.

(** [return children_iterator(&children[children.size()]);] *)
Definition Node_end (this : addr) : M children_iterator :=
  let* n := deref this in vector_elem_ptr this (children n) (length (children n)).

(** Dereferencing the iterator: the payload of the child it points at. *)
Definition iter_deref (it : children_iterator) : M Virus :=
  let* n := deref (it_owner it) in
  match children n !! it_pos it with
  | Some c => Node_get_virus c
  | None => undefined
  end.

(** [m_ptr++] and [m_ptr--].  A pointer into a vector may point at one of
    its elements or one past the last; stepping out of that range is
    undefined. *)
Definition iter_next (it : children_iterator) : M children_iterator :=
  let* n := deref (it_owner it) in
  if decide (it_pos it < length (children n))
  then ret (mkIter (it_owner it) (S (it_pos it)))
  else undefined.
Definition iter_prev (it : children_iterator) : M children_iterator :=
  let* n := deref (it_owner it) in
  match it_pos it with
  | S k =>
      if decide (k < length (children n))
      then ret (mkIter (it_owner it) k)
      else undefined
  | 0 => undefined
  end.

(** ** [class VirusGenealogy] *)

(** The constructor. *)
Definition VirusGenealogy_ctor (stem : id_type) : M unit :=
  try_catch (let* p := Node_new stem in map_assign stem p) (map_erase stem).
Definition VirusGenealogy_new (stem : id_type) : outcome unit :=
  VirusGenealogy_ctor stem (mkGenealogy stem ∅ ∅ 0).

Definition get_stem_id : M id_type := gets stem_id.

(** [exists(std::vector<id_type> const &)] *)
Fixpoint exists_all (g : VirusGenealogy) (ids : list id_type) : bool :=
  match ids with
  | [] => true
  | i :: ids' => if negb (exists_ g i) then false else exists_all g ids'
  end.

Definition get_children_begin (i : id_type) : M children_iterator :=
  let* e := gets (λ g, exists_ g i) in
  if negb e then throw VirusNotFound
  else let* a := map_at i in Node_begin a.

Definition get_children_end (i : id_type) : M children_iterator :=
  let* e := gets (λ g, exists_ g i) in
  if negb e then throw VirusNotFound
  else let* a := map_at i in Node_end a.

Definition get_parents (i : id_type) : M (list id_type) :=
  let* e := gets (λ g, exists_ g i) in
  if negb e then throw VirusNotFound
  else let* a := map_at i in Node_get_parents a.

(** [operator[]] *)
Definition get (i : id_type) : M Virus :=
  let* e := gets (λ g, exists_ g i) in
  if negb e then throw VirusNotFound
  else let* a := map_at i in Node_get_virus a.

(** [create(id, parent_id)] *)
Definition create (i parent_id : id_type) : M unit :=
  let* e := gets (λ g, exists_ g i) in
  if e then throw VirusAlreadyCreated
  else
    let* e' := gets (λ g, exists_ g parent_id) in
    if negb e' then throw VirusNotFound
    else
      try_catch
        (let* p := Node_new i in
         do map_assign i p in
         let* this := map_index i in
         let* parent := map_at parent_id in
         Node_add_parent this parent)
        (map_erase i).

(** [create(id, parent_ids)] *)
Definition create_multi (i : id_type) (parent_ids : list id_type) : M unit :=
  let* e := gets (λ g, exists_ g i) in
  if e then throw VirusAlreadyCreated
  else
    let* e' := gets (λ g, exists_all g parent_ids) in
    if negb e' then throw VirusNotFound
    else
      match parent_ids with
      | [] => ret tt
      | _ =>
          try_catch
            (let* p := Node_new i in
             do map_assign i p in
             for_each (λ parent_id,
                         let* this := map_index i in
                         let* parent := map_at parent_id in
                         Node_add_parent this parent) parent_ids)
            (map_erase i)
      end.

(** The loop [for (const auto& p : parents) if (p == parent_id) return;] *)
Fixpoint has_parent (parent_id : id_type) (ps : list id_type) : bool :=
  match ps with
  | [] => false
  | p :: ps' => if decide (p = parent_id) then true else has_parent parent_id ps'
  end.

Definition connect (child_id parent_id : id_type) : M unit :=
  let* e := gets (λ g, exists_ g child_id) in
  let* e' := gets (λ g, exists_ g parent_id) in
  if negb e || negb e' then throw VirusNotFound
  else
    let* ps := get_parents child_id in
    if has_parent parent_id ps then ret tt
    else
      let* this := map_index child_id in
      let* parent := map_at parent_id in
      Node_add_parent this parent.

(** [remove(id)] calls itself on the orphans it produces; [fuel] bounds
    the depth of that recursion. *)
Fixpoint remove_fuel (fuel : nat) (i : id_type) : M unit :=
  match fuel with
  | 0 => out_of_fuel
  | S fuel' =>
      let* stem := gets stem_id in
      if decide (i = stem) then throw TriedToRemoveStemVirus
      else
        let* e := gets (λ g, exists_ g i) in
        if negb e then throw VirusNotFound
        else
          let* this := map_at i in
          let* new_orphans := Node_remove_my_trace this in
          do for_each (remove_fuel fuel') new_orphans in
          map_erase i
  end.

(** Every call of [remove] that goes on to recurse has first taken an
    entry out of some [parents] vector, so the number of such entries
    bounds the depth. *)
Definition weight (h : gmap addr Node) : nat :=
  map_fold (λ _ n acc, length (parents n) + acc) 0 h.
Definition total_parents (g : VirusGenealogy) : nat := weight (heap g).

Definition remove (i : id_type) : M unit := λ g,
  remove_fuel (S (total_parents g)) i g.

End genealogy.

Arguments Node : clear implicits.
Arguments VirusGenealogy _ {_ _} _.
Arguments outcome _ {_ _} _ _.
Arguments M _ {_ _} _ _.
Arguments Ret {_ _ _ _ _} a g.
Arguments Throw {_ _ _ _ _} e g.
Arguments Terminate {_ _ _ _ _}.
Arguments Undefined {_ _ _ _ _}.
Arguments OutOfFuel {_ _ _ _ _}.

Notation "'let*' x := m 'in' k" := (bind m (λ x, k))
  (at level 10, x binder, m at level 100, k at level 200).
Notation "'do' m 'in' k" := (bind m (λ _, k))
  (at level 10, m at level 100, k at level 200).

(** * Calls, reachable genealogies and invariants *)

Section invariants.
Context {id_type : Type} `{Countable id_type}.
Context {Virus : Type} `{!VirusClassType Virus id_type}.
Implicit Types (g : VirusGenealogy id_type Virus) (n : Node id_type Virus).
Implicit Types (T : gset addr) (a b : addr).

(** ** The mutating calls of the public interface *)
Inductive call :=
  | Create (i parent_id : id_type)
  | CreateMulti (i : id_type) (parent_ids : list id_type)
  | Connect (child_id parent_id : id_type)
  | Remove (i : id_type).

Definition run_call (c : call) : M id_type Virus unit :=
  match c with
  | Create i p => create i p
  | CreateMulti i ps => create_multi i ps
  | Connect c p => connect c p
  | Remove i => remove i
  end.

(** The genealogy a call leaves behind, whether it returned or threw. *)
Definition after {A} (o : outcome id_type Virus A) : option (VirusGenealogy id_type Virus) :=
  match o with
  | Ret _ g | Throw _ g => Some g
  | _ => None
  end.

(** Genealogies a program can hold: built by the constructor, then
    changed by any sequence of calls. *)
Inductive reachable : VirusGenealogy id_type Virus → Prop :=
  | reachable_new stem g :
      VirusGenealogy_new stem = Ret tt g → reachable g
  | reachable_call g c g' :
      reachable g → after (run_call c g) = Some g' → reachable g'.

(** A caller that keeps the genealogy a lineage never makes the stem
    virus a child and never makes a virus its own parent. *)
Definition disciplined g (c : call) : Prop :=
  match c with
  | Connect child_id parent_id => child_id ≠ stem_id g ∧ child_id ≠ parent_id
  | _ => True
  end.

Inductive reachable_disciplined : VirusGenealogy id_type Virus → Prop :=
  | disciplined_new stem g :
      VirusGenealogy_new stem = Ret tt g → reachable_disciplined g
  | disciplined_call g c g' :
      reachable_disciplined g → disciplined g c →
      after (run_call c g) = Some g' → reachable_disciplined g'.

(** ** The representation invariant

    What [shared_ptr] and the allocator guarantee by themselves: a
    registry entry owns a live node that carries the key as its id, and
    every live node sits at an address that has been handed out. *)
Definition wf g : Prop :=
  map_Forall (λ i a, node_id <$> heap g !! a = Some i) (known_ids g)
  ∧ map_Forall (λ a _, a < next_addr g) (heap g).

#[global] Instance wf_dec g : Decision (wf g).
Proof. unfold wf. apply _. Defined.

(** ** Edge consistency *)

Definition occurrences (a : addr) (l : list addr) : nat :=
  length (filter (λ x, x = a) l).

(** A vector with the entries for the nodes in [D] taken out. *)
Definition strip (D : gset addr) (l : list addr) : list addr :=
  filter (λ x, x ∉ D) l.

(** The node the registry holds for its own identifier. *)
Definition registered g a : Prop :=
  (heap g !! a) ≫= (λ n, known_ids g !! node_id n) = Some a.

(** [remove] works through a node in two stages: it first takes the node
    out of its neighbours' vectors and erases the registry entry only
    after the orphans are gone.  [T] is the set of nodes already taken
    out; the invariant speaks about the others. *)
Definition attached g T a : Prop := registered g a ∧ a ∉ T.

Definition consistent_upto g T : Prop :=
  map_Forall (λ a n, attached g T a →
                Forall (attached g T) (parents n ++ children n)) (heap g)
  ∧ map_Forall (λ a na, attached g T a →
       map_Forall (λ b nb, attached g T b →
          occurrences b (children na) = occurrences a (parents nb)) (heap g))
       (heap g)
  ∧ map_Forall (λ i a, i = stem_id g →
                  a ∉ T ∧ (parents <$> heap g !! a) = Some []) (known_ids g)
  ∧ map_Forall (λ a n, attached g T a → a ∉ parents n) (heap g).

#[global] Instance consistent_upto_dec g T : Decision (consistent_upto g T).
Proof. unfold consistent_upto, attached, registered. apply _. Defined.

(** Edge consistency alone: [consistent_upto] without its last clause,
    so that a virus may be its own parent; this goes for the stem virus
    too, which has no other parent. *)
Definition edges_upto g T : Prop :=
  map_Forall (λ a n, attached g T a →
                Forall (attached g T) (parents n ++ children n)) (heap g)
  ∧ map_Forall (λ a na, attached g T a →
       map_Forall (λ b nb, attached g T b →
          occurrences b (children na) = occurrences a (parents nb)) (heap g))
       (heap g)
  ∧ map_Forall (λ i a, i = stem_id g →
                  a ∉ T ∧ (strip {[a]} ∘ parents <$> heap g !! a) = Some [])
               (known_ids g).

#[global] Instance edges_upto_dec g T : Decision (edges_upto g T).
Proof. unfold edges_upto, attached, registered. apply _. Defined.

(** The invariant of a genealogy between calls: the stem virus is
    registered and, among the registered nodes, parents and children are
    registered, [P] occurs in the parents of [C] as often as [C] occurs
    in the children of [P], the stem virus has no parent and no virus is
    its own parent. *)
Definition consistent g : Prop :=
  wf g ∧ is_Some (known_ids g !! stem_id g) ∧ consistent_upto g ∅.

#[global] Instance consistent_dec g : Decision (consistent g).
Proof. unfold consistent. apply _. Defined.

(** The invariant of a genealogy whose stem virus has never been made
    the child of another virus: the stem virus is registered and has no
    parent but itself and, among the registered nodes, parents and
    children are registered and [P] occurs in the parents of [C] as
    often as [C] occurs in the children of [P]. *)
Definition edge_consistent g : Prop :=
  wf g ∧ is_Some (known_ids g !! stem_id g) ∧ edges_upto g ∅.

#[global] Instance edge_consistent_dec g : Decision (edge_consistent g).
Proof. unfold edge_consistent. apply _. Defined.

(** A caller that never makes another virus a parent of the stem virus:
    a call of [connect] with the stem virus as child names the stem
    virus as parent too, or a virus that is not there. *)
Definition rooted g (c : call) : Prop :=
  match c with
  | Connect child_id parent_id =>
      child_id = stem_id g →
      parent_id = stem_id g ∨ exists_ g parent_id = false
  | _ => True
  end.

Inductive reachable_rooted : VirusGenealogy id_type Virus → Prop :=
  | rooted_new stem g :
      VirusGenealogy_new stem = Ret tt g → reachable_rooted g
  | rooted_call g c g' :
      reachable_rooted g → rooted g c →
      after (run_call c g) = Some g' → reachable_rooted g'.

(** ** Postconditions

    [ends o Q E F]: a returned result satisfies [Q], a thrown exception
    [E], and running out of fuel is only acceptable when [F] holds.  A
    terminated process and undefined behaviour leave no genealogy to
    speak about. *)
Definition ends {A} (o : outcome id_type Virus A)
    (Q : A → VirusGenealogy id_type Virus → Prop)
    (E : exn → VirusGenealogy id_type Virus → Prop) (F : Prop) : Prop :=
  match o with
  | Ret a g => Q a g
  | Throw e g => E e g
  | Terminate | Undefined => True
  | OutOfFuel => F
  end.

(** A member function that relates the genealogy it leaves to the one it
    found by [R], however it ends, and needs no fuel. *)
Definition respects (R : relation (VirusGenealogy id_type Virus)) {A}
    (m : M id_type Virus A) : Prop :=
  ∀ g, ends (m g) (λ _, R g) (λ _, R g) False.

(** What every step of [remove] does to a genealogy: the registry loses
    entries but never the one of the stem virus, nodes keep their
    identifiers, registered nodes stay alive, nothing is allocated and
    no [parents] vector grows. *)
Definition shrinks g g' : Prop :=
  stem_id g' = stem_id g
  ∧ next_addr g' = next_addr g
  ∧ known_ids g' ⊆ known_ids g
  ∧ known_ids g' !! stem_id g = known_ids g !! stem_id g
  ∧ (∀ a n', heap g' !! a = Some n' →
       ∃ n, heap g !! a = Some n ∧ node_id n' = node_id n)
  ∧ (∀ i a, known_ids g' !! i = Some a →
       is_Some (heap g !! a) → is_Some (heap g' !! a))
  ∧ total_parents g' ≤ total_parents g.

(** ** Taking nodes out

    A node with the entries for the nodes in [D] taken out of both of its
    vectors. *)
Definition stripped (D : gset addr) n : Node id_type Virus :=
  mkNode (node_id n) (virus n) (strip D (parents n)) (strip D (children n)).

(** [g'] is [g] with the nodes in [D] taken out of the vectors of every
    other attached node; registry entries disappear for nodes in [D]
    only. *)
Definition detaches g T g' (D : gset addr) : Prop :=
  stem_id g' = stem_id g
  ∧ next_addr g' = next_addr g
  ∧ known_ids g' ⊆ known_ids g
  ∧ (∀ i b, known_ids g !! i = Some b → b ∉ D → known_ids g' !! i = Some b)
  ∧ (∀ b nb, attached g T b → b ∉ D → heap g !! b = Some nb →
       heap g' !! b = Some (stripped D nb)).

(** The nodes that go when the nodes in [roots] are removed: the roots,
    and, step by step, every attached node that has parents all of which
    go.  Nothing else is in this set: it is the least one closed under
    the two rules. *)
Inductive falls g T (roots : addr → Prop) : addr → Prop :=
  | falls_root d : roots d → falls g T roots d
  | falls_orphan d nd :
      attached g T d → heap g !! d = Some nd → parents nd ≠ [] →
      (∀ p, p ∈ parents nd → falls g T roots p) →
      falls g T roots d.

(** The outcome of a cascade that started from the nodes in [roots]:
    exactly the nodes in [D] are gone, each of them a root or a node that
    went because all its parents did, and no node that is left has lost
    its last parent. *)
Definition cascade g T (roots : addr → Prop) g' (D : gset addr) : Prop :=
  detaches g T g' D
  ∧ (∀ d, d ∈ D → attached g T d)
  ∧ known_ids g' = filter (λ ib, ib.2 ∉ D) (known_ids g)
  ∧ (∀ d, d ∈ D → falls g T roots d)
  ∧ (∀ b nb, attached g T b → b ∉ D → heap g !! b = Some nb →
       parents nb ≠ [] → strip D (parents nb) ≠ []).

(** The cascade of [remove] on the registered node at [a], between
    calls: the node itself and, step by step, every registered node that
    has parents all of which go. *)
Inductive goes_with g (a : addr) : addr → Prop :=
  | goes_itself : goes_with g a a
  | goes_orphan b nb :
      registered g b → heap g !! b = Some nb → parents nb ≠ [] →
      (∀ p, p ∈ parents nb → goes_with g a p) →
      goes_with g a b.

(** The registered nodes that have been taken out before are taken out
    of everything, so a cascade does not touch them. *)
Definition untouched g T g' : Prop :=
  ∀ t nt, t ∈ T → heap g !! t = Some nt →
    known_ids g !! node_id nt = Some t → heap g' !! t = Some nt.

(** The state of [remove_my_trace] between two iterations: the vectors of
    the attached nodes differ from the original ones only in entries for
    the node [a] being removed, [kp b] of which are left in the parents
    and [kc b] in the children of [b]. *)
Definition trace_step g T a (kp kc : addr → nat) g1 : Prop :=
  stem_id g1 = stem_id g
  ∧ known_ids g1 = known_ids g
  ∧ next_addr g1 = next_addr g
  ∧ (∀ b nb, attached g T b → heap g !! b = Some nb →
      ∃ nb', heap g1 !! b = Some nb'
        ∧ node_id nb' = node_id nb ∧ virus nb' = virus nb
        ∧ strip {[a]} (parents nb') = strip {[a]} (parents nb)
        ∧ strip {[a]} (children nb') = strip {[a]} (children nb)
        ∧ occurrences a (parents nb') = kp b
        ∧ occurrences a (children nb') = kc b)
  ∧ untouched g T g1.

(** The attached nodes that had parents in [g] and have none in [g1]:
    the orphans [remove_my_trace] reports. *)
Definition orphan_in g T g1 (o : id_type) : Prop :=
  ∃ b nb nb', attached g T b ∧ heap g !! b = Some nb ∧ node_id nb = o
              ∧ parents nb ≠ [] ∧ heap g1 !! b = Some nb' ∧ parents nb' = [].

(** What a call [remove(id)] with budget [k] achieves on a registered
    node that is not the stem virus: it runs out of budget or removes a
    cascade rooted at that node. *)
Definition remove_ok (k : nat) : Prop :=
  ∀ g T i a,
    consistent_upto g T → wf g →
    known_ids g !! i = Some a → a ∉ T → i ≠ stem_id g →
    remove_fuel k i g = OutOfFuel ∨
    ∃ g' D, remove_fuel k i g = Ret tt g' ∧ wf g'
            ∧ cascade g T (λ d, d = a) g' D ∧ a ∈ D.

(** A node that is its own parent. *)
Definition self_parent g T : Prop :=
  ∃ b nb, attached g T b ∧ heap g !! b = Some nb ∧ b ∈ parents nb.

(** The same on a genealogy in which a virus may be its own parent.  A
    virus whose only parent is the virus itself is its own orphan:
    [remove] calls itself for it a second time, and the second call
    looks for an entry in an empty [parents] vector and erases
    [parents.end()]. *)
Definition remove_spec (k : nat) : Prop :=
  ∀ g T i a,
    edges_upto g T → wf g →
    known_ids g !! i = Some a → a ∉ T → i ≠ stem_id g →
    remove_fuel k i g = OutOfFuel
    ∨ (∃ g' D, remove_fuel k i g = Ret tt g' ∧ wf g'
               ∧ cascade g T (λ d, d = a) g' D ∧ a ∈ D ∧ untouched g T g')
    ∨ (after (remove_fuel k i g) = None ∧ self_parent g T).

(** ** Adding edges *)

(** Member functions of [Node] leave the registry alone. *)
Definition same_registry g g' : Prop :=
  stem_id g' = stem_id g ∧ known_ids g' = known_ids g
  ∧ next_addr g' = next_addr g.

(** The node at [b] after [add_parent] has been called on the node at
    [this] once for every entry of [aps], in that order: [this] has the
    new parents at the end of its [parents], and each new parent has one
    entry for [this] at the end of its [children] per call. *)
Definition extended (this : addr) (aps : list addr) (b : addr) n
    : Node id_type Virus :=
  mkNode (node_id n) (virus n)
         (parents n ++ (if decide (b = this) then aps else []))
         (children n ++ replicate (occurrences b aps) this).

Definition linked (h : gmap addr (Node id_type Virus)) (this : addr)
    (aps : list addr) (h' : gmap addr (Node id_type Virus)) : Prop :=
  ∀ b, h' !! b = extended this aps b <$> h !! b.

(** The genealogy right after [known_ids[id] = make_shared<Node>(id)]. *)
Definition allocated g (i : id_type) (v : Virus) : VirusGenealogy id_type Virus :=
  mkGenealogy (stem_id g) (<[i := next_addr g]> (known_ids g))
              (<[next_addr g := mkNode i v [] []]> (heap g))
              (S (next_addr g)).

(** ** Order of the vectors

    The edges of a genealogy as pairs of a parent and a child, in the
    order in which [add_parent] has made them.  The [parents] vector of a
    node is what this sequence holds for it as a child, its [children]
    vector what the sequence holds for it as a parent, both in the order
    of the sequence. *)
Definition parents_in (log : list (addr * addr)) (c : addr) : list addr :=
  (filter (λ e, e.2 = c) log).*1.
Definition children_in (log : list (addr * addr)) (p : addr) : list addr :=
  (filter (λ e, e.1 = p) log).*2.

Definition edge_log g (log : list (addr * addr)) : Prop :=
  (∀ e, e ∈ log → registered g e.1 ∧ registered g e.2)
  ∧ ∀ a n, registered g a → heap g !! a = Some n →
      parents n = parents_in log a ∧ children n = children_in log a.

#[global] Instance registered_dec g a : Decision (registered g a).
Proof. unfold registered. apply _. Defined.

(** The edges of [log] between nodes that are registered in [g']. *)
Definition surviving g' (log : list (addr * addr)) : list (addr * addr) :=
  filter (λ e, registered g' e.1 ∧ registered g' e.2) log.

(** The parents and the children of a registered identifier. *)
Definition parents_of g (i : id_type) : list addr :=
  default [] (parents <$> ((known_ids g !! i) ≫= (λ a, heap g !! a))).
Definition children_of g (i : id_type) : list addr :=
  default [] (children <$> ((known_ids g !! i) ≫= (λ a, heap g !! a))).

(** ** Programs

    A sequence of calls, each run on the genealogy the one before left
    behind; a call that terminates the process ends the program. *)
Fixpoint run_calls (cs : list call) g : option (VirusGenealogy id_type Virus) :=
  match cs with
  | [] => Some g
  | c :: cs' => after (run_call c g) ≫= run_calls cs'
  end.

(** ** The free store between calls *)

(** What [remove] can do to a node that stays alive: take entries out of
    its vectors.  The identifier, the payload and the order of the
    entries that are left do not change, and no node appears. *)
Definition dwindles g g' : Prop :=
  ∀ a n', heap g' !! a = Some n' →
    ∃ n, heap g !! a = Some n
         ∧ node_id n' = node_id n ∧ virus n' = virus n
         ∧ sublist (parents n') (parents n)
         ∧ sublist (children n') (children n).

(** A member function that keeps the invariant [P]. *)
Definition preserves (P : VirusGenealogy id_type Virus → Prop) g g' : Prop :=
  P g → P g'.

(** Every node carries the payload that [Virus(id)] made for its
    identifier. *)
Definition payloads_from_ids g : Prop :=
  map_Forall (λ _ n, Virus_new (node_id n) = Some (virus n)) (heap g).

(** Every live node has an owner: [shared_ptr] has destroyed the
    others. *)
Definition no_garbage g : Prop :=
  map_Forall (λ a _, referenced g a = true) (heap g).

#[global] Instance no_garbage_dec g : Decision (no_garbage g).
Proof. unfold no_garbage. apply _. Defined.

(** Every live node is the node the registry holds for its identifier:
    nothing has leaked. *)
Definition leak_free g : Prop :=
  map_Forall (λ a n, known_ids g !! node_id n = Some a) (heap g).

#[global] Instance leak_free_dec g : Decision (leak_free g).
Proof. unfold leak_free. apply _. Defined.

(** A live node that [remove] has taken out, or that has lost its
    registry entry. *)
Definition stale g T a : Prop := is_Some (heap g !! a) ∧ ¬ attached g T a.

(** Among the stale nodes, an owner has been taken out before the nodes
    it still owns: [rank] numbers them in that order. *)
Definition ranked g T (rank : addr → nat) (bound : nat) : Prop :=
  (∀ x, stale g T x → rank x < bound)
  ∧ (∀ x nx b, stale g T x → heap g !! x = Some nx → b ∈ children nx →
       stale g T b → rank x < rank b).

Definition acyclic g T : Prop := ∃ rank bound, ranked g T rank bound.

(** What [remove(id)] with budget [k] leaves of the order among the
    stale nodes. *)
Definition remove_keeps_acyclic (k : nat) : Prop :=
  ∀ g T i a g',
    consistent_upto g T → wf g →
    known_ids g !! i = Some a → a ∉ T → i ≠ stem_id g →
    acyclic g T → remove_fuel k i g = Ret tt g' → acyclic g' T.

End invariants.

(** ** A concrete payload: viruses named by strings *)

Record SimpleVirus := mkVirus { virus_name : string }.

(** The constructor rejects the name ["BAD"]. *)
#[global] Instance SimpleVirus_class : VirusClassType SimpleVirus string := {|
  Virus_get_id := virus_name;
  Virus_new := λ i, if decide (i = "BAD") then None else Some (mkVirus i)
|}.

Definition and_then {A} (o : outcome string SimpleVirus unit)
    (m : M string SimpleVirus A) : outcome string SimpleVirus A :=
  match o with
  | Ret _ g => m g
  | Throw e g => Throw e g
  | Terminate => Terminate
  | Undefined => Undefined
  | OutOfFuel => OutOfFuel
  end.

(** The genealogy an outcome leaves behind (an empty one after a crash). *)
Definition genealogy_of {A} (o : outcome string SimpleVirus A)
    : VirusGenealogy string SimpleVirus :=
  match o with
  | Ret _ g | Throw _ g => g
  | _ => mkGenealogy "" ∅ ∅ 0
  end.

(** The genealogy with the stem virus ["S"] alone. *)
Definition lineage_S : outcome string SimpleVirus unit :=
  VirusGenealogy_new "S".

(** Root ["S"]; [create("A", "S")]; [create("B", {"A"})];
    [connect("B", "S")]. *)
Definition lineage_SAB : outcome string SimpleVirus unit :=
  and_then (and_then (and_then lineage_S (create "A" "S"))
                     (create_multi "B" ["A"]))
           (connect "B" "S").

(** Root ["S"]; [create("A", "S")]; [connect("S", "A")]: the stem virus
    has become a child of its own child. *)
Definition lineage_cycle : outcome string SimpleVirus unit :=
  and_then (and_then lineage_S (create "A" "S")) (connect "S" "A").

(** Root ["S"]; [create("A", "S")]; [connect("A", "A")];
    [connect("S", "S")]: both viruses are their own parents. *)
Definition lineage_own : outcome string SimpleVirus unit :=
  and_then (and_then (and_then lineage_S (create "A" "S")) (connect "A" "A"))
           (connect "S" "S").

(** Root ["S"]; [create("P", "S")]; [create("X", "P")];
    [connect("X", "X")]; [remove("P")]: ["X"] is left with itself as its
    only parent. *)
Definition lineage_self_orphan : outcome string SimpleVirus unit :=
  and_then (and_then (and_then (and_then lineage_S (create "P" "S"))
                               (create "X" "P"))
                     (connect "X" "X"))
           (remove "P").

(** Root ["S"]; [create("A", "S")]; [create("B", "A")];
    [create("C", "B")]; [connect("B", "C")]: ["B"] and ["C"] are each
    other's parents, away from the stem virus. *)
Definition lineage_loop : outcome string SimpleVirus unit :=
  and_then (and_then (and_then (and_then lineage_S (create "A" "S"))
                               (create "B" "A"))
                     (create "C" "B"))
           (connect "B" "C").

(** Root ["S"]; [create("A", "S")]; [create("B", "S")]. *)
Definition lineage_siblings : outcome string SimpleVirus unit :=
  and_then (and_then lineage_S (create "A" "S")) (create "B" "S").

(** The genealogies these calls leave behind. *)
Definition genealogy_S := genealogy_of lineage_S.
Definition genealogy_SA := genealogy_of (and_then lineage_S (create "A" "S")).
Definition genealogy_SAB := genealogy_of lineage_SAB.
Definition genealogy_cycle := genealogy_of lineage_cycle.
Definition genealogy_own := genealogy_of lineage_own.
Definition genealogy_loop := genealogy_of lineage_loop.
Definition genealogy_self_orphan := genealogy_of lineage_self_orphan.

(** * Properties of single calls *)

Section calls.
Context {id_type : Type} `{Countable id_type}.
Context {Virus : Type} `{!VirusClassType Virus id_type}.
Implicit Types (g : VirusGenealogy id_type Virus) (n : Node id_type Virus).
Implicit Types (i : id_type) (a b : addr).

Lemma exists_true g i : exists_ g i = true ↔ is_Some (known_ids g !! i).
Proof. unfold exists_. apply bool_decide_eq_true. Qed.

Lemma exists_false g i : exists_ g i = false ↔ known_ids g !! i = None.
Proof.
  unfold exists_. rewrite bool_decide_eq_false, eq_None_not_Some. done.
Qed.

Lemma exists_all_Forall g ids :
  exists_all g ids = true ↔ Forall (λ i, exists_ g i = true) ids.
Proof.
  induction ids as [|i ids IH]; simpl.
  - split; [constructor | done].
  - destruct (exists_ g i) eqn:E; simpl.
    + rewrite IH. split; [by constructor | by inversion 1].
    + split; [done | inversion 1; congruence].
Qed.

(** C9. [exists] on the empty vector answers true, and on any vector it
    answers true exactly when [exists] answers true for each identifier
    in it. *)
Theorem exists_all_iff g :
  exists_all g [] = true ∧
  ∀ ids, exists_all g ids = true ↔ ∀ i, i ∈ ids → exists_ g i = true.
Proof.
  split; [done|]. intros ids.
  rewrite exists_all_Forall. apply Forall_forall.
Qed.

Lemma bind_unit_ret (m : M id_type Virus unit) g :
  (do m in ret tt) g = m g.
Proof. unfold bind, ret. by destruct (m g) as [[] ?| | | |]. Qed.

Lemma create_is_create_multi g i parent_id :
  create i parent_id g = create_multi i [parent_id] g.
Proof.
  cbv [create create_multi bind gets try_catch for_each ret throw exists_all].
  destruct (exists_ g i); [done|].
  destruct (exists_ g parent_id); simpl; [|done].
  destruct (Node_new i g) as [p g1| | | |]; try done.
  destruct (map_assign i p g1) as [[] g2| | | |]; try done.
  destruct (map_index i g2) as [this g3| | | |]; try done.
  destruct (map_at parent_id g3) as [parent g4| | | |]; try done.
  by destruct (Node_add_parent this parent g4) as [[] g5| | | |].
Qed.

(** C10. [create(id, parent_id)] and [create(id, {parent_id})] end the
    same way on every genealogy: the same exception from the same
    genealogies, the same genealogy after a return.  Both throw
    [VirusAlreadyCreated] for a registered [id] whatever the parent, and
    [VirusNotFound] only for a new [id] with an unregistered parent. *)
Theorem create_single_is_multi_singleton g i parent_id :
  create i parent_id g = create_multi i [parent_id] g
  ∧ (exists_ g i = true →
       create i parent_id g = Throw VirusAlreadyCreated g)
  ∧ (exists_ g i = false → exists_ g parent_id = false →
       create i parent_id g = Throw VirusNotFound g).
Proof.
  split; [apply create_is_create_multi|].
  unfold create, bind, gets, throw. simpl.
  split; [by intros ->|by intros -> ->].
Qed.

(** C5, as the code has it.  [create(id, {})] for an identifier that is
    not registered returns without touching the genealogy; for a
    registered identifier it throws [VirusAlreadyCreated], again without
    touching the genealogy. *)
Theorem create_multi_no_parents g i :
  (exists_ g i = false → create_multi i [] g = Ret tt g) ∧
  (exists_ g i = true → create_multi i [] g = Throw VirusAlreadyCreated g).
Proof.
  unfold create_multi, bind, gets, throw, ret. simpl.
  split; intros ->; done.
Qed.

End calls.

(** * Reasoning about member functions *)

Section monad_facts.
Context {id_type : Type} `{Countable id_type}.
Context {Virus : Type} `{!VirusClassType Virus id_type}.
Implicit Types (g : VirusGenealogy id_type Virus) (n : Node id_type Virus).
Implicit Types (i : id_type) (a b c p : addr).

Lemma bind_Ret {A B} (m : M id_type Virus A) (f : A → M id_type Virus B) g x g1 :
  m g = Ret x g1 → (let* y := m in f y) g = f x g1.
Proof. unfold bind. by intros ->. Qed.

Lemma ends_mono {A} (o : outcome id_type Virus A) (Q Q' : A → _ → Prop)
    (E E' : exn → _ → Prop) (F F' : Prop) :
  ends o Q E F →
  (∀ x g, o = Ret x g → Q x g → Q' x g) →
  (∀ e g, o = Throw e g → E e g → E' e g) →
  (F → F') →
  ends o Q' E' F'.
Proof. destruct o; simpl; eauto. Qed.

Lemma ends_bind {A B} (m : M id_type Virus A) (f : A → M id_type Virus B) g
    (Q : B → _ → Prop) (E : exn → _ → Prop) (F : Prop) :
  ends (m g) (λ x g1, ends (f x g1) Q E F) E F →
  ends ((let* x := m in f x) g) Q E F.
Proof. unfold bind. by destruct (m g). Qed.

Section respects.
Context (R : relation (VirusGenealogy id_type Virus)) `{!PreOrder R}.

Lemma respects_ret {A} (x : A) : respects R (ret x).
Proof. intros g. simpl. reflexivity. Qed.

Lemma respects_throw {A} e : respects R (throw (A:=A) e).
Proof. intros g. simpl. reflexivity. Qed.

Lemma respects_undefined {A} : respects R (undefined (A:=A)).
Proof. by intros g. Qed.

Lemma respects_gets {A} (f : _ → A) : respects R (gets f).
Proof. intros g. simpl. reflexivity. Qed.

Lemma respects_bind {A B} (m : M id_type Virus A) (f : A → M id_type Virus B) :
  respects R m → (∀ x, respects R (f x)) → respects R (let* x := m in f x).
Proof.
  intros Hm Hf g. apply ends_bind.
  eapply ends_mono; [apply Hm| |done|done].
  intros x g1 _ Hg1. simpl in Hg1.
  eapply ends_mono; [apply Hf| | |done]; simpl; intros; by etrans.
Qed.

Lemma respects_for_each {A} (body : A → M id_type Virus unit) l :
  (∀ x, respects R (body x)) → respects R (for_each body l).
Proof.
  intros Hb. induction l as [|x l IH]; simpl.
  - apply respects_ret.
  - by apply respects_bind.
Qed.

Lemma respects_deref a : respects R (deref a).
Proof. intros g. unfold deref. destruct (heap g !! a); simpl; done. Qed.

Lemma respects_lock a : respects R (lock a).
Proof. intros g. unfold lock. destruct (heap g !! a); simpl; done. Qed.

Lemma respects_map_at i : respects R (map_at i).
Proof. intros g. unfold map_at. destruct (known_ids g !! i); simpl; done. Qed.

Lemma respects_find_parent i ps : respects R (find_parent i ps).
Proof.
  induction ps as [|p ps IH]; simpl; [apply respects_ret|].
  apply respects_bind; [apply respects_lock|]. intros n.
  case_decide; [apply respects_ret|].
  apply respects_bind; [done|]. intros; apply respects_ret.
Qed.

Lemma respects_find_child i cs : respects R (find_child i cs).
Proof.
  induction cs as [|c cs IH]; simpl; [apply respects_ret|].
  apply respects_bind; [apply respects_deref|]. intros n.
  case_decide; [apply respects_ret|].
  apply respects_bind; [done|]. intros; apply respects_ret.
Qed.

End respects.

(** Reading the free store. *)
Lemma deref_eq g a n : heap g !! a = Some n → deref a g = Ret n g.
Proof. unfold deref. by intros ->. Qed.

Lemma lock_eq g a n : heap g !! a = Some n → lock a g = Ret n g.
Proof. unfold lock. by intros ->. Qed.

Lemma deref_inv g a n g' : deref a g = Ret n g' → g' = g ∧ heap g !! a = Some n.
Proof. unfold deref. destruct (heap g !! a); naive_solver. Qed.

Lemma map_at_eq g i a : known_ids g !! i = Some a → map_at i g = Ret a g.
Proof. unfold map_at. by intros ->. Qed.

Lemma map_index_eq g i a : known_ids g !! i = Some a → map_index i g = Ret a g.
Proof. unfold map_index. by intros ->. Qed.

End monad_facts.

(** * Vectors of node pointers *)

Section vectors.
Implicit Types (a b x : addr) (l : list addr) (D : gset addr).

Lemma occurrences_cons a x l :
  occurrences a (x :: l) = (if decide (x = a) then 1 else 0) + occurrences a l.
Proof. unfold occurrences. rewrite filter_cons. by case_decide. Qed.

Lemma occurrences_app a l1 l2 :
  occurrences a (l1 ++ l2) = occurrences a l1 + occurrences a l2.
Proof. unfold occurrences. by rewrite filter_app, length_app. Qed.

Lemma occurrences_zero a l : occurrences a l = 0 ↔ a ∉ l.
Proof.
  induction l as [|x l IH].
  { split; [intros _; apply not_elem_of_nil | done]. }
  rewrite occurrences_cons, not_elem_of_cons. case_decide; simpl.
  - split; [done|]. intros [? _]. congruence.
  - rewrite IH. split; [by intros ?|by intros [_ ?]].
Qed.

Lemma occurrences_pos a l : 0 < occurrences a l ↔ a ∈ l.
Proof.
  destruct (decide (a ∈ l)) as [Hin|Hni].
  - split; [done|]. intros _. apply Nat.neq_0_lt_0.
    by intros ?%occurrences_zero.
  - split; [|done]. apply occurrences_zero in Hni. lia.
Qed.

Lemma occurrences_delete a l j x :
  l !! j = Some x →
  occurrences a l = (if decide (x = a) then 1 else 0) + occurrences a (delete j l).
Proof.
  revert j. induction l as [|y l IH]; intros [|j] Hj; simplify_eq/=.
  - by rewrite occurrences_cons.
  - rewrite !occurrences_cons, (IH j Hj). lia.
Qed.

Lemma length_delete_lookup l j x :
  l !! j = Some x → length l = S (length (delete j l)).
Proof.
  intros Hj. rewrite length_delete by eauto. apply lookup_lt_Some in Hj. lia.
Qed.

Lemma strip_cons D x l :
  strip D (x :: l) = if decide (x ∉ D) then x :: strip D l else strip D l.
Proof. unfold strip. by rewrite filter_cons. Qed.

Lemma strip_app D l1 l2 : strip D (l1 ++ l2) = strip D l1 ++ strip D l2.
Proof. unfold strip. by rewrite filter_app. Qed.

Lemma elem_of_strip D l x : x ∈ strip D l ↔ x ∉ D ∧ x ∈ l.
Proof. unfold strip. by rewrite list_elem_of_filter. Qed.

Lemma strip_delete D l j x :
  l !! j = Some x → x ∈ D → strip D (delete j l) = strip D l.
Proof.
  revert j. induction l as [|y l IH]; intros [|j] Hj Hx; simplify_eq/=.
  - rewrite strip_cons. by rewrite decide_False by naive_solver.
  - rewrite !strip_cons. by rewrite (IH j Hj Hx).
Qed.

Lemma strip_id D l : (∀ x, x ∈ l → x ∉ D) → strip D l = l.
Proof.
  induction l as [|y l IH]; intros Hl; [done|].
  rewrite strip_cons, decide_True by (apply Hl; left).
  f_equal. apply IH. intros x Hx. apply Hl. by right.
Qed.

Lemma strip_singleton_id a l : occurrences a l = 0 → strip {[a]} l = l.
Proof.
  rewrite occurrences_zero. intros Ha. apply strip_id. set_solver.
Qed.

Lemma strip_nil_iff D l : strip D l = [] ↔ ∀ x, x ∈ l → x ∈ D.
Proof.
  induction l as [|y l IH]; [by split; [intros _ ? ?%elem_of_nil|]|].
  rewrite strip_cons. case_decide as Hy.
  - split; [done|]. intros Hl. destruct Hy. apply Hl. left.
  - rewrite IH. split.
    + intros Hl x [->|?]%elem_of_cons; auto.
    + intros Hl x ?. apply Hl. by right.
Qed.

Lemma occurrences_strip D b l : b ∉ D → occurrences b (strip D l) = occurrences b l.
Proof.
  intros Hb. induction l as [|y l IH]; [done|].
  rewrite strip_cons, occurrences_cons. case_decide as Hy.
  - by rewrite occurrences_cons, IH.
  - rewrite IH. case_decide; [|done]. subst. set_solver.
Qed.

Lemma strip_strip D1 D2 l : strip D2 (strip D1 l) = strip (D1 ∪ D2) l.
Proof.
  induction l as [|y l IH]; [done|].
  rewrite (strip_cons D1), (strip_cons (D1 ∪ D2)).
  destruct (decide (y ∉ D1)) as [H1|H1].
  - rewrite strip_cons, IH. destruct (decide (y ∉ D2)) as [H2|H2].
    + by rewrite decide_True by set_solver.
    + by rewrite decide_False by set_solver.
  - rewrite IH. by rewrite decide_False by set_solver.
Qed.

Lemma strip_empty l : strip ∅ l = l.
Proof. apply strip_id. set_solver. Qed.

End vectors.

(** * What [remove] does to any genealogy *)

Section shrinking.
Context {id_type : Type} `{Countable id_type}.
Context {Virus : Type} `{!VirusClassType Virus id_type}.
Implicit Types (g : VirusGenealogy id_type Virus) (n : Node id_type Virus).
Implicit Types (h : gmap addr (Node id_type Virus)).
Implicit Types (i : id_type) (a b c p : addr).

(** ** The measure *)

Lemma weight_insert h a n :
  h !! a = None → weight (<[a := n]> h) = length (parents n) + weight h.
Proof.
  intros Ha. unfold weight. rewrite map_fold_insert_L; [done| |done].
  intros; lia.
Qed.

Lemma weight_delete h a n :
  h !! a = Some n → weight h = length (parents n) + weight (delete a h).
Proof.
  intros Ha. unfold weight. erewrite map_fold_delete_L; [done| |done].
  intros; lia.
Qed.

Lemma weight_update h a n n' :
  h !! a = Some n →
  weight (<[a := n']> h) + length (parents n) = weight h + length (parents n').
Proof.
  intros Ha. rewrite <-insert_delete_eq, weight_insert by apply lookup_delete_eq.
  rewrite (weight_delete h a n Ha). lia.
Qed.

Lemma weight_subseteq h1 h2 : h1 ⊆ h2 → weight h1 ≤ weight h2.
Proof.
  revert h2. induction h1 as [|a n h1 Ha IH] using map_ind; intros h2 Hsub.
  - unfold weight at 1. rewrite map_fold_empty. lia.
  - assert (h2 !! a = Some n) as Ha2.
    { eapply lookup_weaken; [|done]. apply lookup_insert_eq. }
    rewrite weight_insert, (weight_delete h2 a n) by done.
    apply Nat.add_le_mono_l, IH.
    apply map_subseteq_spec. intros b nb Hb.
    destruct (decide (a = b)) as [->|Hab]; [congruence|].
    rewrite lookup_delete_ne by done.
    eapply lookup_weaken; [|done]. by rewrite lookup_insert_ne.
Qed.

(** ** Destroying nodes *)

Lemma referenced_registry g i a :
  known_ids g !! i = Some a → referenced g a = true.
Proof.
  intros Hi. unfold referenced. apply orb_true_iff. left.
  apply existsb_exists. exists (i, a). split.
  - apply list_elem_of_In, elem_of_map_to_list. done.
  - by apply bool_decide_eq_true.
Qed.

Lemma sweep_once_lookup g a :
  heap (sweep_once g) !! a =
  if referenced g a then heap g !! a else None.
Proof.
  unfold sweep_once. simpl. destruct (referenced g a) eqn:Hr.
  - apply option_eq. intros n. rewrite map_lookup_filter_Some. simpl. naive_solver.
  - apply map_lookup_filter_None. right. intros n _. simpl. congruence.
Qed.

Lemma iter_sweep_fields k g :
  stem_id (Nat.iter k sweep_once g) = stem_id g
  ∧ known_ids (Nat.iter k sweep_once g) = known_ids g
  ∧ next_addr (Nat.iter k sweep_once g) = next_addr g.
Proof. induction k as [|k IH]; [done|]. simpl. apply IH. Qed.

Lemma iter_sweep_subseteq k g : heap (Nat.iter k sweep_once g) ⊆ heap g.
Proof.
  induction k as [|k IH]; [done|]. simpl. etrans; [|apply IH].
  apply map_filter_subseteq.
Qed.

Lemma iter_sweep_registered k g i a :
  known_ids g !! i = Some a → heap (Nat.iter k sweep_once g) !! a = heap g !! a.
Proof.
  intros Hi. induction k as [|k IH]; [done|]. rewrite Nat.iter_succ.
  rewrite sweep_once_lookup, (referenced_registry _ i); [done|].
  by rewrite (proj1 (proj2 (iter_sweep_fields k g))).
Qed.

Lemma sweep_stem_id g : stem_id (sweep g) = stem_id g.
Proof. apply iter_sweep_fields. Qed.
Lemma sweep_known_ids g : known_ids (sweep g) = known_ids g.
Proof. apply iter_sweep_fields. Qed.
Lemma sweep_next_addr g : next_addr (sweep g) = next_addr g.
Proof. apply iter_sweep_fields. Qed.
Lemma sweep_subseteq g : heap (sweep g) ⊆ heap g.
Proof. apply iter_sweep_subseteq. Qed.
Lemma sweep_registered g i a :
  known_ids g !! i = Some a → heap (sweep g) !! a = heap g !! a.
Proof. apply iter_sweep_registered. Qed.

(** ** [shrinks] *)

#[global] Instance shrinks_preorder : PreOrder (shrinks (id_type:=id_type) (Virus:=Virus)).
Proof.
  split.
  - intros g. unfold shrinks. split_and!; eauto.
  - intros g1 g2 g3 (Hs1&Hn1&Hk1&Ht1&Hh1&Hr1&Hw1) (Hs2&Hn2&Hk2&Ht2&Hh2&Hr2&Hw2).
    unfold shrinks. split_and!; try congruence.
    + by etrans.
    + intros a n3 Ha. destruct (Hh2 a n3 Ha) as (n2&Ha2&?).
      destruct (Hh1 a n2 Ha2) as (n1&?&?). exists n1. split; [done|congruence].
    + intros i a Hi Ha. apply (Hr2 i a Hi), (Hr1 i a); [|done].
      eapply lookup_weaken; done.
    + lia.
Qed.

Lemma shrinks_wf g g' : shrinks g g' → wf g → wf g'.
Proof.
  intros (Hs&Hn&Hk&Ht&Hh&Hr&Hw) [Hreg Halloc]. split.
  - intros i a Hi.
    assert (known_ids g !! i = Some a) as Hi0 by (eapply lookup_weaken; done).
    specialize (Hreg i a Hi0). simpl in Hreg.
    destruct (heap g !! a) as [n|] eqn:Ha; [|done].
    simpl in Hreg. injection Hreg as Hid.
    destruct (Hr i a Hi) as [n' Hn']; [by rewrite Ha|].
    destruct (Hh a n' Hn') as (n0&?&?). rewrite Hn'. simpl. congruence.
  - intros a n' Ha. destruct (Hh a n' Ha) as (n&Ha0&_).
    rewrite Hn. by apply (Halloc a n).
Qed.

Lemma shrinks_sweep g : shrinks g (sweep g).
Proof.
  unfold shrinks. rewrite sweep_stem_id, sweep_next_addr, sweep_known_ids.
  split_and!; try done.
  - intros a n' Ha. exists n'. split; [|done].
    eapply lookup_weaken; [done|apply sweep_subseteq].
  - intros i a Hi Ha. by rewrite (sweep_registered g i a).
  - unfold total_parents. apply weight_subseteq, sweep_subseteq.
Qed.

Lemma shrinks_store g a n n' :
  heap g !! a = Some n → node_id n' = node_id n →
  length (parents n') ≤ length (parents n) →
  shrinks g (set_heap (<[a := n']> (heap g)) g).
Proof.
  intros Ha Hid Hlen. unfold shrinks. simpl. split_and!; try done.
  - intros b nb. destruct (decide (a = b)) as [->|Hab].
    + rewrite lookup_insert_eq. intros [= <-]. eauto.
    + rewrite lookup_insert_ne by done. eauto.
  - intros i b _ Hb. destruct (decide (a = b)) as [->|Hab].
    + by rewrite lookup_insert_eq.
    + by rewrite lookup_insert_ne.
  - unfold total_parents. simpl.
    pose proof (weight_update (heap g) a n n' Ha). lia.
Qed.

Lemma shrinks_erase g i :
  i ≠ stem_id g →
  shrinks g (set_known_ids (delete i (known_ids g)) g).
Proof.
  intros Hi. unfold shrinks. simpl. split_and!; try done.
  - apply delete_subseteq.
  - by rewrite lookup_delete_ne.
  - eauto.
Qed.

End shrinking.

Section removing.
Context {id_type : Type} `{Countable id_type}.
Context {Virus : Type} `{!VirusClassType Virus id_type}.
Implicit Types (g : VirusGenealogy id_type Virus) (n : Node id_type Virus).
Implicit Types (i : id_type) (a b c p : addr).

Lemma find_parent_pure pid ps g :
  ends (find_parent pid ps g)
       (λ r g', g' = g ∧ ∀ j, r = Some j → is_Some (ps !! j))
       (λ _ _, False) False.
Proof.
  induction ps as [|p ps IH]; simpl; [by split|].
  apply ends_bind. unfold lock. destruct (heap g !! p) as [n|]; simpl; [|done].
  case_decide; simpl.
  - split; [done|]. intros j [= <-]. by eexists.
  - apply ends_bind. eapply ends_mono; [apply IH| |done|done].
    simpl. intros r g1 _ [-> Hr]. split; [done|].
    intros [|j] Hj; destruct r; simplify_eq/=. by apply Hr.
Qed.

Lemma find_child_pure cid cs g :
  ends (find_child cid cs g)
       (λ r g', g' = g ∧ ∀ j, r = Some j → is_Some (cs !! j))
       (λ _ _, False) False.
Proof.
  induction cs as [|c cs IH]; simpl; [by split|].
  apply ends_bind. unfold deref. destruct (heap g !! c) as [n|]; simpl; [|done].
  case_decide; simpl.
  - split; [done|]. intros j [= <-]. by eexists.
  - apply ends_bind. eapply ends_mono; [apply IH| |done|done].
    simpl. intros r g1 _ [-> Hr]. split; [done|].
    intros [|j] Hj; destruct r; simplify_eq/=. by apply Hr.
Qed.

Lemma Node_remove_parent_shrinks c pid g :
  ends (Node_remove_parent c pid g)
       (λ _ g', shrinks g g' ∧ total_parents g' < total_parents g)
       (λ _ _, False) False.
Proof.
  unfold Node_remove_parent. apply ends_bind.
  unfold deref. destruct (heap g !! c) as [n|] eqn:Hc; simpl; [|done].
  apply ends_bind. eapply ends_mono; [apply find_parent_pure| |done|done].
  simpl. intros [j|] g1 _ [-> Hr]; [|done].
  destruct (Hr j eq_refl) as [p Hp]. simpl.
  pose proof (length_delete_lookup _ _ _ Hp) as Hlen. split.
  - eapply shrinks_store; [done|done|]. simpl. lia.
  - unfold total_parents. simpl.
    pose proof (weight_update (heap g) c n
                  (set_parents (delete j (parents n)) n) Hc) as Hw.
    simpl in Hw. lia.
Qed.

Lemma Node_remove_child_shrinks c cid g :
  ends (Node_remove_child c cid g) (λ _, shrinks g) (λ _ _, False) False.
Proof.
  unfold Node_remove_child. apply ends_bind.
  unfold deref. destruct (heap g !! c) as [n|] eqn:Hc; simpl; [|done].
  apply ends_bind. eapply ends_mono; [apply find_child_pure| |done|done].
  simpl. intros [j|] g1 _ [-> Hr]; [|done]. simpl.
  etrans; [|apply shrinks_sweep].
  eapply shrinks_store; [done|done|]. done.
Qed.

Lemma collect_orphans_shrinks tid cs acc g :
  ends (collect_orphans tid cs acc g)
       (λ os g', shrinks g g' ∧ (os = acc ∨ total_parents g' < total_parents g))
       (λ _ _, False) False.
Proof.
  revert acc g. induction cs as [|c cs IH]; intros acc g; simpl.
  { split; [done|by left]. }
  apply ends_bind.
  eapply ends_mono; [apply Node_remove_parent_shrinks| |done|done].
  simpl. intros [] g1 _ [Hs1 Hlt]. apply ends_bind.
  unfold Node_is_orphan. apply ends_bind.
  unfold deref. destruct (heap g1 !! c) as [n|] eqn:Hc; simpl; [|done].
  assert (∀ acc', ends (collect_orphans tid cs acc' g1)
     (λ os g', shrinks g g' ∧ (os = acc ∨ total_parents g' < total_parents g))
     (λ _ _, False) False) as Hrest.
  { intros acc'. eapply ends_mono; [apply IH| |done|done].
    simpl. intros os g2 _ [Hs2 _]. split; [by etrans|]. right.
    destruct Hs2 as (_&_&_&_&_&_&?). lia. }
  case_bool_decide; [|apply Hrest].
  apply ends_bind. unfold Node_get_id. apply ends_bind.
  unfold deref. rewrite Hc. simpl. apply Hrest.
Qed.

Lemma Node_remove_my_trace_shrinks this g :
  ends (Node_remove_my_trace this g)
       (λ os g', shrinks g g' ∧ (os = [] ∨ total_parents g' < total_parents g))
       (λ _ _, False) False.
Proof.
  unfold Node_remove_my_trace. apply ends_bind.
  unfold deref at 1. destruct (heap g !! this) as [n|] eqn:Hc; simpl; [|done].
  apply ends_bind.
  eapply ends_mono; [apply collect_orphans_shrinks| |done|done].
  simpl. intros os g1 _ [Hs1 Hos]. apply ends_bind.
  unfold deref. destruct (heap g1 !! this) as [n'|] eqn:Hc'; simpl; [|done].
  apply ends_bind.
  assert (respects (shrinks : relation (VirusGenealogy id_type Virus))
    (for_each (λ p, do lock p in Node_remove_child p (node_id n)) (parents n')))
    as Hloop.
  { apply respects_for_each; [apply _|]. intros p.
    apply respects_bind; [apply _|apply respects_lock; apply _|].
    intros _ g2. eapply ends_mono; [apply Node_remove_child_shrinks|done..]. }
  eapply ends_mono; [apply Hloop| | |done].
  - simpl. intros [] g2 _ Hs2. split; [by etrans|].
    destruct Hos as [?|?]; [by left|right].
    destruct Hs2 as (_&_&_&_&_&_&?). lia.
  - simpl. intros e g2 Heq _.
    (* the second loop never throws *)
    exfalso. revert Heq. generalize (parents n'). clear.
    intros l. revert g1. induction l as [|p l IH]; intros g1; simpl; [done|].
    unfold bind at 1. unfold bind at 1.
    unfold lock. destruct (heap g1 !! p); [|done].
    pose proof (Node_remove_child_shrinks p (node_id n) g1) as Hc.
    destruct (Node_remove_child p (node_id n) g1); try done. apply IH.
Qed.

Lemma map_erase_shrinks i g :
  i ≠ stem_id g → ends (map_erase i g) (λ _, shrinks g) (λ _ _, False) False.
Proof.
  intros Hi. unfold map_erase. destruct (known_ids g !! i); simpl; [|done].
  etrans; [by apply shrinks_erase|apply shrinks_sweep].
Qed.

(** [remove] ends within its budget, and however it ends it has only
    shrunk the genealogy. *)
Lemma remove_fuel_shrinks k i g :
  total_parents g < k →
  ends (remove_fuel k i g) (λ _, shrinks g) (λ _, shrinks g) False.
Proof.
  revert i g. induction k as [|k IH]; intros i g Hk; [lia|]. simpl.
  apply ends_bind. simpl. case_decide as Hi; [simpl; reflexivity|].
  apply ends_bind. simpl. destruct (exists_ g i); simpl; [|reflexivity].
  apply ends_bind. unfold map_at.
  destruct (known_ids g !! i) as [a|]; simpl; [|reflexivity].
  apply ends_bind.
  eapply ends_mono; [apply Node_remove_my_trace_shrinks| |done|done].
  simpl. intros os g1 _ [Hs1 Hos].
  assert (os = [] ∨ total_parents g1 < k) as Hos' by (destruct Hos; [by left|right; lia]).
  clear Hos Hk. apply ends_bind.
  assert (ends (for_each (remove_fuel k) os g1)
            (λ _, shrinks g1) (λ _, shrinks g1) False) as Hloop.
  { clear Hs1. revert g1 Hos'. induction os as [|o os IHos]; intros g1 Hos'; simpl; [done|].
    destruct Hos' as [?|Hlt]; [done|]. apply ends_bind.
    eapply ends_mono; [by apply IH| |done|done].
    simpl. intros [] g2 _ Hs2.
    eapply ends_mono; [apply IHos| | |done].
    - right. destruct Hs2 as (_&_&_&_&_&_&?). lia.
    - simpl. intros. by etrans.
    - simpl. intros. by etrans. }
  eapply ends_mono; [apply Hloop| | |done].
  - simpl. intros [] g2 _ Hs2.
    assert (shrinks g g2) as Hs by (by etrans).
    eapply ends_mono; [apply map_erase_shrinks| |done|done].
    + destruct Hs as (->&_). done.
    + simpl. intros. by etrans.
  - simpl. intros. by etrans.
Qed.

Lemma remove_shrinks i g :
  ends (remove i g) (λ _, shrinks g) (λ _, shrinks g) False.
Proof. apply remove_fuel_shrinks. lia. Qed.

(** The budget [remove] gives itself is never used up. *)
Lemma remove_terminates i g : remove i g ≠ OutOfFuel.
Proof. intros Hout. pose proof (remove_shrinks i g) as Hsh. by rewrite Hout in Hsh. Qed.

(** More fuel than needed changes nothing. *)
Lemma for_each_fuel_mono (f f' : id_type → M id_type Virus unit) os g :
  (∀ o g, f o g ≠ OutOfFuel → f' o g = f o g) →
  for_each f os g ≠ OutOfFuel → for_each f' os g = for_each f os g.
Proof.
  intros Hf. revert g. induction os as [|o os IH]; intros g; simpl; [done|].
  unfold bind. intros Hne.
  rewrite Hf by (by destruct (f o g)).
  destruct (f o g); try done. by apply IH.
Qed.

Lemma remove_fuel_mono k k' i g :
  k ≤ k' → remove_fuel k i g ≠ OutOfFuel → remove_fuel k' i g = remove_fuel k i g.
Proof.
  revert k' i g. induction k as [|k IH]; intros k' i g Hk Hne; [done|].
  destruct k' as [|k']; [lia|]. simpl in *.
  cbv [bind gets throw] in *. case_decide; [done|].
  destruct (exists_ g i); simpl in *; [|done].
  destruct (map_at i g) as [a g0| | | |]; try done.
  destruct (Node_remove_my_trace a g0) as [os g1| | | |]; try done.
  rewrite (for_each_fuel_mono (remove_fuel k) (remove_fuel k')); [done| |].
  - intros o g2 ?. apply IH; [lia|done].
  - by destruct (for_each (remove_fuel k) os g1).
Qed.

End removing.

(** * Consistent genealogies *)

Section consistency.
Context {id_type : Type} `{Countable id_type}.
Context {Virus : Type} `{!VirusClassType Virus id_type}.
Implicit Types (g : VirusGenealogy id_type Virus) (n : Node id_type Virus).
Implicit Types (i o : id_type) (a b c d p : addr) (T D : gset addr).

Lemma registered_iff g a :
  registered g a ↔
  ∃ n, heap g !! a = Some n ∧ known_ids g !! node_id n = Some a.
Proof.
  unfold registered. destruct (heap g !! a) as [n|]; simpl.
  - split; [by exists n|]. by intros (?&[= <-]&?).
  - split; [done|]. by intros (?&?&?).
Qed.

Lemma wf_lookup g i a :
  wf g → known_ids g !! i = Some a →
  ∃ n, heap g !! a = Some n ∧ node_id n = i.
Proof.
  intros [Hreg _] Hi. specialize (Hreg i a Hi). simpl in Hreg.
  destruct (heap g !! a) as [n|]; [|done]. exists n. split; [done|].
  by injection Hreg.
Qed.

Lemma wf_registered g i a : wf g → known_ids g !! i = Some a → registered g a.
Proof.
  intros Hwf Hi. destruct (wf_lookup g i a Hwf Hi) as (n&Hn&<-).
  apply registered_iff. eauto.
Qed.

Lemma wf_registry_inj g i j a :
  wf g → known_ids g !! i = Some a → known_ids g !! j = Some a → i = j.
Proof.
  intros Hwf Hi Hj.
  destruct (wf_lookup g _ _ Hwf Hi) as (?&?&?).
  destruct (wf_lookup g _ _ Hwf Hj) as (?&?&?). congruence.
Qed.

Lemma wf_fresh g : wf g → heap g !! next_addr g = None.
Proof.
  intros [_ Halloc]. destruct (heap g !! next_addr g) as [n|] eqn:Hn; [|done].
  specialize (Halloc _ _ Hn). simpl in Halloc. lia.
Qed.

Lemma registered_lookup g a n :
  registered g a → heap g !! a = Some n → known_ids g !! node_id n = Some a.
Proof. rewrite registered_iff. intros (n'&?&?) ?. by simplify_eq. Qed.

Lemma registered_inj g a b na nb :
  registered g a → registered g b →
  heap g !! a = Some na → heap g !! b = Some nb →
  node_id na = node_id nb → a = b.
Proof.
  intros Ha Hb Hna Hnb Hid.
  pose proof (registered_lookup g a na Ha Hna) as H1.
  pose proof (registered_lookup g b nb Hb Hnb) as H2.
  rewrite Hid in H1. congruence.
Qed.

Lemma attached_alive g T a :
  attached g T a → ∃ n, heap g !! a = Some n.
Proof. intros [(n&?&?)%registered_iff _]. eauto. Qed.

Lemma cu_edges_upto g T : consistent_upto g T → edges_upto g T.
Proof.
  intros (?&?&Hs&_). split_and!; try done.
  intros i a Hi Hst. destruct (Hs i a Hi Hst) as [? Hp]. split; [done|].
  destruct (heap g !! a) as [n|]; simplify_eq/=. by rewrite Hp.
Qed.

Lemma eu_closed g T a n b :
  edges_upto g T → attached g T a → heap g !! a = Some n →
  b ∈ parents n ∨ b ∈ children n → attached g T b.
Proof.
  intros (Hcl&_) Ha Hn Hb. specialize (Hcl a n Hn Ha).
  rewrite Forall_forall in Hcl. apply Hcl. by apply elem_of_app.
Qed.

Lemma eu_edges g T a b na nb :
  edges_upto g T → attached g T a → attached g T b →
  heap g !! a = Some na → heap g !! b = Some nb →
  occurrences b (children na) = occurrences a (parents nb).
Proof. intros (_&He&_) Ha Hb Hna Hnb. by apply (He a na Hna Ha b nb Hnb Hb). Qed.

Lemma eu_stem g T a :
  edges_upto g T → known_ids g !! stem_id g = Some a →
  a ∉ T ∧ ∃ n, heap g !! a = Some n ∧ ∀ p, p ∈ parents n → p = a.
Proof.
  intros (_&_&Hs) Ha. destruct (Hs _ _ Ha eq_refl) as [? Hp]. split; [done|].
  destruct (heap g !! a) as [n|]; simplify_eq/=. exists n. split; [done|].
  intros p Hin.
  assert (strip {[a]} (parents n) = []) as Hnil by done.
  apply (proj1 (strip_nil_iff {[a]} (parents n)) Hnil) in Hin.
  by apply elem_of_singleton in Hin.
Qed.

Lemma cu_closed g T a n b :
  consistent_upto g T → attached g T a → heap g !! a = Some n →
  b ∈ parents n ∨ b ∈ children n → attached g T b.
Proof.
  intros (Hcl&_) Ha Hn Hb. specialize (Hcl a n Hn Ha).
  rewrite Forall_forall in Hcl. apply Hcl. by apply elem_of_app.
Qed.

Lemma cu_edges g T a b na nb :
  consistent_upto g T → attached g T a → attached g T b →
  heap g !! a = Some na → heap g !! b = Some nb →
  occurrences b (children na) = occurrences a (parents nb).
Proof. intros (_&He&_) Ha Hb Hna Hnb. by apply (He a na Hna Ha b nb Hnb Hb). Qed.

Lemma cu_stem g T a :
  consistent_upto g T → known_ids g !! stem_id g = Some a →
  a ∉ T ∧ parents <$> heap g !! a = Some [].
Proof. intros (_&_&Hs&_) Ha. by apply (Hs _ _ Ha). Qed.

Lemma cu_noself g T a n :
  consistent_upto g T → attached g T a → heap g !! a = Some n → a ∉ parents n.
Proof. intros (_&_&_&Hn) Ha Hna. by apply (Hn a n Hna Ha). Qed.

Lemma cu_nochild_self g T a n :
  consistent_upto g T → attached g T a → heap g !! a = Some n → a ∉ children n.
Proof.
  intros Hcu Ha Hn. apply occurrences_zero.
  rewrite (cu_edges g T a a n n) by done.
  apply occurrences_zero. by eapply cu_noself.
Qed.

Lemma stripped_empty n : stripped ∅ n = n.
Proof. destruct n. unfold stripped. simpl. by rewrite !strip_empty. Qed.

Lemma stripped_stripped D1 D2 n :
  stripped D2 (stripped D1 n) = stripped (D1 ∪ D2) n.
Proof. unfold stripped. simpl. by rewrite !strip_strip. Qed.

(** ** Detaching keeps the invariant *)

Lemma detaches_attached g T g' D b :
  wf g → detaches g T g' D →
  attached g T b → b ∉ D → attached g' (T ∪ D) b.
Proof.
  intros Hwf (_&_&_&Hkeep&Hheap) Hb HbD.
  destruct (attached_alive _ _ _ Hb) as [nb Hnb].
  split; [|destruct Hb; set_solver].
  apply registered_iff. exists (stripped D nb). split; [by apply Hheap|].
  simpl. apply Hkeep; [|done]. destruct Hb as [Hb _].
  by apply registered_lookup.
Qed.

Lemma detaches_attached_inv g T g' D b :
  wf g → wf g' → detaches g T g' D →
  attached g' (T ∪ D) b → attached g T b ∧ b ∉ D.
Proof.
  intros Hwf Hwf' (_&_&Hsub&_&_) [Hb HbT].
  apply registered_iff in Hb as (nb'&Hnb'&Hreg).
  assert (known_ids g !! node_id nb' = Some b) as Hreg0
    by (eapply lookup_weaken; done).
  split; [split|]; [|set_solver..].
  by eapply wf_registered.
Qed.

Lemma detaches_back g T g' D b nb' :
  wf g → wf g' → detaches g T g' D →
  attached g' (T ∪ D) b → heap g' !! b = Some nb' →
  ∃ nb, attached g T b ∧ b ∉ D ∧ heap g !! b = Some nb ∧ nb' = stripped D nb.
Proof.
  intros Hwf Hwf' Hdet Hb Hnb'.
  destruct (detaches_attached_inv g T g' D b Hwf Hwf' Hdet Hb) as [Hb0 HbD].
  destruct (attached_alive _ _ _ Hb0) as [nb Hnb]. exists nb.
  split_and!; try done. destruct Hdet as (_&_&_&_&Hheap).
  specialize (Hheap b nb Hb0 HbD Hnb). congruence.
Qed.

Lemma eu_detach g T g' D :
  wf g → wf g' → edges_upto g T → detaches g T g' D →
  (∀ a, known_ids g !! stem_id g = Some a → a ∉ D) →
  edges_upto g' (T ∪ D).
Proof.
  intros Hwf Hwf' Hcu Hdet HstemD.
  pose proof (λ b nb', detaches_back g T g' D b nb' Hwf Hwf' Hdet) as Hback.
  unfold edges_upto. split_and!.
  - intros a na' Hna' Ha.
    destruct (Hback a na' Ha Hna') as (na&Ha0&HaD&Hna&->).
    apply Forall_forall. intros b Hb. simpl in Hb.
    rewrite elem_of_app, !elem_of_strip in Hb.
    apply (detaches_attached g T g' D b Hwf Hdet); [|tauto].
    apply (eu_closed g T a na b Hcu Ha0 Hna). tauto.
  - intros a na' Hna' Ha b nb' Hnb' Hb.
    destruct (Hback a na' Ha Hna') as (na&Ha0&HaD&Hna&->).
    destruct (Hback b nb' Hb Hnb') as (nb&Hb0&HbD&Hnb&->).
    simpl. rewrite !occurrences_strip by done. by eapply eu_edges.
  - intros i a Hi ->. destruct Hdet as (Hs&_&Hsub&_&Hheap).
    rewrite Hs in Hi.
    assert (known_ids g !! stem_id g = Some a) as Hi0
      by (eapply lookup_weaken; done).
    destruct (eu_stem g T a Hcu Hi0) as [HaT (na&Hna&Hpar)].
    specialize (HstemD a Hi0). split; [set_solver|].
    rewrite (Hheap a na); [| |done..].
    + simpl. f_equal. rewrite strip_strip. apply strip_nil_iff.
      intros p ->%Hpar. set_solver.
    + split; [by eapply wf_registered|done].
Qed.

Lemma cu_detach g T g' D :
  wf g → wf g' → consistent_upto g T → detaches g T g' D →
  (∀ a, known_ids g !! stem_id g = Some a → a ∉ D) →
  consistent_upto g' (T ∪ D).
Proof.
  intros Hwf Hwf' Hcu Hdet HstemD.
  destruct (eu_detach g T g' D Hwf Hwf' (cu_edges_upto g T Hcu) Hdet HstemD)
    as (Hcl&He&_).
  unfold consistent_upto. split_and!; try done.
  - intros i a Hi ->. destruct Hdet as (Hs&_&Hsub&_&Hheap).
    rewrite Hs in Hi.
    assert (known_ids g !! stem_id g = Some a) as Hi0
      by (eapply lookup_weaken; done).
    destruct (cu_stem g T a Hcu Hi0) as [HaT Hpar].
    specialize (HstemD a Hi0). split; [set_solver|].
    destruct (heap g !! a) as [na|] eqn:Hna; [|done].
    rewrite (Hheap a na); [| |done..].
    + simpl in *. injection Hpar as ->. done.
    + split; [by eapply wf_registered|done].
  - intros a na' Hna' Ha.
    destruct (detaches_back g T g' D a na' Hwf Hwf' Hdet Ha Hna')
      as (na&Ha0&HaD&Hna&->).
    simpl. rewrite elem_of_strip. intros [_ ?].
    by eapply cu_noself.
Qed.

(** A node that is its own parent after others were taken out was its
    own parent before. *)
Lemma self_parent_detach g T g' D :
  wf g → wf g' → detaches g T g' D →
  self_parent g' (T ∪ D) → self_parent g T.
Proof.
  intros Hwf Hwf' Hdet (b&nb'&Hb&Hnb'&Hin).
  destruct (detaches_back g T g' D b nb' Hwf Hwf' Hdet Hb Hnb')
    as (nb&Hb0&HbD&Hnb&->).
  exists b, nb. split_and!; try done.
  simpl in Hin. by apply elem_of_strip in Hin as [_ ?].
Qed.

Lemma cu_no_self_parent g T : consistent_upto g T → ¬ self_parent g T.
Proof. intros Hcu (b&nb&Hb&Hnb&Hin). by eapply cu_noself. Qed.

(** ** Nodes that a cascade leaves alone *)

Lemma untouched_refl g T : untouched g T g.
Proof. by intros t nt _ ? _. Qed.

Lemma untouched_trans g T g1 T1 g2 :
  T ⊆ T1 → untouched g T g1 → untouched g1 T1 g2 →
  (∀ t i, t ∈ T → known_ids g !! i = Some t → known_ids g1 !! i = Some t) →
  untouched g T g2.
Proof.
  intros Hsub H1 H2 Hk t nt Ht Hnt Hreg.
  apply H2; [set_solver|by apply H1|by apply Hk].
Qed.

Lemma detaches_trans g T g1 D1 g2 D2 :
  wf g → detaches g T g1 D1 → detaches g1 (T ∪ D1) g2 D2 →
  detaches g T g2 (D1 ∪ D2).
Proof.
  intros Hwf Hd1 Hd2.
  pose proof Hd1 as (Hs1&Hn1&Hk1&Hr1&Hh1).
  pose proof Hd2 as (Hs2&Hn2&Hk2&Hr2&Hh2).
  unfold detaches. split_and!; try congruence.
  - by etrans.
  - intros i b Hi Hb. apply Hr2; [|set_solver]. apply Hr1; [done|set_solver].
  - intros b nb Hb HbD Hnb. rewrite <-stripped_stripped.
    apply Hh2; [|set_solver|apply Hh1; [done|set_solver|done]].
    eapply detaches_attached; [done|done|done|set_solver].
Qed.

(** ** The nodes that go *)

Lemma falls_roots g T (roots roots' : addr → Prop) d :
  (∀ x, roots x → falls g T roots' x) →
  falls g T roots d → falls g T roots' d.
Proof.
  intros Hr. induction 1 as [d Hd|d nd Hat Hnd Hne _ IH]; [by apply Hr|].
  by eapply falls_orphan.
Qed.

(** A node that goes once the nodes in [D] are out, goes. *)
Lemma falls_detach g T g1 D (roots roots1 : addr → Prop) d :
  wf g → wf g1 → detaches g T g1 D →
  (∀ x, x ∈ D → falls g T roots x) →
  (∀ x, roots1 x → falls g T roots x) →
  falls g1 (T ∪ D) roots1 d → falls g T roots d.
Proof.
  intros Hwf Hwf1 Hdet HD Hr.
  induction 1 as [d Hd|d nd1 Hat Hnd1 Hne _ IH]; [by apply Hr|].
  destruct (detaches_attached_inv g T g1 D d Hwf Hwf1 Hdet Hat) as [Hat0 HdD].
  destruct (attached_alive g T d Hat0) as [nd Hnd].
  destruct Hdet as (_&_&_&_&Hheap).
  rewrite (Hheap d nd Hat0 HdD Hnd) in Hnd1. injection Hnd1 as <-.
  simpl in *. apply (falls_orphan g T roots d nd); try done.
  - intros Hnil. by rewrite Hnil in Hne.
  - intros p Hp. destruct (decide (p ∈ D)) as [HpD|HpD]; [by apply HD|].
    apply IH. by apply elem_of_strip.
Qed.

(** The stem virus goes only as a root. *)
Lemma falls_stem g T (roots : addr → Prop) a :
  edges_upto g T → known_ids g !! stem_id g = Some a →
  falls g T roots a → roots a.
Proof.
  intros Hcu Ha Hfalls. destruct (eu_stem g T a Hcu Ha) as [_ (n&Hn&Hpar)].
  remember a as d eqn:Hd in Hfalls |- *.
  induction Hfalls as [d Hr|d nd Hat Hnd Hne _ IH]; [done|].
  subst d. simplify_eq.
  destruct (parents nd) as [|p ps] eqn:Hps; [done|].
  assert (p = a) as -> by (apply Hpar; left).
  apply IH; [left|done].
Qed.

(** A node that goes although it is no root had parents. *)
Lemma falls_parents g T (roots : addr → Prop) d nd :
  falls g T roots d → heap g !! d = Some nd → ¬ roots d → parents nd ≠ [].
Proof. destruct 1 as [d Hd|d nd' _ Hnd' Hne _]; [done|]. congruence. Qed.

End consistency.

(** * [remove_my_trace] on an edge-consistent genealogy *)

Section trace.
Context {id_type : Type} `{Countable id_type}.
Context {Virus : Type} `{!VirusClassType Virus id_type}.
Implicit Types (g : VirusGenealogy id_type Virus) (n : Node id_type Virus).
Implicit Types (i o : id_type) (a b c d p : addr) (T D : gset addr).

Lemma find_parent_found g pid ps a :
  a ∈ ps →
  (∀ b, b ∈ ps → ∃ n, heap g !! b = Some n ∧ (node_id n = pid ↔ b = a)) →
  ∃ j, find_parent pid ps g = Ret (Some j) g ∧ ps !! j = Some a.
Proof.
  induction ps as [|p ps IH]; intros Ha Hps; [by apply elem_of_nil in Ha|].
  destruct (Hps p) as (n&Hn&Hid); [left|]. simpl.
  rewrite (bind_Ret _ _ _ _ _ (lock_eq _ _ _ Hn)). case_decide as Hp.
  - exists 0. split; [done|]. simpl. f_equal. by apply Hid.
  - assert (a ∈ ps) as Ha'.
    { apply elem_of_cons in Ha as [->|?]; [|done]. destruct Hp. by apply Hid. }
    destruct IH as (j&Hj&Hja); [done|intros; apply Hps; by right|].
    exists (S j). by rewrite (bind_Ret _ _ _ _ _ Hj).
Qed.

Lemma find_child_found g cid cs a :
  a ∈ cs →
  (∀ b, b ∈ cs → ∃ n, heap g !! b = Some n ∧ (node_id n = cid ↔ b = a)) →
  ∃ j, find_child cid cs g = Ret (Some j) g ∧ cs !! j = Some a.
Proof.
  induction cs as [|c cs IH]; intros Ha Hcs; [by apply elem_of_nil in Ha|].
  destruct (Hcs c) as (n&Hn&Hid); [left|]. simpl.
  rewrite (bind_Ret _ _ _ _ _ (deref_eq _ _ _ Hn)). case_decide as Hc.
  - exists 0. split; [done|]. simpl. f_equal. by apply Hid.
  - assert (a ∈ cs) as Ha'.
    { apply elem_of_cons in Ha as [->|?]; [|done]. destruct Hc. by apply Hid. }
    destruct IH as (j&Hj&Hja); [done|intros; apply Hcs; by right|].
    exists (S j). by rewrite (bind_Ret _ _ _ _ _ Hj).
Qed.

Section one_node.
Context (g : VirusGenealogy id_type Virus) (T : gset addr).
Context (a : addr) (n : Node id_type Virus).
Context (Hcu : edges_upto g T) (Hwf : wf g).
Context (Ha : attached g T a) (Hn : heap g !! a = Some n).

(** In every intermediate state the attached nodes are alive and are
    told apart by their identifiers. *)
Lemma trace_step_ids kp kc g1 (l : list addr) b :
  trace_step g T a kp kc g1 →
  (∀ x, x ∈ l → attached g T x) → b ∈ l →
  ∃ nb', heap g1 !! b = Some nb' ∧ (node_id nb' = node_id n ↔ b = a).
Proof.
  intros (_&_&_&Hst&_) Hl Hb. specialize (Hl b Hb).
  destruct (attached_alive _ _ _ Hl) as [nb Hnb].
  destruct (Hst b nb Hl Hnb) as (nb'&Hnb'&Hid&_). exists nb'. split; [done|].
  rewrite Hid. split.
  - intros Heq. destruct Hl, Ha. by eapply registered_inj.
  - intros ->. congruence.
Qed.

Lemma trace_step_elem kp kc g1 b nb nb' x :
  trace_step g T a kp kc g1 → attached g T b →
  heap g !! b = Some nb → heap g1 !! b = Some nb' →
  (x ∈ parents nb' → attached g T x) ∧ (x ∈ children nb' → attached g T x).
Proof.
  intros (_&_&_&Hst&_) Hb Hnb Hnb'.
  destruct (Hst b nb Hb Hnb) as (nb''&?&_&_&Hp&Hc&_). simplify_eq.
  destruct (decide (x = a)) as [->|Hx]; [done|]. split; intros Hin.
  - apply (eu_closed g T b nb x Hcu Hb Hnb). left.
    assert (x ∈ strip {[a]} (parents nb')) as Hs
      by (apply elem_of_strip; set_solver).
    rewrite Hp in Hs. by apply elem_of_strip in Hs as [_ ?].
  - apply (eu_closed g T b nb x Hcu Hb Hnb). right.
    assert (x ∈ strip {[a]} (children nb')) as Hs
      by (apply elem_of_strip; set_solver).
    rewrite Hc in Hs. by apply elem_of_strip in Hs as [_ ?].
Qed.

(** One iteration of the first loop. *)
Lemma remove_parent_step kp kp' kc g1 c :
  trace_step g T a kp kc g1 → attached g T c →
  (∀ b, kp b = (if decide (c = b) then 1 else 0) + kp' b) →
  ∃ nc' j,
    heap g1 !! c = Some nc' ∧ parents nc' !! j = Some a
    ∧ Node_remove_parent c (node_id n) g1 =
        Ret tt (set_heap (<[c := set_parents (delete j (parents nc')) nc']>
                            (heap g1)) g1)
    ∧ trace_step g T a kp' kc
        (set_heap (<[c := set_parents (delete j (parents nc')) nc']>
                     (heap g1)) g1).
Proof.
  intros Hst Hc Hkp.
  destruct (attached_alive _ _ _ Hc) as [nc Hnc].
  pose proof Hst as (Hs&Hk&Hnx&Hnodes&Hfr).
  destruct (Hnodes c nc Hc Hnc) as (nc'&Hnc'&Hid&Hvir&Hsp&Hsc&Hop&Hoc).
  assert (a ∈ parents nc') as Hin.
  { apply occurrences_pos. rewrite Hop, Hkp. case_decide; [lia|done]. }
  destruct (find_parent_found g1 (node_id n) (parents nc') a Hin) as (j&Hfind&Hj).
  { intros b Hb. eapply trace_step_ids; [done| |done].
    intros x Hx.
    by apply (proj1 (trace_step_elem kp kc g1 c nc nc' x Hst Hc Hnc Hnc')). }
  exists nc', j. split_and!; [done|done| |].
  - unfold Node_remove_parent.
    rewrite (bind_Ret _ _ _ _ _ (deref_eq _ _ _ Hnc')).
    by rewrite (bind_Ret _ _ _ _ _ Hfind).
  - unfold trace_step. simpl. split_and!; try done.
    + intros b nb Hb Hnb. destruct (decide (c = b)) as [<-|Hcb].
      * rewrite lookup_insert_eq. eexists. split; [done|]. simpl.
        simplify_eq. split_and!; try done.
        -- rewrite strip_delete with (x:=a); [done|done|set_solver].
        -- pose proof (occurrences_delete a _ _ _ Hj) as Hd.
           rewrite decide_True in Hd by done.
           specialize (Hkp c). rewrite decide_True in Hkp by done. lia.
      * rewrite lookup_insert_ne by done.
        destruct (Hnodes b nb Hb Hnb) as (nb'&?&?&?&?&?&Hopb&?).
        exists nb'. split_and!; try done.
        rewrite Hopb, Hkp. by rewrite decide_False.
    + intros t nt Ht Hnt Hreg. simpl. rewrite lookup_insert_ne.
      * by apply Hfr.
      * intros <-. by destruct Hc.
Qed.

(** One iteration of the second loop. *)
Lemma remove_child_step kp kc kc' g1 p :
  trace_step g T a kp kc g1 → attached g T p →
  (∀ b, kc b = (if decide (p = b) then 1 else 0) + kc' b) →
  ∃ g2,
    (do lock p in Node_remove_child p (node_id n)) g1 = Ret tt g2
    ∧ trace_step g T a kp kc' g2.
Proof.
  intros Hst Hp Hkc.
  destruct (attached_alive _ _ _ Hp) as [np Hnp].
  pose proof Hst as (Hs&Hk&Hnx&Hnodes&Hfr).
  destruct (Hnodes p np Hp Hnp) as (np'&Hnp'&Hid&Hvir&Hsp&Hsc&Hop&Hoc).
  assert (a ∈ children np') as Hin.
  { apply occurrences_pos. rewrite Hoc, Hkc. case_decide; [lia|done]. }
  destruct (find_child_found g1 (node_id n) (children np') a Hin) as (j&Hfind&Hj).
  { intros b Hb. eapply trace_step_ids; [done| |done].
    intros x Hx.
    by apply (proj2 (trace_step_elem kp kc g1 p np np' x Hst Hp Hnp Hnp')). }
  eexists. split.
  - rewrite (bind_Ret _ _ _ _ _ (lock_eq _ _ _ Hnp')).
    unfold Node_remove_child.
    rewrite (bind_Ret _ _ _ _ _ (deref_eq _ _ _ Hnp')).
    rewrite (bind_Ret _ _ _ _ _ Hfind). done.
  - unfold trace_step. rewrite sweep_stem_id, sweep_known_ids, sweep_next_addr.
    simpl. split_and!; try done.
    + intros b nb Hb Hnb.
      rewrite (sweep_registered _ (node_id nb) b); simpl.
      2:{ rewrite Hk. destruct Hb. by apply registered_lookup. }
      destruct (decide (p = b)) as [<-|Hpb].
      * rewrite lookup_insert_eq. eexists. split; [done|]. simpl.
        simplify_eq. split_and!; try done.
        -- rewrite strip_delete with (x:=a); [done|done|set_solver].
        -- pose proof (occurrences_delete a _ _ _ Hj) as Hd.
           rewrite decide_True in Hd by done.
           specialize (Hkc p). rewrite decide_True in Hkc by done. lia.
      * rewrite lookup_insert_ne by done.
        destruct (Hnodes b nb Hb Hnb) as (nb'&?&?&?&?&?&?&Hocb).
        exists nb'. split_and!; try done.
        rewrite Hocb, Hkc. by rewrite decide_False.
    + intros t nt Ht Hnt Hreg.
      rewrite (sweep_registered _ (node_id nt) t); simpl; [|by rewrite Hk].
      rewrite lookup_insert_ne.
      * by apply Hfr.
      * intros <-. by destruct Hp.
Qed.

(** An attached node whose vectors hold no entry for [a] any more. *)
Lemma trace_step_done kc g1 b nb :
  trace_step g T a (λ _, 0) kc g1 → attached g T b → kc b = 0 →
  heap g !! b = Some nb → heap g1 !! b = Some (stripped {[a]} nb).
Proof.
  intros (_&_&_&Hst&_) Hb Hkc Hnb.
  destruct (Hst b nb Hb Hnb) as (nb'&Hnb'&Hid&Hvir&Hsp&Hsc&Hop&Hoc).
  rewrite Hnb'. f_equal. destruct nb' as [i' v' ps' cs']. simpl in *.
  rewrite Hkc in Hoc.
  unfold stripped. rewrite <-Hsp, <-Hsc, <-Hid, <-Hvir.
  by rewrite !strip_singleton_id.
Qed.

Lemma trace_step_ext kp kc kc' g1 :
  (∀ b, kc b = kc' b) → trace_step g T a kp kc g1 → trace_step g T a kp kc' g1.
Proof.
  intros Hext (Hs&Hk&Hnx&Hnodes&Hfr). unfold trace_step. split_and!; try done.
  intros b nb Hb Hnb.
  destruct (Hnodes b nb Hb Hnb) as (nb'&?&?&?&?&?&?&Hoc).
  exists nb'. split_and!; try done. by rewrite <-Hext.
Qed.

(** The children of [a] count [a] among their parents. *)
Lemma child_has_parent c nc :
  c ∈ children n → heap g !! c = Some nc → attached g T c → a ∈ parents nc.
Proof.
  intros Hc Hnc Hatt. apply occurrences_pos.
  rewrite <-(eu_edges g T a c n nc) by done. by apply occurrences_pos.
Qed.

(** The first loop. *)
Lemma collect_orphans_spec cs :
  ∀ g1 acc kc,
    trace_step g T a (λ b, occurrences b cs) kc g1 →
    (∀ c, c ∈ cs → c ∈ children n) →
    NoDup acc → (∀ o, o ∈ acc ↔ orphan_in g T g1 o) →
    ∃ os g2,
      collect_orphans (node_id n) cs acc g1 = Ret os g2
      ∧ trace_step g T a (λ _, 0) kc g2
      ∧ NoDup os ∧ (∀ o, o ∈ os ↔ orphan_in g T g2 o).
Proof.
  induction cs as [|c cs IH]; intros g1 acc kc Hst Hcs Hnd Hacc.
  { exists acc, g1. by split_and!. }
  assert (attached g T c) as Hc.
  { apply (eu_closed g T a n c Hcu Ha Hn). right. apply Hcs. left. }
  destruct (attached_alive _ _ _ Hc) as [nc Hnc].
  destruct (remove_parent_step (λ b, occurrences b (c :: cs))
              (λ b, occurrences b cs) kc g1 c Hst Hc)
    as (nc'&j&Hnc'&Hj&Hrm&Hst2).
  { intros b. apply occurrences_cons. }
  set (nc'' := set_parents (delete j (parents nc')) nc') in *.
  set (g2 := set_heap (<[c:=nc'']> (heap g1)) g1) in *.
  assert (heap g2 !! c = Some nc'') as Hnc'' by apply lookup_insert_eq.
  assert (node_id nc' = node_id nc) as Hid.
  { destruct Hst as (_&_&_&Hnodes&_).
    destruct (Hnodes c nc Hc Hnc) as (?&?&?&_). congruence. }
  assert (∀ b nb nb', attached g T b → heap g !! b = Some nb →
            heap g1 !! b = Some nb' → parents nb' = [] → b ≠ c) as Hne.
  { intros b nb nb' _ _ Hb Hnil ->. simplify_eq. rewrite Hnil in Hj. done. }
  assert (∀ o, orphan_in g T g1 o → orphan_in g T g2 o) as F1.
  { intros o (b&nb&nb'&?&?&?&?&?&?). exists b, nb, nb'. split_and!; try done.
    unfold g2. simpl. rewrite lookup_insert_ne; [done|].
    intros ->. by eapply Hne. }
  assert (∀ o, orphan_in g T g2 o →
            orphan_in g T g1 o ∨ (o = node_id nc ∧ parents nc'' = [])) as F2.
  { intros o (b&nb&nb'&?&?&?&?&Hb2&?). destruct (decide (b = c)) as [->|Hbc].
    - right. simplify_eq. done.
    - left. exists b, nb, nb'. split_and!; try done.
      unfold g2 in Hb2. simpl in Hb2. by rewrite lookup_insert_ne in Hb2. }
  assert (parents nc'' = [] → orphan_in g T g2 (node_id nc)) as F3.
  { intros Hnil. exists c, nc, nc''. split_and!; try done.
    intros Hp. pose proof (child_has_parent c nc) as Hin.
    rewrite Hp in Hin. apply (not_elem_of_nil a), Hin; [|done..].
    apply Hcs. left. }
  assert (¬ orphan_in g T g1 (node_id nc)) as F4.
  { intros (b&nb&nb'&Hb&Hnb&Hidb&_&Hnb'&Hnil).
    eapply (Hne b); [done..|].
    destruct Hb, Hc. by eapply registered_inj. }
  simpl. rewrite (bind_Ret _ _ _ _ _ Hrm).
  assert (Node_is_orphan c g2 = Ret (bool_decide (parents nc'' = [])) g2) as Ho.
  { unfold Node_is_orphan. by rewrite (bind_Ret _ _ _ _ _ (deref_eq _ _ _ Hnc'')). }
  rewrite (bind_Ret _ _ _ _ _ Ho).
  case_bool_decide as Hnil.
  - assert (Node_get_id c g2 = Ret (node_id nc) g2) as Hgid.
    { unfold Node_get_id. rewrite (bind_Ret _ _ _ _ _ (deref_eq _ _ _ Hnc'')).
      unfold ret. f_equal. done. }
    rewrite (bind_Ret _ _ _ _ _ Hgid).
    apply IH; [done|intros; apply Hcs; by right| |].
    + apply NoDup_app. split_and!; [done| |apply NoDup_singleton].
      intros o Ho1 ->%list_elem_of_singleton. apply F4. by apply Hacc.
    + intros o. rewrite elem_of_app, list_elem_of_singleton, Hacc. split.
      * intros [?| ->]; auto.
      * intros [?|[-> _]]%F2; auto.
  - apply IH; [done|intros; apply Hcs; by right|done|].
    intros o. rewrite Hacc. split; [apply F1|].
    intros [?|[_ ?]]%F2; done.
Qed.

(** The second loop, over the parents that are left after the first
    one; [kc0] counts the entries it does not get to. *)
Lemma remove_children_spec ps :
  ∀ g1 kp kc0,
    trace_step g T a kp (λ b, occurrences b ps + kc0 b) g1 →
    (∀ p, p ∈ ps → attached g T p) →
    ∃ g2,
      for_each (λ p, do lock p in Node_remove_child p (node_id n)) ps g1
        = Ret tt g2
      ∧ trace_step g T a kp kc0 g2.
Proof.
  induction ps as [|p ps IH]; intros g1 kp kc0 Hst Hps.
  { exists g1. split; [done|]. eapply trace_step_ext; [|done]. done. }
  destruct (remove_child_step kp (λ b, occurrences b (p :: ps) + kc0 b)
              (λ b, occurrences b ps + kc0 b) g1 p Hst) as (g2&Hrm&Hst2).
  { apply Hps. left. }
  { intros b. rewrite occurrences_cons. lia. }
  simpl. rewrite (bind_Ret _ _ _ _ _ Hrm).
  apply IH; [done|]. intros; apply Hps; by right.
Qed.

(** [remove_my_trace] takes the node out of the vectors of all its
    neighbours and reports, once each, the nodes that lost their last
    parent.  The node itself loses the entries for itself in its
    [parents] vector, not the ones in [children]. *)
Lemma Node_remove_my_trace_edges :
  ∃ os g1,
    Node_remove_my_trace a g = Ret os g1
    ∧ stem_id g1 = stem_id g ∧ known_ids g1 = known_ids g
    ∧ next_addr g1 = next_addr g
    ∧ (∀ b nb, attached g T b → b ≠ a → heap g !! b = Some nb →
         heap g1 !! b = Some (stripped {[a]} nb))
    ∧ (∃ n1, heap g1 !! a = Some n1
         ∧ node_id n1 = node_id n ∧ virus n1 = virus n
         ∧ parents n1 = strip {[a]} (parents n)
         ∧ strip {[a]} (children n1) = strip {[a]} (children n)
         ∧ occurrences a (children n1) = occurrences a (parents n))
    ∧ untouched g T g1
    ∧ NoDup os
    ∧ (∀ o, o ∈ os ↔
         ∃ b nb, attached g T b ∧ heap g !! b = Some nb ∧ node_id nb = o
                 ∧ parents nb ≠ [] ∧ strip {[a]} (parents nb) = []).
Proof.
  assert (trace_step g T a (λ b, occurrences b (children n))
            (λ b, occurrences b (parents n)) g) as Hst0.
  { unfold trace_step. split_and!; try done; [|apply untouched_refl].
    intros b nb Hb Hnb.
    exists nb. split_and!; try done.
    - symmetry. by apply (eu_edges g T a b n nb).
    - by apply (eu_edges g T b a nb n). }
  destruct (collect_orphans_spec (children n) g [] _ Hst0)
    as (os&g1&Hloop1&Hst1&Hnd&Hos); [done|apply NoDup_nil_2| |].
  { intros o. split; [by intros ?%elem_of_nil|].
    intros (b&nb&nb'&_&?&_&?&?&?). simplify_eq. }
  assert (∃ n1, heap g1 !! a = Some n1
            ∧ node_id n1 = node_id n ∧ virus n1 = virus n
            ∧ parents n1 = strip {[a]} (parents n)
            ∧ strip {[a]} (children n1) = strip {[a]} (children n)
            ∧ occurrences a (children n1) = occurrences a (parents n))
    as (n1&Hn1&Hid1&Hvir1&Hpar1&Hch1&Hoc1).
  { destruct Hst1 as (_&_&_&Hnodes&_).
    destruct (Hnodes a n Ha Hn) as (n'&Hn'&Hid&Hvir&Hsp&Hsc&Hop&Hoc).
    exists n'. split_and!; try done.
    by rewrite <-Hsp, strip_singleton_id. }
  destruct (remove_children_spec (parents n1) g1 (λ _, 0)
              (λ b, if decide (b = a) then occurrences a (parents n) else 0))
    as (g2&Hloop2&Hst2).
  { eapply trace_step_ext; [|exact Hst1]. intros b. simpl. rewrite Hpar1.
    case_decide as Hb.
    - subst b. rewrite (proj2 (occurrences_zero a (strip {[a]} (parents n)))).
      + done.
      + rewrite elem_of_strip. set_solver.
    - rewrite occurrences_strip by set_solver. lia. }
  { intros p Hp. apply (eu_closed g T a n p Hcu Ha Hn). left.
    rewrite Hpar1 in Hp. by apply elem_of_strip in Hp as [_ ?]. }
  exists os, g2. split_and!.
  - unfold Node_remove_my_trace.
    rewrite (bind_Ret _ _ _ _ _ (deref_eq _ _ _ Hn)).
    rewrite (bind_Ret _ _ _ _ _ Hloop1).
    rewrite (bind_Ret _ _ _ _ _ (deref_eq _ _ _ Hn1)).
    by rewrite (bind_Ret _ _ _ _ _ Hloop2).
  - apply Hst2.
  - apply Hst2.
  - apply Hst2.
  - intros b nb Hb Hba Hnb. eapply trace_step_done; [done|done| |done].
    simpl. by rewrite decide_False.
  - destruct Hst2 as (_&_&_&Hnodes&_).
    destruct (Hnodes a n Ha Hn) as (n2&Hn2&Hid&Hvir&Hsp&Hsc&Hop&Hoc).
    exists n2. split_and!; try done.
    + by rewrite <-Hsp, strip_singleton_id.
    + by rewrite Hoc, decide_True.
  - apply Hst2.
  - done.
  - intros o. rewrite Hos. destruct Hst1 as (_&_&_&Hnodes&_). split.
    + intros (b&nb&nb'&Hb&Hnb&Hid&Hne&Hnb'&Hnil). exists b, nb.
      split_and!; try done.
      destruct (Hnodes b nb Hb Hnb) as (nb''&?&_&_&Hsp&_). simplify_eq.
      by rewrite <-Hsp, Hnil.
    + intros (b&nb&Hb&Hnb&Hid&Hne&Hnil).
      destruct (Hnodes b nb Hb Hnb) as (nb'&Hnb'&_&_&Hsp&_&Hop&_).
      exists b, nb, nb'. split_and!; try done.
      rewrite <-(strip_singleton_id a (parents nb')) by done.
      by rewrite Hsp.
Qed.

End one_node.

(** On a genealogy without self-parent edges the node itself is left as
    it was. *)
Lemma Node_remove_my_trace_spec g T a n :
  consistent_upto g T → wf g → attached g T a → heap g !! a = Some n →
  ∃ os g1,
    Node_remove_my_trace a g = Ret os g1
    ∧ stem_id g1 = stem_id g ∧ known_ids g1 = known_ids g
    ∧ next_addr g1 = next_addr g
    ∧ (∀ b nb, attached g T b → heap g !! b = Some nb →
         heap g1 !! b = Some (stripped {[a]} nb))
    ∧ NoDup os
    ∧ (∀ o, o ∈ os ↔
         ∃ b nb, attached g T b ∧ heap g !! b = Some nb ∧ node_id nb = o
                 ∧ parents nb ≠ [] ∧ strip {[a]} (parents nb) = []).
Proof.
  intros Hcu Hwf Ha Hn.
  destruct (Node_remove_my_trace_edges g T a n (cu_edges_upto g T Hcu) Hwf Ha Hn)
    as (os&g1&Hrun&Hs&Hk&Hnx&Hheap&(n1&Hn1&Hid&Hvir&Hp&Hc&Hoc)&_&Hnd&Hos).
  exists os, g1. split_and!; try done.
  intros b nb Hb Hnb. destruct (decide (b = a)) as [->|Hba]; [|by apply Hheap].
  simplify_eq. rewrite Hn1. f_equal.
  pose proof (cu_noself g T a _ Hcu Ha Hn) as Hns.
  apply occurrences_zero in Hns. rewrite Hns in Hoc.
  destruct n1 as [i1 v1 ps1 cs1]. unfold stripped. simpl in *.
  rewrite <-Hc, (strip_singleton_id a cs1) by done. by subst.
Qed.

End trace.

(** * The cascade of [remove] on a consistent genealogy *)

Section cascade.
Context {id_type : Type} `{Countable id_type}.
Context {Virus : Type} `{!VirusClassType Virus id_type}.
Implicit Types (g : VirusGenealogy id_type Virus) (n : Node id_type Virus).
Implicit Types (i o : id_type) (a b c d p : addr) (T D : gset addr).

Lemma strip_nil_mono D D' (l : list addr) :
  D ⊆ D' → strip D l = [] → strip D' l = [].
Proof. rewrite !strip_nil_iff. set_solver. Qed.

Lemma strip_not_nil D (l : list addr) : strip D l ≠ [] → l ≠ [].
Proof. by intros Hs ->. Qed.

Lemma cascade_refl g T roots : cascade g T roots g ∅.
Proof.
  unfold cascade, detaches. split_and!; try done.
  - intros b nb _ _ ->. by rewrite stripped_empty.
  - symmetry. apply map_filter_id. intros; set_solver.
  - intros b nb _ _ _. by rewrite strip_empty.
Qed.

Lemma cascade_trans g T roots g1 D1 roots2 g2 D2 :
  wf g → wf g1 →
  cascade g T roots g1 D1 → cascade g1 (T ∪ D1) roots2 g2 D2 →
  (∀ d, roots2 d → roots d) →
  cascade g T roots g2 (D1 ∪ D2).
Proof.
  intros Hwf Hwf1 (Hd1&Hat1&Hk1&Ho1&Hl1) (Hd2&Hat2&Hk2&Ho2&Hl2) Hroots.
  assert (∀ d, d ∈ D2 → attached g T d ∧ d ∉ D1) as Hat2'.
  { intros d Hd. apply (detaches_attached_inv g T g1 D1 d); auto. }
  unfold cascade. split_and!.
  - by eapply detaches_trans.
  - intros d [?|?]%elem_of_union; [auto|]. by apply Hat2'.
  - rewrite Hk2, Hk1, map_filter_filter. apply map_filter_ext.
    intros j b _. simpl. set_solver.
  - intros d [Hd|Hd]%elem_of_union; [by apply Ho1|].
    apply (falls_detach g T g1 D1 roots roots2 d Hwf Hwf1 Hd1 Ho1);
      [|by apply Ho2].
    intros x Hx. by apply falls_root, Hroots.
  - intros b nb Hb HbD Hnb Hne.
    apply not_elem_of_union in HbD as [HbD1 HbD2].
    rewrite <-strip_strip.
    apply (Hl2 b (stripped D1 nb)); [|done| |].
    + exact (detaches_attached g T g1 D1 b Hwf Hd1 Hb HbD1).
    + destruct Hd1 as (_&_&_&_&Hh). by apply Hh.
    + simpl. by apply (Hl1 b nb).
Qed.

(** Nodes that are taken out and no longer registered can be forgotten. *)
Lemma attached_forget g T b :
  (∀ i b, known_ids g !! i = Some b → b ∉ T) →
  attached g ∅ b ↔ attached g T b.
Proof.
  intros Hreg. split.
  - intros [Hb _]. split; [done|].
    apply registered_iff in Hb as (nb&_&Hb). by eapply Hreg.
  - intros [Hb _]. split; [done|set_solver].
Qed.

Lemma eu_forget g T :
  edges_upto g T →
  (∀ i b, known_ids g !! i = Some b → b ∉ T) →
  edges_upto g ∅.
Proof.
  intros (Hcl&He&Hs) Hreg.
  pose proof (λ b, attached_forget g T b Hreg) as Hatt.
  unfold edges_upto. split_and!.
  - intros a na Hna Ha.
    eapply Forall_impl; [by apply (Hcl a na Hna), Hatt|].
    intros b. by rewrite Hatt.
  - intros a na Hna Ha b nb Hnb Hb.
    apply (He a na Hna (proj1 (Hatt a) Ha) b nb Hnb (proj1 (Hatt b) Hb)).
  - intros i a Hi Hst. split; [set_solver|]. by apply (Hs i a Hi Hst).
Qed.

Lemma cu_forget g T :
  consistent_upto g T →
  (∀ i b, known_ids g !! i = Some b → b ∉ T) →
  consistent_upto g ∅.
Proof.
  intros Hcu Hreg.
  destruct (eu_forget g T (cu_edges_upto g T Hcu) Hreg) as (Hcl&He&_).
  destruct Hcu as (_&_&Hs&Hn). unfold consistent_upto. split_and!; try done.
  - intros i a Hi Hst. split; [set_solver|]. by apply (Hs i a Hi Hst).
  - intros a na Hna Ha. apply (Hn a na Hna).
    by apply (attached_forget g T a Hreg).
Qed.

(** ** A virus that is its own orphan

    A call that does not return and does not throw leaves nothing
    behind. *)
Lemma after_bind_None {A B} (m : M id_type Virus A)
    (f : A → M id_type Virus B) g :
  after (m g) = None → after ((let* x := m in f x) g) = None.
Proof. unfold bind. by destruct (m g). Qed.

(** The first loop of [remove_my_trace] does not get past a child that
    has no parents. *)
Lemma collect_orphans_no_parent pid cs :
  ∀ acc g a na,
    a ∈ cs → heap g !! a = Some na → parents na = [] →
    after (collect_orphans pid cs acc g) = None.
Proof.
  induction cs as [|c cs IH]; intros acc g a na Ha Hna Hnil;
    [by apply elem_of_nil in Ha|].
  simpl. destruct (decide (c = a)) as [->|Hca].
  { apply after_bind_None. unfold Node_remove_parent.
    rewrite (bind_Ret _ _ _ _ _ (deref_eq _ _ _ Hna)). by rewrite Hnil. }
  apply elem_of_cons in Ha as [->|Ha]; [done|].
  unfold bind at 1. unfold Node_remove_parent at 1. unfold bind at 1.
  unfold deref. destruct (heap g !! c) as [nc|] eqn:Hnc; simpl; [|done].
  unfold bind at 1. pose proof (find_parent_pure pid (parents nc) g) as Hpure.
  destruct (find_parent pid (parents nc) g) as [[j|] g1| | | |]; simpl in *;
    try done.
  destruct Hpure as [-> _].
  set (g2 := set_heap _ g).
  assert (heap g2 !! a = Some na) as Hna2.
  { unfold g2. simpl. by rewrite lookup_insert_ne. }
  unfold bind at 1. unfold Node_is_orphan at 1. unfold bind at 1.
  unfold deref. destruct (heap g2 !! c) as [nc2|]; simpl; [|done].
  destruct (bool_decide (parents nc2 = [])); [|by eapply IH].
  unfold bind at 1. unfold Node_get_id at 1. unfold bind at 1.
  unfold deref. destruct (heap g2 !! c) as [nc3|]; simpl; [|done].
  by eapply IH.
Qed.

(** [remove] on a registered node that has no parents and is its own
    child. *)
Lemma remove_fuel_self_orphan k i g a na :
  known_ids g !! i = Some a → i ≠ stem_id g →
  heap g !! a = Some na → parents na = [] → a ∈ children na →
  after (remove_fuel k i g) = None.
Proof.
  intros Hi Hstem Hna Hnil Hin. destruct k as [|k]; [done|].
  simpl. unfold bind at 1. simpl. rewrite decide_False by done.
  unfold bind at 1. simpl.
  replace (exists_ g i) with true by (symmetry; apply exists_true; eauto).
  simpl. rewrite (bind_Ret _ _ _ _ _ (map_at_eq _ _ _ Hi)).
  apply after_bind_None. unfold Node_remove_my_trace.
  rewrite (bind_Ret _ _ _ _ _ (deref_eq _ _ _ Hna)).
  apply after_bind_None. by eapply collect_orphans_no_parent.
Qed.

(** ** The recursion *)

(** After the cascade of one orphan the others are still there. *)
Lemma eu_cascade g T o b g1 D1 :
  edges_upto g T → wf g → wf g1 →
  known_ids g !! o = Some b → o ≠ stem_id g →
  cascade g T (λ d, d = b) g1 D1 →
  edges_upto g1 (T ∪ D1).
Proof.
  intros Hcu Hwf Hwf1 Hob Hostem (Hd1&Hat1&Hk1&Ho1&Hl1).
  apply (eu_detach g T g1 D1); try done.
  intros a Ha HaD.
  pose proof (falls_stem g T _ a Hcu Ha (Ho1 a HaD)) as Heq. simpl in Heq.
  subst a. apply Hostem. exact (wf_registry_inj g _ _ b Hwf Hob Ha).
Qed.

Lemma orphan_next g T o b g1 D1 o' :
  wf g →
  known_ids g !! o = Some b →
  cascade g T (λ d, d = b) g1 D1 →
  o' ≠ o →
  (o' ≠ stem_id g ∧
     ∃ b' nb', known_ids g !! o' = Some b' ∧ b' ∉ T
               ∧ heap g !! b' = Some nb' ∧ parents nb' = []) →
  (∀ b', known_ids g !! o' = Some b' → b' ∉ D1)
  ∧ o' ≠ stem_id g1 ∧
     ∃ b' nb', known_ids g1 !! o' = Some b' ∧ b' ∉ T ∪ D1
               ∧ heap g1 !! b' = Some nb' ∧ parents nb' = [].
Proof.
  intros Hwf Hob (Hd1&Hat1&Hk1&Ho1&Hl1) Hne (Hst'&b'&nb'&Hb'&Hb'T&Hnb'&Hnil').
  assert (b' ∉ D1) as Hb'D.
  { intros Hin.
    apply (falls_parents g T _ b' nb' (Ho1 b' Hin) Hnb'); [|done].
    intros ->. apply Hne. exact (wf_registry_inj g o' o b Hwf Hb' Hob). }
  split; [intros ? ?; by simplify_eq|].
  destruct Hd1 as (Hs1&_&_&Hkeep&Hheap). split; [congruence|].
  exists b', (stripped D1 nb'). split_and!.
  - by apply Hkeep.
  - set_solver.
  - apply Hheap; [|done..]. split; [by eapply wf_registered|done].
  - simpl. by rewrite Hnil'.
Qed.

Section orphans.
Context (k : nat) (IH : remove_spec (id_type:=id_type) (Virus:=Virus) k).

Lemma remove_orphans_edges os :
  ∀ g T,
    edges_upto g T → wf g → NoDup os →
    (∀ o, o ∈ os → o ≠ stem_id g ∧
       ∃ b nb, known_ids g !! o = Some b ∧ b ∉ T
               ∧ heap g !! b = Some nb ∧ parents nb = []) →
    for_each (remove_fuel k) os g = OutOfFuel
    ∨ (∃ g' D, for_each (remove_fuel k) os g = Ret tt g' ∧ wf g'
            ∧ cascade g T (λ d, ∃ o, o ∈ os ∧ known_ids g !! o = Some d) g' D
            ∧ (∀ o b, o ∈ os → known_ids g !! o = Some b → b ∈ D)
            ∧ untouched g T g')
    ∨ (after (for_each (remove_fuel k) os g) = None ∧ self_parent g T).
Proof.
  induction os as [|o os IHos]; intros g T Hcu Hwf Hnd Hos.
  { right. left. exists g, ∅.
    split_and!; [done|done|apply cascade_refl| |apply untouched_refl].
    by intros ? ? ?%elem_of_nil. }
  apply NoDup_cons in Hnd as [Hno Hnd].
  destruct (Hos o) as (Hostem&b&nb&Hob&HbT&Hnb&Hnil); [left|].
  destruct (IH g T o b Hcu Hwf Hob HbT Hostem)
    as [Hout|[(g1&D1&Hrun1&Hwf1&Hcas1&HbD1&Hfr1)|[Hcrash Hself]]].
  { left. simpl. unfold bind. by rewrite Hout. }
  2:{ right. right. split; [|done]. simpl. by apply after_bind_None. }
  pose proof Hcas1 as (Hd1&Hat1&Hk1&Ho1&Hl1).
  pose proof (eu_cascade g T o b g1 D1 Hcu Hwf Hwf1 Hob Hostem Hcas1) as Hcu1.
  assert (∀ o', o' ∈ os → o' ≠ o) as Hneq by (intros o' ? ->; done).
  assert (∀ o' b', o' ∈ os → known_ids g !! o' = Some b' → b' ∉ D1) as Hfresh.
  { intros o' b' Ho' Hb'.
    destruct (orphan_next g T o b g1 D1 o' Hwf Hob Hcas1) as [Hf _]; auto.
    apply Hos. by right. }
  destruct (IHos g1 (T ∪ D1) Hcu1 Hwf1 Hnd)
    as [Hout|[(g2&D2&Hrun2&Hwf2&Hcas2&Hin2&Hfr2)|[Hcrash Hself]]].
  { intros o' Ho'.
    destruct (orphan_next g T o b g1 D1 o' Hwf Hob Hcas1) as [_ Hn]; auto.
    apply Hos. by right. }
  { left. simpl. by rewrite (bind_Ret _ _ _ _ _ Hrun1). }
  2:{ right. right. split.
      - simpl. by rewrite (bind_Ret _ _ _ _ _ Hrun1).
      - by apply (self_parent_detach g T g1 D1). }
  right. left. exists g2, (D1 ∪ D2). split_and!.
  - simpl. by rewrite (bind_Ret _ _ _ _ _ Hrun1).
  - done.
  - apply (cascade_trans g T _ g1 D1
             (λ d, ∃ o', o' ∈ os ∧ known_ids g1 !! o' = Some d) g2 D2 Hwf Hwf1);
      [|exact Hcas2|].
    + destruct Hcas1 as (?&?&?&Ho1'&?). split_and!; try done.
      intros d Hd. eapply falls_roots; [|by apply Ho1'].
      intros x ->. apply falls_root. exists o. split; [left|done].
    + intros d (o'&Ho'&Hd'). exists o'. split; [by right|].
      destruct Hd1 as (_&_&Hsub&_). by eapply lookup_weaken.
  - intros o' b' [->|Ho']%elem_of_cons Hb'.
    + simplify_eq. set_solver.
    + apply elem_of_union_r. apply (Hin2 o' b' Ho').
      destruct Hd1 as (_&_&_&Hkeep&_). apply Hkeep; [done|]. by eapply Hfresh.
  - apply (untouched_trans g T g1 (T ∪ D1) g2); [set_solver|done|done|].
    intros t j Ht Hj. destruct Hd1 as (_&_&_&Hkeep&_). apply Hkeep; [done|].
    intros HtD. destruct (Hat1 t HtD) as [_ ?]. done.
Qed.

(** When the node being removed is among its own orphans, the loop over
    the orphans gets to it, or stops before: no way is left to return
    or to throw. *)
Lemma remove_orphans_self os :
  ∀ g T i a na,
    edges_upto g T → wf g → NoDup os → i ∈ os →
    (∀ o, o ∈ os → o ≠ i → o ≠ stem_id g ∧
       ∃ b nb, known_ids g !! o = Some b ∧ b ∉ T
               ∧ heap g !! b = Some nb ∧ parents nb = []) →
    known_ids g !! i = Some a → a ∈ T → i ≠ stem_id g →
    heap g !! a = Some na → parents na = [] → a ∈ children na →
    after (for_each (remove_fuel k) os g) = None.
Proof.
  induction os as [|o os IHos];
    intros g T i a na Hcu Hwf Hnd Hi Hos Hia HaT Histem Hna Hnil Hin;
    [by apply elem_of_nil in Hi|].
  apply NoDup_cons in Hnd as [Hno Hnd]. simpl.
  destruct (decide (o = i)) as [->|Hoi].
  { apply after_bind_None. by eapply remove_fuel_self_orphan. }
  apply elem_of_cons in Hi as [->|Hi]; [done|].
  destruct (Hos o) as (Hostem&b&nb&Hob&HbT&Hnb&Hnilb); [left|done|].
  destruct (IH g T o b Hcu Hwf Hob HbT Hostem)
    as [Hout|[(g1&D1&Hrun1&Hwf1&Hcas1&HbD1&Hfr1)|[Hcrash Hself]]].
  { apply after_bind_None. by rewrite Hout. }
  2:{ by apply after_bind_None. }
  rewrite (bind_Ret _ _ _ _ _ Hrun1).
  pose proof Hcas1 as (Hd1&Hat1&Hk1&Ho1&Hl1).
  assert (a ∉ D1) as HaD.
  { intros HaD. by destruct (Hat1 a HaD) as [_ ?]. }
  destruct (wf_lookup g i a Hwf Hia) as (na'&Hna'&Hid). simplify_eq.
  apply (IHos g1 (T ∪ D1) (node_id na) a na); try done.
  - by apply (eu_cascade g T o b g1 D1).
  - intros o' Ho' Hne.
    destruct (orphan_next g T o b g1 D1 o' Hwf Hob Hcas1) as [_ Hn]; auto.
    + intros ->. done.
    + apply Hos; [by right|done].
  - destruct Hd1 as (_&_&_&Hkeep&_). by apply Hkeep.
  - set_solver.
  - destruct Hd1 as (->&_). done.
  - by apply Hfr1.
Qed.

End orphans.

End cascade.

Section remove_correct.
Context {id_type : Type} `{Countable id_type}.
Context {Virus : Type} `{!VirusClassType Virus id_type}.
Implicit Types (g : VirusGenealogy id_type Virus) (n : Node id_type Virus).
Implicit Types (i o : id_type) (a b c d p : addr) (T D : gset addr).

(** The first level of [remove]: the node is taken out of the vectors
    of its neighbours, and the loop over its orphans starts on a
    genealogy in which they are registered nodes without parents. *)
Lemma remove_fuel_first k g T i a n :
  edges_upto g T → wf g →
  known_ids g !! i = Some a → a ∉ T → i ≠ stem_id g → heap g !! a = Some n →
  ∃ os g1 n1,
    remove_fuel (S k) i g
      = (do for_each (remove_fuel k) os in map_erase i) g1
    ∧ wf g1 ∧ stem_id g1 = stem_id g ∧ known_ids g1 = known_ids g
    ∧ detaches g T g1 {[a]} ∧ edges_upto g1 (T ∪ {[a]}) ∧ untouched g T g1
    ∧ heap g1 !! a = Some n1 ∧ parents n1 = strip {[a]} (parents n)
    ∧ occurrences a (children n1) = occurrences a (parents n)
    ∧ NoDup os
    ∧ (∀ o, o ∈ os ↔
         ∃ b nb, attached g T b ∧ heap g !! b = Some nb ∧ node_id nb = o
                 ∧ parents nb ≠ [] ∧ strip {[a]} (parents nb) = [])
    ∧ (∀ o, o ∈ os → o ≠ i → o ≠ stem_id g1 ∧
         ∃ b nb, known_ids g1 !! o = Some b ∧ b ∉ T ∪ {[a]}
                 ∧ heap g1 !! b = Some nb ∧ parents nb = []).
Proof.
  intros Hcu Hwf Hi HaT Histem Hn.
  assert (attached g T a) as Ha by (split; [by eapply wf_registered|done]).
  assert (node_id n = i) as Hid.
  { destruct (wf_lookup g i a Hwf Hi) as (n'&Hn'&Hid). congruence. }
  destruct (Node_remove_my_trace_edges g T a n Hcu Hwf Ha Hn)
    as (os&g1&Hrun1&Hs1&Hk1&Hn1&Hheap1&
        (n1&Hna1&Hid1&Hvir1&Hpar1&Hch1&Hoc1)&Hfr1&Hnd&Hos).
  assert (shrinks g g1) as Hsh1.
  { pose proof (Node_remove_my_trace_shrinks a g) as Hsh.
    by rewrite Hrun1 in Hsh; destruct Hsh. }
  assert (wf g1) as Hwf1 by exact (shrinks_wf g g1 Hsh1 Hwf).
  assert (detaches g T g1 {[a]}) as Hdet1.
  { unfold detaches. rewrite Hk1. split_and!; try done.
    intros b nb Hb Hba Hnb. apply Hheap1; [done| |done]. set_solver. }
  exists os, g1, n1. split_and!; try done.
  - simpl. unfold bind at 1. simpl. rewrite decide_False by done.
    unfold bind at 1. simpl.
    replace (exists_ g i) with true by (symmetry; apply exists_true; eauto).
    simpl. rewrite (bind_Ret _ _ _ _ _ (map_at_eq _ _ _ Hi)).
    by rewrite (bind_Ret _ _ _ _ _ Hrun1).
  - apply (eu_detach g T g1 {[a]}); try done.
    intros a' Ha' Hin. apply elem_of_singleton in Hin. subst a'.
    apply Histem. exact (wf_registry_inj g _ _ a Hwf Hi Ha').
  - intros o (b&nb&Hb&Hnb&<-&Hne&Hnil)%Hos Hoi.
    pose proof (registered_lookup g b nb (proj1 Hb) Hnb) as Hreg.
    assert (b ≠ a) as Hba by (intros ->; simplify_eq).
    split.
    + rewrite Hs1. intros Heq. rewrite Heq in Hreg.
      destruct (eu_stem g T b Hcu Hreg) as [_ (nb'&Hnb'&Hp)].
      rewrite Hnb in Hnb'. injection Hnb' as <-.
      destruct (parents nb) as [|p ps] eqn:Hps; [done|].
      assert (p = b) as -> by (apply Hp; left).
      assert (b ∈ ({[a]} : gset addr)) as Hin; [|set_solver].
      apply (proj1 (strip_nil_iff {[a]} (b :: ps)) Hnil). left.
    + exists b, (stripped {[a]} nb). rewrite Hk1. split_and!; try done.
      * apply not_elem_of_union. split; [apply Hb|]. set_solver.
      * by apply Hheap1.
Qed.

(** A virus whose parents are the virus itself and nobody else is not
    removed: the call that takes it out reports it as its own orphan,
    and the call for the orphan finds no entry to erase. *)
Lemma remove_fuel_own_orphan k g T i a n :
  remove_spec (id_type:=id_type) (Virus:=Virus) k →
  edges_upto g T → wf g →
  known_ids g !! i = Some a → a ∉ T → i ≠ stem_id g → heap g !! a = Some n →
  parents n ≠ [] → strip {[a]} (parents n) = [] →
  after (remove_fuel (S k) i g) = None.
Proof.
  intros IH Hcu Hwf Hi HaT Histem Hn Hne Hnil.
  destruct (remove_fuel_first k g T i a n Hcu Hwf Hi HaT Histem Hn)
    as (os&g1&n1&Hunfold&Hwf1&Hs1&Hk1&Hdet1&Hcu1&Hfr1&Hna1&Hpar1&Hoc1
        &Hnd&Hos&Hpre).
  assert (node_id n = i) as Hid.
  { destruct (wf_lookup g i a Hwf Hi) as (n'&Hn'&Hid). congruence. }
  assert (a ∈ parents n) as Hself.
  { destruct (parents n) as [|p ps] eqn:Hps; [done|].
    assert (p ∈ ({[a]} : gset addr)) as ->%elem_of_singleton; [|left].
    apply (proj1 (strip_nil_iff {[a]} (p :: ps)) Hnil). left. }
  rewrite Hunfold. apply after_bind_None.
  apply (remove_orphans_self k IH os g1 (T ∪ {[a]}) i a n1); try done.
  - apply Hos. exists a, n. split_and!; try done.
    split; [by eapply wf_registered|done].
  - by rewrite Hk1.
  - set_solver.
  - by rewrite Hs1.
  - by rewrite Hpar1.
  - apply occurrences_pos. rewrite Hoc1. by apply occurrences_pos.
Qed.

(** [remove] on an edge-consistent genealogy: the cascade, unless a
    virus that is its own parent is in the way. *)
Lemma remove_fuel_edges k : remove_spec (id_type:=id_type) (Virus:=Virus) k.
Proof.
  induction k as [|k IH]; intros g T i a Hcu Hwf Hi HaT Histem; [by left|].
  assert (attached g T a) as Ha by (split; [by eapply wf_registered|done]).
  destruct (wf_lookup g i a Hwf Hi) as (n&Hn&Hid).
  destruct (remove_fuel_first k g T i a n Hcu Hwf Hi HaT Histem Hn)
    as (os&g1&n1&Hunfold&Hwf1&Hs1&Hk1&Hdet1&Hcu1&Hfr1&Hna1&Hpar1&Hoc1
        &Hnd&Hos&Hpre).
  assert (∀ b nb, attached g T b → b ≠ a → heap g !! b = Some nb →
            heap g1 !! b = Some (stripped {[a]} nb)) as Hheap1.
  { intros b nb Hb Hba Hnb. destruct Hdet1 as (_&_&_&_&Hh).
    apply Hh; [done|set_solver|done]. }
  destruct (decide (i ∈ os)) as [Hios|Hios].
  { (* the node is its own orphan *)
    right. right.
    apply Hos in Hios as (b&nb&Hb&Hnb&Hidb&Hne&Hnil).
    pose proof (registered_lookup g b nb (proj1 Hb) Hnb) as Hreg.
    rewrite Hidb in Hreg. simplify_eq. split.
    - by apply (remove_fuel_own_orphan k g T (node_id n) a n).
    - exists a, n. split_and!; try done.
      destruct (parents n) as [|p ps] eqn:Hps; [done|].
      assert (p ∈ ({[a]} : gset addr)) as ->%elem_of_singleton; [|left].
      apply (proj1 (strip_nil_iff {[a]} (p :: ps)) Hnil). left. }
  destruct (remove_orphans_edges k IH os g1 (T ∪ {[a]}) Hcu1 Hwf1 Hnd)
    as [Hout|[(g2&D2&Hrun2&Hwf2&Hcas2&Hin2&Hfr2)|[Hcrash Hself]]].
  { intros o Ho. apply Hpre; [done|]. by intros ->. }
  { left. rewrite Hunfold. unfold bind. by rewrite Hout. }
  2:{ right. right. split.
      - rewrite Hunfold. by apply after_bind_None.
      - by apply (self_parent_detach g T g1 {[a]}). }
  pose proof Hcas2 as (Hd2&Hat2&Hk2&Ho2&Hl2).
  assert (a ∉ D2) as HaD2.
  { intros HaD. destruct (Hat2 a HaD) as [_ ?]. set_solver. }
  assert (known_ids g2 !! i = Some a) as Hi2.
  { rewrite Hk2, Hk1. apply map_lookup_filter_Some. done. }
  set (g3 := set_known_ids (delete i (known_ids g2)) g2).
  assert (map_erase i g2 = Ret tt (sweep g3)) as Herase.
  { unfold map_erase. by rewrite Hi2. }
  assert (wf (sweep g3)) as Hwf3.
  { pose proof (map_erase_shrinks i g2) as Hsh. rewrite Herase in Hsh.
    eapply shrinks_wf; [apply Hsh|done].
    destruct Hd2 as (->&_). congruence. }
  assert (detaches g T g2 ({[a]} ∪ D2)) as Hdet2
    by exact (detaches_trans g T g1 {[a]} g2 D2 Hwf Hdet1 Hd2).
  right. left. exists (sweep g3), ({[a]} ∪ D2). split_and!.
  - rewrite Hunfold. by rewrite (bind_Ret _ _ _ _ _ Hrun2).
  - done.
  - assert (∀ j b, known_ids g !! j = Some b → b ∉ {[a]} ∪ D2 →
              known_ids g3 !! j = Some b) as Hkeep.
    { intros j b Hj Hb. unfold g3. simpl.
      destruct Hdet2 as (_&_&_&Hkeep&_).
      rewrite lookup_delete_ne; [by apply Hkeep|].
      intros <-. simplify_eq. set_solver. }
    unfold cascade. split_and!.
    + destruct Hdet2 as (Hs2&Hn2&Hsub2&_&Hh2). unfold detaches.
      rewrite sweep_stem_id, sweep_next_addr, sweep_known_ids.
      split_and!; try done.
      * etrans; [apply delete_subseteq|done].
      * intros b nb Hb HbD Hnb.
        rewrite (sweep_registered g3 (node_id nb) b).
        -- by apply Hh2.
        -- apply Hkeep; [|done]. exact (registered_lookup g b nb (proj1 Hb) Hnb).
    + intros d [->%elem_of_singleton|Hd]%elem_of_union; [done|].
      by apply (detaches_attached_inv g T g1 {[a]} d Hwf Hwf1 Hdet1), Hat2.
    + rewrite sweep_known_ids. unfold g3. simpl. rewrite Hk2, Hk1.
      apply map_eq. intros j. destruct (decide (j = i)) as [->|Hji].
      * rewrite lookup_delete_eq. symmetry. apply map_lookup_filter_None.
        right. intros b Hb. simplify_eq. simpl. set_solver.
      * rewrite lookup_delete_ne by done. apply option_eq. intros b.
        rewrite !map_lookup_filter_Some. simpl. split.
        -- intros [Hj ?]. split; [done|]. apply not_elem_of_union.
           split; [|done]. intros Hin. apply elem_of_singleton in Hin. subst b.
           apply Hji. exact (wf_registry_inj g j i a Hwf Hj Hi).
        -- intros [Hj ?]. split; [done|]. set_solver.
    + intros d [->%elem_of_singleton|Hd]%elem_of_union; [by apply falls_root|].
      apply (falls_detach g T g1 {[a]} (λ d, d = a)
               (λ d, ∃ o, o ∈ os ∧ known_ids g1 !! o = Some d) d
               Hwf Hwf1 Hdet1); [| |by apply Ho2].
      * intros x ->%elem_of_singleton. by apply falls_root.
      * intros x (o&Ho&Hox).
        apply Hos in Ho as (b&nb&Hb&Hnb&<-&Hne&Hnil). rewrite Hk1 in Hox.
        pose proof (registered_lookup g b nb (proj1 Hb) Hnb). simplify_eq.
        apply (falls_orphan g T _ x nb); try done.
        intros p Hp. apply falls_root.
        apply strip_nil_iff with (x:=p) in Hnil; [|done].
        by apply elem_of_singleton in Hnil.
    + intros b nb Hb HbD Hnb Hne.
      apply not_elem_of_union in HbD as [Hba HbD2].
      rewrite <-strip_strip.
      apply (Hl2 b (stripped {[a]} nb)); [|done| |].
      * exact (detaches_attached g T g1 {[a]} b Hwf Hdet1 Hb Hba).
      * apply Hheap1; [done| |done]. set_solver.
      * simpl. intros Hnil. apply HbD2.
        apply (Hin2 (node_id nb) b).
        -- apply Hos. exists b, nb. done.
        -- rewrite Hk1. exact (registered_lookup g b nb (proj1 Hb) Hnb).
  - set_solver.
  - intros t nt Ht Hnt Hreg.
    assert (t ∉ D2) as HtD.
    { intros HtD. destruct (Hat2 t HtD) as [_ ?]. set_solver. }
    rewrite (sweep_registered g3 (node_id nt) t).
    + unfold g3. simpl. apply Hfr2; [set_solver|by apply Hfr1|by rewrite Hk1].
    + unfold g3. simpl. rewrite lookup_delete_ne.
      * rewrite Hk2, Hk1. by apply map_lookup_filter_Some.
      * intros Heq. rewrite <-Heq in Hreg. simplify_eq.
Qed.

(** On a consistent genealogy nothing is in the way. *)
Lemma remove_fuel_ok k : remove_ok (id_type:=id_type) (Virus:=Virus) k.
Proof.
  intros g T i a Hcu Hwf Hi HaT Histem.
  destruct (remove_fuel_edges k g T i a (cu_edges_upto g T Hcu) Hwf Hi HaT Histem)
    as [Hout|[(g'&D&Hrun&Hwf'&Hcas&HaD&_)|[_ Hself]]].
  - by left.
  - right. by exists g', D.
  - by destruct (cu_no_self_parent g T Hcu).
Qed.

Lemma remove_orphans_spec k os g T :
  consistent_upto g T → wf g → NoDup os →
  (∀ o, o ∈ os → o ≠ stem_id g ∧
     ∃ b nb, known_ids g !! o = Some b ∧ b ∉ T
             ∧ heap g !! b = Some nb ∧ parents nb = []) →
  for_each (remove_fuel k) os g = OutOfFuel ∨
  ∃ g' D, for_each (remove_fuel k) os g = Ret tt g' ∧ wf g'
          ∧ cascade g T (λ d, ∃ o, o ∈ os ∧ known_ids g !! o = Some d) g' D
          ∧ (∀ o b, o ∈ os → known_ids g !! o = Some b → b ∈ D).
Proof.
  intros Hcu Hwf Hnd Hos.
  destruct (remove_orphans_edges k (remove_fuel_edges k) os g T
              (cu_edges_upto g T Hcu) Hwf Hnd Hos)
    as [Hout|[(g'&D&Hrun&Hwf'&Hcas&HD&_)|[_ Hself]]].
  - by left.
  - right. by exists g', D.
  - by destruct (cu_no_self_parent g T Hcu).
Qed.

End remove_correct.

(** * [create] and [connect] *)

Section linking.
Context {id_type : Type} `{Countable id_type}.
Context {Virus : Type} `{!VirusClassType Virus id_type}.
Implicit Types (g : VirusGenealogy id_type Virus) (n : Node id_type Virus).
Implicit Types (h : gmap addr (Node id_type Virus)).
Implicit Types (i o : id_type) (a b c d this : addr) (aps : list addr).

#[global] Instance same_registry_preorder :
  PreOrder (same_registry (id_type:=id_type) (Virus:=Virus)).
Proof.
  split; [by intros g|].
  intros g1 g2 g3 (?&?&?) (?&?&?). unfold same_registry. split_and!; congruence.
Qed.

Lemma occurrences_replicate b k x :
  occurrences b (replicate k x) = if decide (x = b) then k else 0.
Proof.
  induction k as [|k IH]; simpl; [by case_decide|].
  rewrite occurrences_cons, IH. case_decide; lia.
Qed.

Lemma extended_nil this b n : extended this [] b n = n.
Proof.
  destruct n. unfold extended. simpl.
  rewrite app_nil_r. case_decide; by rewrite app_nil_r.
Qed.

Lemma extended_app this l1 l2 b n :
  extended this l2 b (extended this l1 b n) = extended this (l1 ++ l2) b n.
Proof.
  unfold extended. simpl. f_equal.
  - rewrite <-app_assoc. f_equal. by case_decide; [|rewrite app_nil_r].
  - rewrite <-app_assoc, <-replicate_add, occurrences_app. done.
Qed.

Lemma linked_refl h this : linked h this [] h.
Proof.
  intros b. destruct (h !! b) as [n|]; simpl; [|done].
  by rewrite extended_nil.
Qed.

Lemma linked_trans h this l1 h1 l2 h2 :
  linked h this l1 h1 → linked h1 this l2 h2 → linked h this (l1 ++ l2) h2.
Proof.
  intros H1 H2 b. rewrite H2, H1. destruct (h !! b) as [n|]; simpl; [|done].
  by rewrite extended_app.
Qed.

Lemma linked_is_Some h this aps h' b :
  linked h this aps h' → is_Some (h' !! b) ↔ is_Some (h !! b).
Proof. intros Hl. rewrite Hl. by rewrite fmap_is_Some. Qed.

Lemma linked_node_id h this aps h' b :
  linked h this aps h' → node_id <$> h' !! b = node_id <$> h !! b.
Proof. intros Hl. rewrite Hl. by destruct (h !! b). Qed.

(** [add_parent] on two live nodes. *)
Lemma Node_add_parent_linked g this parent :
  is_Some (heap g !! this) → is_Some (heap g !! parent) →
  ∃ g', Node_add_parent this parent g = Ret tt g'
        ∧ same_registry g g' ∧ linked (heap g) this [parent] (heap g').
Proof.
  intros [n Hn] [np Hnp].
  set (n1 := set_parents (parents n ++ [parent]) n).
  set (h1 := <[this := n1]> (heap g)).
  assert (∃ np1, h1 !! parent = Some np1
     ∧ np1 = mkNode (node_id np) (virus np)
               (parents np ++ (if decide (parent = this) then [parent] else []))
               (children np)) as (np1&Hnp1&Hnp1').
  { unfold h1. destruct (decide (parent = this)) as [->|Hne].
    - rewrite lookup_insert_eq. eexists. split; [done|]. by simplify_eq.
    - rewrite lookup_insert_ne by done. eexists. split; [done|].
      destruct np. simpl. by rewrite app_nil_r. }
  eexists. split_and!.
  - unfold Node_add_parent.
    rewrite (bind_Ret _ _ _ _ _ (deref_eq _ _ _ Hn)).
    rewrite (bind_Ret _ _ g tt (set_heap h1 g)) by done.
    by rewrite (bind_Ret _ _ _ _ _ (deref_eq (set_heap h1 g) _ _ Hnp1)).
  - done.
  - simpl. intros b. fold h1. unfold extended.
    destruct (decide (b = parent)) as [->|Hbp].
    + rewrite lookup_insert_eq, Hnp. simpl. f_equal. rewrite Hnp1'.
      unfold set_children. simpl. f_equal.
      f_equal. rewrite occurrences_cons, decide_True by done. done.
    + rewrite lookup_insert_ne by done. unfold h1.
      assert (occurrences b [parent] = 0) as ->.
      { rewrite occurrences_cons, decide_False by done. done. }
      destruct (decide (b = this)) as [->|Hbt].
      * rewrite lookup_insert_eq, Hn. simpl. f_equal. unfold n1, set_parents.
        by rewrite app_nil_r.
      * rewrite lookup_insert_ne by done.
        destruct (heap g !! b) as [nb|]; simpl; [|done]. f_equal.
        destruct nb. simpl. by rewrite !app_nil_r.
Qed.

Lemma Node_add_parent_no_throw g this parent :
  ends (Node_add_parent this parent g)
       (λ _ g', same_registry g g') (λ _ _, False) False.
Proof.
  unfold Node_add_parent. apply ends_bind.
  unfold deref. destruct (heap g !! this) as [n|]; simpl; [|done].
  apply ends_bind. simpl. apply ends_bind.
  match goal with |- context [heap ?g' !! parent] => destruct (heap g' !! parent) end;
    simpl; done.
Qed.

(** The loop of [create(id, parent_ids)]. *)
Lemma link_loop_no_throw i ps g :
  is_Some (known_ids g !! i) →
  Forall (λ p, is_Some (known_ids g !! p)) ps →
  ends (for_each (λ parent_id,
                    let* this := map_index i in
                    let* parent := map_at parent_id in
                    Node_add_parent this parent) ps g)
       (λ _ g', same_registry g g') (λ _ _, False) False.
Proof.
  intros Hi Hps. revert g Hi Hps.
  induction ps as [|p ps IH]; intros g [this Hi] Hps; simpl; [done|].
  apply Forall_cons in Hps as [[ap Hp] Hps].
  apply ends_bind.
  rewrite (bind_Ret _ _ _ _ _ (map_index_eq _ _ _ Hi)).
  rewrite (bind_Ret _ _ _ _ _ (map_at_eq _ _ _ Hp)).
  eapply ends_mono; [apply Node_add_parent_no_throw| |done|done].
  simpl. intros [] g1 _ Hsr. pose proof Hsr as (?&Hk&?).
  eapply ends_mono; [apply IH| |done|done].
  - rewrite Hk. eauto.
  - by rewrite Hk.
  - simpl. intros. by etrans.
Qed.

Lemma link_loop_linked i this ps aps g :
  known_ids g !! i = Some this → is_Some (heap g !! this) →
  Forall2 (λ p ap, known_ids g !! p = Some ap ∧ is_Some (heap g !! ap)) ps aps →
  ∃ g', for_each (λ parent_id,
                    let* this := map_index i in
                    let* parent := map_at parent_id in
                    Node_add_parent this parent) ps g = Ret tt g'
        ∧ same_registry g g' ∧ linked (heap g) this aps (heap g').
Proof.
  revert aps g. induction ps as [|p ps IH]; intros aps g Hi Hthis Hps.
  { apply Forall2_nil_inv_l in Hps as ->.
    exists g. split_and!; [done|done|apply linked_refl]. }
  apply Forall2_cons_inv_l in Hps as (ap&aps'&[Hp Hap]&Hps&->).
  destruct (Node_add_parent_linked g this ap Hthis Hap) as (g1&Hrun&Hsr&Hl).
  pose proof Hsr as (?&Hk&?).
  destruct (IH aps' g1) as (g2&Hrun2&Hsr2&Hl2).
  { by rewrite Hk. }
  { by rewrite (linked_is_Some _ _ _ _ _ Hl). }
  { eapply Forall2_impl; [done|]. simpl. intros p' ap' [? ?].
    rewrite Hk. split; [done|]. by rewrite (linked_is_Some _ _ _ _ _ Hl). }
  exists g2. split_and!.
  - simpl.
    rewrite (bind_Ret _ _ g tt g1); [done|].
    rewrite (bind_Ret _ _ _ _ _ (map_index_eq _ _ _ Hi)).
    by rewrite (bind_Ret _ _ _ _ _ (map_at_eq _ _ _ Hp)).
  - by etrans.
  - exact (linked_trans _ _ [ap] _ aps' _ Hl Hl2).
Qed.

End linking.

Section creating.
Context {id_type : Type} `{Countable id_type}.
Context {Virus : Type} `{!VirusClassType Virus id_type}.
Implicit Types (g : VirusGenealogy id_type Virus) (n : Node id_type Virus).
Implicit Types (h : gmap addr (Node id_type Virus)).
Implicit Types (i o : id_type) (a b c d this : addr) (aps : list addr).
Implicit Types (ps : list id_type).

(** The two steps before the loop of [create]. *)
Lemma allocate_eq g i v :
  Virus_new i = Some v → known_ids g !! i = None →
  (let* p := Node_new i in do map_assign i p in ret p) g
    = Ret (next_addr g) (allocated g i v).
Proof.
  intros Hv Hi. unfold bind, Node_new, map_assign. rewrite Hv. simpl.
  by rewrite Hi.
Qed.

Lemma exists_all_Forall2 g ps :
  wf g → exists_all g ps = true →
  ∃ aps, Forall2 (λ p ap, known_ids g !! p = Some ap
                          ∧ is_Some (heap g !! ap)) ps aps.
Proof.
  intros Hwf. rewrite exists_all_Forall. induction 1 as [|p ps Hp _ [aps IH]].
  { exists []. constructor. }
  apply exists_true in Hp as [ap Hp].
  destruct (wf_lookup g p ap Hwf Hp) as (n&Hn&_).
  exists (ap :: aps). constructor; [|done]. split; [done|by rewrite Hn].
Qed.

(** However [create(id, parent_ids)] throws, it leaves the genealogy as
    it found it. *)
Lemma create_multi_ends g i ps :
  ends (create_multi i ps g) (λ _ _, True)
       (λ e g', g' = g ∧
          (e = VirusAlreadyCreated ∧ exists_ g i = true
           ∨ e = VirusNotFound ∧ exists_ g i = false ∧ exists_all g ps = false
           ∨ e = PayloadFailure ∧ exists_ g i = false
             ∧ exists_all g ps = true ∧ ps ≠ [] ∧ Virus_new i = None))
       False.
Proof.
  unfold create_multi. apply ends_bind. simpl.
  destruct (exists_ g i) eqn:Hex; simpl; [by auto|].
  apply ends_bind. simpl.
  destruct (exists_all g ps) eqn:Hall; simpl; [|by auto 10].
  destruct ps as [|p ps]; [done|].
  assert (p :: ps ≠ []) as Hne by done.
  remember (p :: ps) as ps' eqn:Hps'. clear Hps'.
  apply exists_false in Hex.
  unfold try_catch, bind at 1, Node_new.
  destruct (Virus_new i) as [v|] eqn:Hv; simpl.
  - unfold bind at 1, map_assign. simpl. rewrite Hex.
    set (g1 := set_known_ids _ _).
    pose proof (link_loop_no_throw i ps' g1) as Hloop.
    destruct (for_each _ ps' g1) eqn:Hrun; simpl; try done;
      (exfalso; apply Hloop;
       [unfold g1; simpl; rewrite lookup_insert_eq; eauto|];
       apply exists_all_Forall in Hall; (eapply Forall_impl; [done|]);
       simpl; intros q [aq Hq]%exists_true; unfold g1; simpl;
       (destruct (decide (i = q)) as [->|Hiq]; [congruence|]);
       rewrite lookup_insert_ne by done; eauto).
  - unfold map_erase. rewrite Hex. simpl. split; [done|].
    right; right. by split_and!.
Qed.

(** [create(id, parent_ids)] with a payload that can be built, on a
    well-formed genealogy. *)
Lemma create_multi_ret g i ps aps v :
  wf g → known_ids g !! i = None → ps ≠ [] →
  Forall2 (λ p ap, known_ids g !! p = Some ap) ps aps →
  Virus_new i = Some v →
  ∃ g', create_multi i ps g = Ret tt g'
        ∧ same_registry (allocated g i v) g'
        ∧ linked (heap (allocated g i v)) (next_addr g) aps (heap g').
Proof.
  intros Hwf Hi Hne Hps Hv.
  assert (exists_all g ps = true) as Hall.
  { apply exists_all_Forall. clear -Hps.
    induction Hps; constructor; [apply exists_true; eauto|done]. }
  destruct (link_loop_linked i (next_addr g) ps aps (allocated g i v))
    as (g'&Hrun&Hsr&Hl).
  { simpl. apply lookup_insert_eq. }
  { simpl. rewrite lookup_insert_eq. eauto. }
  { eapply Forall2_impl; [done|]. simpl. intros p ap Hp.
    destruct (wf_lookup g p ap Hwf Hp) as (n&Hn&_).
    assert (ap ≠ next_addr g) as Hap.
    { intros ->. by rewrite (wf_fresh g Hwf) in Hn. }
    rewrite !lookup_insert_ne; [by rewrite Hn|done|congruence]. }
  exists g'. split_and!; [|done..].
  unfold create_multi. unfold bind at 1. simpl.
  replace (exists_ g i) with false by (symmetry; by apply exists_false).
  unfold bind at 1. simpl. rewrite Hall. simpl.
  destruct ps as [|p ps]; [done|].
  remember (p :: ps) as ps' eqn:Hps'. clear Hps'.
  unfold try_catch, bind at 1, Node_new. rewrite Hv. simpl.
  unfold bind at 1, map_assign. simpl. rewrite Hi.
  unfold allocated in Hrun. unfold set_known_ids. simpl. by rewrite Hrun.
Qed.

(** ** [get_parents] *)

Lemma lock_ids_eq g l ids :
  lock_ids l g = Ret ids g ↔
  Forall2 (λ b id, node_id <$> heap g !! b = Some id) l ids.
Proof.
  revert ids. induction l as [|b l IH]; intros ids; simpl.
  - split; [intros [= <-]; constructor|]. by intros ->%Forall2_nil_inv_l.
  - unfold bind at 1, lock. destruct (heap g !! b) as [n|] eqn:Hb.
    + unfold bind. destruct (lock_ids l g) as [ids' g'| | | |] eqn:Hl.
      * split.
        -- intros [= <- ->]. constructor; [by rewrite Hb|]. by apply IH.
        -- intros (id&ids''&Hid&Hrest&->)%Forall2_cons_inv_l.
           apply IH in Hrest. rewrite Hb in Hid. by simplify_eq/=.
      * split; [done|].
        intros (id&ids''&Hid&Hrest&->)%Forall2_cons_inv_l.
        apply IH in Hrest. done.
      * split; [done|].
        intros (id&ids''&Hid&Hrest&->)%Forall2_cons_inv_l.
        apply IH in Hrest. done.
      * split; [done|].
        intros (id&ids''&Hid&Hrest&->)%Forall2_cons_inv_l.
        apply IH in Hrest. done.
      * split; [done|].
        intros (id&ids''&Hid&Hrest&->)%Forall2_cons_inv_l.
        apply IH in Hrest. done.
    + split; [done|].
      intros (id&ids''&Hid&Hrest&->)%Forall2_cons_inv_l. by rewrite Hb in Hid.
Qed.

Lemma lock_ids_pure g l :
  ends (lock_ids l g) (λ _ g', g' = g) (λ _ _, False) False.
Proof.
  induction l as [|b l IH]; simpl; [done|].
  apply ends_bind. unfold lock. destruct (heap g !! b); simpl; [|done].
  apply ends_bind. eapply ends_mono; [apply IH| |done|done].
  simpl. by intros ? ? _ ->.
Qed.

Lemma get_parents_eq g i a n :
  known_ids g !! i = Some a → heap g !! a = Some n →
  get_parents i g = lock_ids (parents n) g.
Proof.
  intros Hi Hn. unfold get_parents. unfold bind at 1. simpl.
  replace (exists_ g i) with true by (symmetry; apply exists_true; eauto).
  simpl. rewrite (bind_Ret _ _ _ _ _ (map_at_eq _ _ _ Hi)).
  unfold Node_get_parents. by rewrite (bind_Ret _ _ _ _ _ (deref_eq _ _ _ Hn)).
Qed.

Lemma get_parents_pure g i :
  ends (get_parents i g) (λ _ g', g' = g)
       (λ e g', g' = g ∧ e = VirusNotFound ∧ exists_ g i = false) False.
Proof.
  unfold get_parents. apply ends_bind. simpl.
  destruct (exists_ g i) eqn:Hex; simpl; [|done].
  apply exists_true in Hex as [a Ha].
  rewrite (bind_Ret _ _ _ _ _ (map_at_eq _ _ _ Ha)).
  unfold Node_get_parents. apply ends_bind. unfold deref.
  destruct (heap g !! a); simpl; [|done].
  eapply ends_mono; [apply lock_ids_pure|done..].
Qed.

Lemma has_parent_true i ps : has_parent i ps = true ↔ i ∈ ps.
Proof.
  induction ps as [|p ps IH]; simpl.
  - split; [done|]. by intros ?%elem_of_nil.
  - rewrite elem_of_cons. case_decide; [naive_solver|].
    rewrite IH. naive_solver.
Qed.

(** ** [connect] *)

Lemma connect_ends g child_id parent_id :
  ends (connect child_id parent_id g) (λ _ _, True)
       (λ e g', g' = g ∧ e = VirusNotFound
                ∧ (exists_ g child_id = false ∨ exists_ g parent_id = false))
       False.
Proof.
  unfold connect. apply ends_bind. simpl. apply ends_bind. simpl.
  destruct (exists_ g child_id) eqn:Hc; simpl; [|by auto].
  destruct (exists_ g parent_id) eqn:Hp; simpl; [|by auto].
  apply ends_bind. eapply ends_mono; [apply get_parents_pure| | |done].
  - simpl. intros ps g1 _ ->. destruct (has_parent parent_id ps); [done|].
    apply exists_true in Hc as [ac Hc]. apply exists_true in Hp as [ap Hp].
    rewrite (bind_Ret _ _ _ _ _ (map_index_eq _ _ _ Hc)).
    rewrite (bind_Ret _ _ _ _ _ (map_at_eq _ _ _ Hp)).
    eapply ends_mono; [apply Node_add_parent_no_throw|done..].
  - simpl. intros e g1 _ (_&_&?). congruence.
Qed.

Lemma connect_present g child_id parent_id ps :
  exists_ g child_id = true → exists_ g parent_id = true →
  get_parents child_id g = Ret ps g → parent_id ∈ ps →
  connect child_id parent_id g = Ret tt g.
Proof.
  intros Hc Hp Hps Hin. unfold connect.
  unfold bind at 1. simpl. unfold bind at 1. simpl. rewrite Hc, Hp. simpl.
  rewrite (bind_Ret _ _ _ _ _ Hps).
  by rewrite (proj2 (has_parent_true _ _) Hin).
Qed.

Lemma connect_absent g child_id parent_id ac ap ps :
  wf g →
  known_ids g !! child_id = Some ac → known_ids g !! parent_id = Some ap →
  get_parents child_id g = Ret ps g → parent_id ∉ ps →
  ∃ g', connect child_id parent_id g = Ret tt g'
        ∧ same_registry g g' ∧ linked (heap g) ac [ap] (heap g')
        ∧ get_parents child_id g' = Ret (ps ++ [parent_id]) g'.
Proof.
  intros Hwf Hc Hp Hps Hnin.
  destruct (wf_lookup g _ _ Hwf Hc) as (nc&Hnc&Hidc).
  destruct (wf_lookup g _ _ Hwf Hp) as (np&Hnp&Hidp).
  destruct (Node_add_parent_linked g ac ap) as (g'&Hrun&Hsr&Hl);
    [by rewrite Hnc|by rewrite Hnp|].
  exists g'. split_and!; [|done|done|].
  - unfold connect. unfold bind at 1. simpl. unfold bind at 1. simpl.
    replace (exists_ g child_id) with true by (symmetry; apply exists_true; eauto).
    replace (exists_ g parent_id) with true by (symmetry; apply exists_true; eauto).
    simpl. rewrite (bind_Ret _ _ _ _ _ Hps).
    destruct (has_parent parent_id ps) eqn:Hhas.
    { by apply has_parent_true in Hhas. }
    rewrite (bind_Ret _ _ _ _ _ (map_index_eq _ _ _ Hc)).
    by rewrite (bind_Ret _ _ _ _ _ (map_at_eq _ _ _ Hp)).
  - destruct Hsr as (_&Hk&_).
    rewrite (get_parents_eq g child_id ac nc Hc Hnc) in Hps.
    apply lock_ids_eq in Hps.
    rewrite (get_parents_eq g' child_id ac (extended ac [ap] ac nc)).
    + apply lock_ids_eq. simpl. rewrite decide_True by done.
      apply Forall2_app.
      * eapply Forall2_impl; [done|]. simpl. intros b id Hb.
        by rewrite (linked_node_id _ _ _ _ _ Hl).
      * constructor; [|constructor].
        rewrite (linked_node_id _ _ _ _ _ Hl), Hnp. simpl. by rewrite Hidp.
    + by rewrite Hk.
    + by rewrite Hl, Hnc.
Qed.

End creating.

(** * Every call keeps a consistent genealogy consistent *)

Section preservation.
Context {id_type : Type} `{Countable id_type}.
Context {Virus : Type} `{!VirusClassType Virus id_type}.
Implicit Types (g : VirusGenealogy id_type Virus) (n : Node id_type Virus).
Implicit Types (h : gmap addr (Node id_type Virus)).
Implicit Types (i o : id_type) (a b c d this : addr) (aps : list addr).
Implicit Types (ps : list id_type) (T D : gset addr).

Lemma attached_empty g a : attached g ∅ a ↔ registered g a.
Proof. unfold attached. set_solver. Qed.

Lemma consistent_wf g : consistent g → wf g.
Proof. by intros [? _]. Qed.

Lemma edge_consistent_wf g : edge_consistent g → wf g.
Proof. by intros [? _]. Qed.

Lemma consistent_edge_consistent g : consistent g → edge_consistent g.
Proof. intros (?&?&?). split_and!; try done. by apply cu_edges_upto. Qed.

(** A consistent genealogy is an edge-consistent one in which no virus
    is its own parent. *)
Lemma consistent_iff g :
  consistent g ↔
  edge_consistent g
  ∧ map_Forall (λ a n, attached g ∅ a → a ∉ parents n) (heap g).
Proof.
  split.
  - intros Hcon. split; [by apply consistent_edge_consistent|].
    by destruct Hcon as (_&_&_&_&_&?).
  - intros [(Hwf&Hstem&Hcl&He&Hs) Hn].
    split; [done|]. split; [done|]. unfold consistent_upto.
    split; [done|]. split; [done|]. split; [|done].
    intros i a Hi Hst. destruct (Hs i a Hi Hst) as [? Hp]. split; [done|].
    destruct (heap g !! a) as [n|] eqn:Hna; simplify_eq/=. f_equal.
    assert (strip {[a]} (parents n) = []) as Hnil by done.
    rewrite <-Hnil. symmetry. apply strip_id.
    intros x Hx ->%elem_of_singleton. apply (Hn a n Hna); [|done].
    apply attached_empty. by eapply wf_registered.
Qed.

(** ** Allocation *)

Lemma allocated_wf g i v : wf g → known_ids g !! i = None → wf (allocated g i v).
Proof.
  intros Hwf Hi. pose proof (wf_fresh g Hwf) as Hfresh.
  destruct Hwf as [Hreg Halloc]. split; simpl.
  - intros j a. destruct (decide (i = j)) as [->|Hij].
    + rewrite lookup_insert_eq. intros [= <-]. by rewrite lookup_insert_eq.
    + rewrite lookup_insert_ne by done. intros Hj.
      specialize (Hreg j a Hj). simpl in Hreg.
      rewrite lookup_insert_ne; [done|]. intros <-. by rewrite Hfresh in Hreg.
  - intros a n. destruct (decide (next_addr g = a)) as [<-|Hne].
    + intros _. lia.
    + rewrite lookup_insert_ne by done. intros Ha.
      specialize (Halloc a n Ha). simpl in Halloc. lia.
Qed.

Lemma allocated_registered g i v b :
  wf g → known_ids g !! i = None →
  registered (allocated g i v) b ↔ b = next_addr g ∨ registered g b.
Proof.
  intros Hwf Hi. pose proof (wf_fresh g Hwf) as Hfresh.
  rewrite !registered_iff. simpl. split.
  - intros (nb&Hnb&Hreg). destruct (decide (next_addr g = b)) as [<-|Hne]; [by left|].
    right. rewrite lookup_insert_ne in Hnb by done. exists nb. split; [done|].
    destruct (decide (i = node_id nb)) as [Heq|Hne'].
    + rewrite Heq, lookup_insert_eq in Hreg. congruence.
    + by rewrite lookup_insert_ne in Hreg.
  - intros [->|(nb&Hnb&Hreg)].
    + eexists. rewrite lookup_insert_eq. split; [done|]. simpl.
      by rewrite lookup_insert_eq.
    + exists nb. assert (b ≠ next_addr g) by (intros ->; congruence).
      rewrite lookup_insert_ne by done. split; [done|].
      rewrite lookup_insert_ne; [done|]. intros ->. congruence.
Qed.

Lemma allocated_edges g i v :
  edge_consistent g → known_ids g !! i = None →
  edge_consistent (allocated g i v).
Proof.
  intros (Hwf&Hstem&Hcu) Hi. pose proof (wf_fresh g Hwf) as Hfresh.
  assert (∀ a n x, registered g a → heap g !! a = Some n →
            x ∈ parents n ∨ x ∈ children n →
            registered g x ∧ x ≠ next_addr g) as Hold.
  { intros a n x Ha Hn Hx.
    assert (registered g x) as Hrx.
    { apply attached_empty. eapply (eu_closed g ∅ a n x); [done| |done|done].
      by apply attached_empty. }
    split; [done|]. intros ->. apply registered_iff in Hrx as (?&?&_).
    congruence. }
  split_and!.
  - by apply allocated_wf.
  - simpl. destruct Hstem as [a Ha]. exists a.
    rewrite lookup_insert_ne; [done|]. intros ->. congruence.
  - unfold edges_upto. split_and!.
    + intros a n Hn Ha. apply attached_empty, allocated_registered in Ha; [|done..].
      simpl in Hn. destruct Ha as [->|Ha].
      * rewrite lookup_insert_eq in Hn. injection Hn as <-. simpl. constructor.
      * assert (a ≠ next_addr g).
        { intros ->. apply registered_iff in Ha as (?&?&_). congruence. }
        rewrite lookup_insert_ne in Hn by done.
        apply Forall_forall. intros x Hx%elem_of_app.
        apply attached_empty, allocated_registered; [done..|]. right.
        by apply (Hold a n x).
    + intros a na Hna Ha b nb Hnb Hb.
      apply attached_empty, allocated_registered in Ha; [|done..].
      apply attached_empty, allocated_registered in Hb; [|done..].
      simpl in Hna, Hnb.
      destruct Ha as [->|Ha], Hb as [->|Hb].
      * rewrite lookup_insert_eq in Hna, Hnb. by simplify_eq.
      * rewrite lookup_insert_eq in Hna. injection Hna as <-. simpl.
        assert (b ≠ next_addr g).
        { intros ->. apply registered_iff in Hb as (?&?&_). congruence. }
        rewrite lookup_insert_ne in Hnb by done.
        symmetry. apply occurrences_zero. intros Hin.
        by destruct (Hold b nb (next_addr g) Hb Hnb (or_introl Hin)).
      * rewrite lookup_insert_eq in Hnb. injection Hnb as <-. simpl.
        assert (a ≠ next_addr g).
        { intros ->. apply registered_iff in Ha as (?&?&_). congruence. }
        rewrite lookup_insert_ne in Hna by done.
        apply occurrences_zero. intros Hin.
        by destruct (Hold a na (next_addr g) Ha Hna (or_intror Hin)).
      * assert (a ≠ next_addr g).
        { intros ->. apply registered_iff in Ha as (?&?&_). congruence. }
        assert (b ≠ next_addr g).
        { intros ->. apply registered_iff in Hb as (?&?&_). congruence. }
        rewrite lookup_insert_ne in Hna, Hnb by done.
        apply (eu_edges g ∅ a b); try done; by apply attached_empty.
    + intros j a Hj Hjs. simpl in *. subst j.
      assert (i ≠ stem_id g) by (intros ->; destruct Hstem; congruence).
      rewrite lookup_insert_ne in Hj by done.
      destruct (eu_stem g ∅ a Hcu Hj) as [_ (n&Hn&Hp)]. split; [set_solver|].
      rewrite lookup_insert_ne by (intros <-; congruence).
      rewrite Hn. simpl. f_equal. apply strip_nil_iff.
      intros p ->%Hp. set_solver.
Qed.

Lemma allocated_consistent g i v :
  consistent g → known_ids g !! i = None → consistent (allocated g i v).
Proof.
  intros Hcon Hi. apply consistent_iff. pose proof (consistent_wf g Hcon) as Hwf.
  split; [apply allocated_edges; [by apply consistent_edge_consistent|done]|].
  destruct Hcon as (_&_&Hcu).
  intros a n Hn Ha. apply attached_empty, allocated_registered in Ha; [|done..].
  simpl in Hn. destruct Ha as [->|Ha].
  - rewrite lookup_insert_eq in Hn. injection Hn as <-. simpl.
    apply not_elem_of_nil.
  - assert (a ≠ next_addr g).
    { intros ->. apply registered_iff in Ha as (?&?&_).
      by rewrite (wf_fresh g Hwf) in *. }
    rewrite lookup_insert_ne in Hn by done.
    apply (cu_noself g ∅ a n Hcu); [by apply attached_empty|done].
Qed.

(** ** Linking *)

Lemma linked_wf g g' this aps :
  wf g → same_registry g g' → linked (heap g) this aps (heap g') → wf g'.
Proof.
  intros [Hreg Halloc] (Hs&Hk&Hn) Hl. split.
  - rewrite Hk. intros i a Hi. simpl. rewrite (linked_node_id _ _ _ _ _ Hl).
    by apply (Hreg i a).
  - intros a n' Ha. rewrite Hn.
    assert (is_Some (heap g !! a)) as [n Hna].
    { apply (linked_is_Some _ _ _ _ a Hl). by rewrite Ha. }
    by apply (Halloc a n).
Qed.

Lemma linked_registered g g' this aps b :
  same_registry g g' → linked (heap g) this aps (heap g') →
  registered g' b ↔ registered g b.
Proof.
  intros (Hs&Hk&Hn) Hl. rewrite !registered_iff, Hk. rewrite Hl.
  destruct (heap g !! b) as [nb|]; simpl.
  - split; intros (?&[= <-]&?); eauto.
  - split; by intros (?&?&?).
Qed.

Lemma linked_node g g' this aps b nb' :
  linked (heap g) this aps (heap g') → heap g' !! b = Some nb' →
  ∃ nb, heap g !! b = Some nb ∧ nb' = extended this aps b nb.
Proof.
  intros Hl. rewrite Hl. destruct (heap g !! b) as [nb|]; simpl; [|done].
  intros [= <-]. eauto.
Qed.

(** New edges keep the edges consistent, wherever they come from, as
    long as those into the stem virus come from the stem virus. *)
Lemma linked_edges g g' this aps :
  edge_consistent g → same_registry g g' → linked (heap g) this aps (heap g') →
  registered g this → Forall (registered g) aps →
  (known_ids g !! stem_id g = Some this → ∀ ap, ap ∈ aps → ap = this) →
  edge_consistent g'.
Proof.
  intros (Hwf&Hstem&Hcu) Hsr Hl Hthis Haps Hnstem.
  pose proof Hsr as (Hs&Hk&Hn).
  assert (∀ b, attached g' ∅ b ↔ attached g ∅ b) as Hatt.
  { intros b. rewrite !attached_empty. by eapply linked_registered. }
  pose proof (λ b nb', linked_node g g' this aps b nb' Hl) as Hnode.
  rewrite Forall_forall in Haps.
  split_and!.
  - by eapply linked_wf.
  - by rewrite Hs, Hk.
  - unfold edges_upto. split_and!.
    + intros a na' Hna' Ha. destruct (Hnode a na' Hna') as (na&Hna&->).
      apply Hatt in Ha. apply Forall_forall. intros x. simpl.
      rewrite !elem_of_app. intros Hx. apply Hatt.
      destruct Hx as [[Hx|Hx]|[Hx|Hx]].
      * apply (eu_closed g ∅ a na x Hcu Ha Hna). by left.
      * case_decide; [|by apply elem_of_nil in Hx].
        apply attached_empty. by apply Haps.
      * apply (eu_closed g ∅ a na x Hcu Ha Hna). by right.
      * apply elem_of_replicate in Hx as [-> _]. by apply attached_empty.
    + intros a na' Hna' Ha b nb' Hnb' Hb.
      destruct (Hnode a na' Hna') as (na&Hna&->).
      destruct (Hnode b nb' Hnb') as (nb&Hnb&->).
      apply Hatt in Ha, Hb. simpl.
      rewrite !occurrences_app, occurrences_replicate.
      rewrite (eu_edges g ∅ a b na nb Hcu Ha Hb Hna Hnb).
      f_equal. case_decide; case_decide; simplify_eq; done.
    + intros i a Hi ->. rewrite Hs, Hk in Hi.
      destruct (eu_stem g ∅ a Hcu Hi) as [_ (na&Hna&Hp)]. split; [set_solver|].
      rewrite Hl, Hna. simpl. f_equal. apply strip_nil_iff.
      intros p [Hin|Hin]%elem_of_app.
      * apply Hp in Hin as ->. set_solver.
      * case_decide as Hd; [|by apply elem_of_nil in Hin]. subst a.
        apply Hnstem in Hin; [|done]. set_solver.
Qed.

Lemma linked_consistent g g' this aps :
  consistent g → same_registry g g' → linked (heap g) this aps (heap g') →
  registered g this → Forall (registered g) aps → this ∉ aps →
  known_ids g !! stem_id g ≠ Some this →
  consistent g'.
Proof.
  intros Hcon Hsr Hl Hthis Haps Hni Hnstem. apply consistent_iff.
  split; [apply (linked_edges g g' this aps); try done;
          by apply consistent_edge_consistent|].
  destruct Hcon as (_&_&Hcu).
  intros a na' Hna' Ha.
  destruct (linked_node g g' this aps a na' Hl Hna') as (na&Hna&->).
  apply attached_empty, (linked_registered g g' this aps a Hsr Hl),
    attached_empty in Ha.
  simpl. rewrite elem_of_app. intros [Hin|Hin].
  - by apply (cu_noself g ∅ a na Hcu Ha Hna).
  - case_decide; [by subst|by apply elem_of_nil in Hin].
Qed.

End preservation.

Section steps.
Context {id_type : Type} `{Countable id_type}.
Context {Virus : Type} `{!VirusClassType Virus id_type}.
Implicit Types (g : VirusGenealogy id_type Virus) (n : Node id_type Virus).
Implicit Types (h : gmap addr (Node id_type Virus)).
Implicit Types (i o : id_type) (a b c d this : addr) (aps : list addr).
Implicit Types (ps : list id_type) (T D : gset addr).

(** ** [remove] *)

Lemma remove_stem g : remove (stem_id g) g = Throw TriedToRemoveStemVirus g.
Proof.
  unfold remove. simpl. unfold bind at 1. simpl. by rewrite decide_True.
Qed.

Lemma remove_missing g i :
  i ≠ stem_id g → exists_ g i = false → remove i g = Throw VirusNotFound g.
Proof.
  intros Hi Hex. unfold remove. simpl. unfold bind at 1. simpl.
  rewrite decide_False by done. unfold bind at 1. simpl. by rewrite Hex.
Qed.

(** Between calls the nodes that go are those of [goes_with]. *)
Lemma falls_goes_with g a d :
  falls g ∅ (λ x, x = a) d ↔ goes_with g a d.
Proof.
  split.
  - induction 1 as [d Hd|d nd Hat Hnd Hne _ IH].
    { simpl in Hd. subst d. apply goes_itself. }
    exact (goes_orphan g a d nd (proj1 (attached_empty g d) Hat) Hnd Hne IH).
  - induction 1 as [|d nd Hreg Hnd Hne _ IH]; [by apply falls_root|].
    exact (falls_orphan g ∅ _ d nd (proj2 (attached_empty g d) Hreg)
             Hnd Hne IH).
Qed.

(** A cascade takes every node that goes: one that stayed would have
    lost all its parents. *)
Lemma cascade_takes_all g T (roots : addr → Prop) g' D d :
  cascade g T roots g' D → (∀ x, roots x → x ∈ D) →
  falls g T roots d → d ∈ D.
Proof.
  intros (_&_&_&_&Hleft) Hroots.
  induction 1 as [d Hd|d nd Hat Hnd Hne _ IH]; [by apply Hroots|].
  destruct (decide (d ∈ D)) as [?|HdD]; [done|].
  destruct (Hleft d nd Hat HdD Hnd Hne). by apply strip_nil_iff.
Qed.

(** On a consistent genealogy [remove] of a registered virus other than
    the stem virus returns, and what it leaves is the genealogy without a
    cascade rooted at that virus. *)
Lemma remove_consistent g i a :
  consistent g → known_ids g !! i = Some a → i ≠ stem_id g →
  ∃ g' D, remove i g = Ret tt g' ∧ consistent g'
          ∧ cascade g ∅ (λ d, d = a) g' D ∧ a ∈ D.
Proof.
  intros (Hwf&Hstem&Hcu) Hi Histem.
  pose proof (remove_shrinks i g) as Hsh. unfold remove in *.
  destruct (remove_fuel_ok (S (total_parents g)) g ∅ i a)
    as [Hout|(g'&D&Hrun&Hwf'&Hcas&HaD)]; try done.
  { by rewrite Hout in Hsh. }
  rewrite Hrun in Hsh. simpl in Hsh.
  exists g', D. split_and!; try done.
  destruct Hsh as (Hs&_&_&Hst&_).
  split; [done|]. split; [by rewrite Hs, Hst|].
  pose proof Hcas as (Hdet&Hat&Hk&Ho&_).
  apply (cu_forget g' (∅ ∪ D)).
  - apply (cu_detach g ∅ g' D); try done.
    intros a' Ha' Hin. destruct (wf_lookup g _ _ Hwf Ha') as (na&Hna&_).
    apply (falls_parents g ∅ _ a' na (Ho a' Hin) Hna).
    + intros ->. apply Histem. exact (wf_registry_inj g _ _ a Hwf Hi Ha').
    + destruct (cu_stem g ∅ a' Hcu Ha') as [_ Hp]. rewrite Hna in Hp.
      simpl in Hp. by injection Hp.
  - intros j b. rewrite Hk. intros [_ ?]%map_lookup_filter_Some. set_solver.
Qed.

(** On a consistent genealogy [remove] throws only where it checks its
    argument, before it has touched anything. *)
Lemma remove_throw_consistent g i e g' :
  consistent g → remove i g = Throw e g' →
  g' = g ∧ (e = TriedToRemoveStemVirus ∧ i = stem_id g
            ∨ e = VirusNotFound ∧ i ≠ stem_id g ∧ exists_ g i = false).
Proof.
  intros Hc Hrun. destruct (decide (i = stem_id g)) as [->|Hi].
  { rewrite remove_stem in Hrun. injection Hrun as <- <-. auto. }
  destruct (exists_ g i) eqn:Hex.
  - apply exists_true in Hex as [a Ha].
    destruct (remove_consistent g i a Hc Ha Hi) as (?&?&Hret&_). congruence.
  - rewrite remove_missing in Hrun by done. injection Hrun as <- <-. auto.
Qed.

(** On an edge-consistent genealogy a call of [remove] that leaves a
    genealogy behind has thrown where it checks its argument, before it
    touched anything, or has returned and removed a cascade. *)
Lemma remove_edges g i g' :
  edge_consistent g → after (remove i g) = Some g' →
  (g' = g ∧ ∃ e, remove i g = Throw e g
       ∧ (e = TriedToRemoveStemVirus ∧ i = stem_id g
          ∨ e = VirusNotFound ∧ i ≠ stem_id g ∧ exists_ g i = false))
  ∨ (∃ a D, known_ids g !! i = Some a ∧ i ≠ stem_id g
       ∧ remove i g = Ret tt g' ∧ edge_consistent g'
       ∧ cascade g ∅ (λ d, d = a) g' D ∧ a ∈ D).
Proof.
  intros (Hwf&Hstem&Hcu) Hafter.
  destruct (decide (i = stem_id g)) as [->|Histem].
  { left. rewrite remove_stem in Hafter. injection Hafter as <-.
    split; [done|]. eexists. split; [apply remove_stem|auto]. }
  destruct (exists_ g i) eqn:Hex.
  2:{ left. rewrite remove_missing in Hafter by done. injection Hafter as <-.
      split; [done|]. eexists. split; [by apply remove_missing|auto]. }
  right. apply exists_true in Hex as [a Hi]. exists a.
  pose proof (remove_shrinks i g) as Hsh. unfold remove in *.
  destruct (remove_fuel_edges (S (total_parents g)) g ∅ i a)
    as [Hout|[(g1&D&Hrun&Hwf'&Hcas&HaD&_)|[Hcrash _]]]; try done.
  { by rewrite Hout in Hsh. }
  2:{ by rewrite Hcrash in Hafter. }
  rewrite Hrun in Hafter, Hsh. simpl in Hsh. injection Hafter as ->.
  exists D. split_and!; try done.
  destruct Hsh as (Hs&_&_&Hst&_).
  split; [done|]. split; [by rewrite Hs, Hst|].
  pose proof Hcas as (Hdet&Hat&Hk&Ho&_).
  apply (eu_forget g' (∅ ∪ D)).
  - by apply (eu_cascade g ∅ i a g' D).
  - intros j b. rewrite Hk. intros [_ ?]%map_lookup_filter_Some. set_solver.
Qed.

(** ** [create] *)

Lemma create_multi_Ret_inv g i ps g' :
  wf g → create_multi i ps g = Ret tt g' →
  known_ids g !! i = None ∧
  (ps = [] ∧ g' = g ∨
   ps ≠ [] ∧ ∃ v aps,
     Virus_new i = Some v
     ∧ Forall2 (λ p ap, known_ids g !! p = Some ap) ps aps
     ∧ same_registry (allocated g i v) g'
     ∧ linked (heap (allocated g i v)) (next_addr g) aps (heap g')).
Proof.
  intros Hwf Hrun.
  destruct (exists_ g i) eqn:Hex.
  { unfold create_multi, bind at 1 in Hrun. simpl in Hrun. by rewrite Hex in Hrun. }
  apply exists_false in Hex. split; [done|].
  destruct (exists_all g ps) eqn:Hall.
  2:{ unfold create_multi, bind at 1 in Hrun. simpl in Hrun.
      replace (exists_ g i) with false in Hrun
        by (symmetry; by apply exists_false).
      unfold bind at 1 in Hrun. simpl in Hrun. by rewrite Hall in Hrun. }
  destruct (decide (ps = [])) as [->|Hne].
  { left. split; [done|]. unfold create_multi, bind at 1 in Hrun. simpl in Hrun.
    replace (exists_ g i) with false in Hrun
      by (symmetry; by apply exists_false).
    unfold bind at 1 in Hrun. simpl in Hrun. by injection Hrun. }
  right. split; [done|].
  destruct (exists_all_Forall2 g ps Hwf Hall) as [aps Haps].
  assert (Forall2 (λ p ap, known_ids g !! p = Some ap) ps aps) as Haps'.
  { eapply Forall2_impl; [done|]. by intros ? ? [? _]. }
  destruct (Virus_new i) as [v|] eqn:Hv.
  - destruct (create_multi_ret g i ps aps v Hwf Hex Hne Haps' Hv)
      as (g''&Hrun'&Hsr&Hl).
    rewrite Hrun in Hrun'. injection Hrun' as <-. eauto 10.
  - exfalso. revert Hrun.
    unfold create_multi. unfold bind at 1. simpl.
    replace (exists_ g i) with false by (symmetry; by apply exists_false).
    unfold bind at 1. simpl. rewrite Hall. simpl.
    destruct ps as [|p ps]; [done|].
    unfold try_catch, bind at 1, Node_new. rewrite Hv.
    unfold map_erase. by rewrite Hex.
Qed.

Lemma create_multi_step g i ps g' :
  consistent g → create_multi i ps g = Ret tt g' → consistent g'.
Proof.
  intros Hc Hrun. pose proof (consistent_wf g Hc) as Hwf.
  destruct (create_multi_Ret_inv g i ps g' Hwf Hrun)
    as [Hi [[-> ->]|(Hne&v&aps&Hv&Haps&Hsr&Hl)]]; [done|].
  pose proof (wf_fresh g Hwf) as Hfresh.
  assert (∀ ap, ap ∈ aps → registered g ap) as Hreg.
  { intros ap Hap. clear -Haps Hap Hwf.
    induction Haps as [|p ap' ps aps Hp _ IH]; [by apply elem_of_nil in Hap|].
    apply elem_of_cons in Hap as [->|?]; [|auto].
    exact (wf_registered g _ _ Hwf Hp). }
  apply (linked_consistent (allocated g i v) g' (next_addr g) aps); try done.
  - by apply allocated_consistent.
  - apply allocated_registered; [done..|by left].
  - apply Forall_forall. intros ap Hap.
    apply allocated_registered; [done..|]. right. by apply Hreg.
  - intros Hin. apply Hreg, registered_iff in Hin as (?&?&_). congruence.
  - simpl. destruct Hc as (_&[a Ha]&_).
    rewrite lookup_insert_ne by (intros ->; congruence).
    rewrite Ha. intros [= ->]. destruct (wf_lookup g _ _ Hwf Ha) as (?&?&_).
    congruence.
Qed.

Lemma create_multi_edges g i ps g' :
  edge_consistent g → create_multi i ps g = Ret tt g' → edge_consistent g'.
Proof.
  intros Hc Hrun. pose proof (edge_consistent_wf g Hc) as Hwf.
  destruct (create_multi_Ret_inv g i ps g' Hwf Hrun)
    as [Hi [[-> ->]|(Hne&v&aps&Hv&Haps&Hsr&Hl)]]; [done|].
  pose proof (wf_fresh g Hwf) as Hfresh.
  apply (linked_edges (allocated g i v) g' (next_addr g) aps); try done.
  - by apply allocated_edges.
  - apply allocated_registered; [done..|by left].
  - clear -Haps Hwf Hi. induction Haps as [|p ap ps aps Hp _ IH];
      constructor; [|done].
    apply allocated_registered; [done..|]. right. by eapply wf_registered.
  - simpl. destruct Hc as (_&[a Ha]&_).
    rewrite lookup_insert_ne by (intros ->; congruence).
    rewrite Ha. intros [= ->]. destruct (wf_lookup g _ _ Hwf Ha) as (?&?&_).
    congruence.
Qed.

(** ** [connect] *)

Lemma connect_Ret_inv g child_id parent_id g' :
  wf g → connect child_id parent_id g = Ret tt g' →
  g' = g ∨
  ∃ ac ap, known_ids g !! child_id = Some ac
           ∧ known_ids g !! parent_id = Some ap
           ∧ same_registry g g' ∧ linked (heap g) ac [ap] (heap g').
Proof.
  intros Hwf Hrun.
  destruct (exists_ g child_id) eqn:Hc, (exists_ g parent_id) eqn:Hp;
    try (unfold connect in Hrun; unfold bind at 1 in Hrun; simpl in Hrun;
         unfold bind at 1 in Hrun; simpl in Hrun; rewrite Hc, Hp in Hrun;
         done).
  pose proof (get_parents_pure g child_id) as Hpure.
  destruct (get_parents child_id g) as [ps g1| | | |] eqn:Hps;
    try (unfold connect in Hrun; unfold bind at 1 in Hrun; simpl in Hrun;
         unfold bind at 1 in Hrun; simpl in Hrun; rewrite Hc, Hp in Hrun;
         simpl in Hrun; unfold bind at 1 in Hrun; rewrite Hps in Hrun; done).
  simpl in Hpure. subst g1.
  destruct (decide (parent_id ∈ ps)) as [Hin|Hnin].
  - left. rewrite (connect_present g child_id parent_id ps) in Hrun by done.
    by injection Hrun.
  - right. apply exists_true in Hc as [ac Hc]. apply exists_true in Hp as [ap Hp].
    destruct (connect_absent g child_id parent_id ac ap ps)
      as (g''&Hrun'&Hsr&Hl&_); try done.
    rewrite Hrun in Hrun'. injection Hrun' as <-. eauto 10.
Qed.

Lemma connect_step g child_id parent_id g' :
  consistent g → child_id ≠ stem_id g → child_id ≠ parent_id →
  connect child_id parent_id g = Ret tt g' → consistent g'.
Proof.
  intros Hcon Hcs Hcp Hrun. pose proof (consistent_wf g Hcon) as Hwf.
  destruct (connect_Ret_inv g child_id parent_id g' Hwf Hrun)
    as [->|(ac&ap&Hc&Hp&Hsr&Hl)]; [done|].
  apply (linked_consistent g g' ac [ap]); try done.
  - exact (wf_registered g _ _ Hwf Hc).
  - constructor; [exact (wf_registered g _ _ Hwf Hp)|constructor].
  - intros Heq%list_elem_of_singleton. subst ap. apply Hcp.
    exact (wf_registry_inj g _ _ ac Hwf Hc Hp).
  - intros Hst. apply Hcs. exact (wf_registry_inj g _ _ ac Hwf Hc Hst).
Qed.

(** [connect] may make a virus its own parent, the stem virus too. *)
Lemma connect_edges g child_id parent_id g' :
  edge_consistent g → rooted g (Connect child_id parent_id) →
  connect child_id parent_id g = Ret tt g' → edge_consistent g'.
Proof.
  intros Hcon Hcs Hrun. pose proof (edge_consistent_wf g Hcon) as Hwf.
  destruct (connect_Ret_inv g child_id parent_id g' Hwf Hrun)
    as [->|(ac&ap&Hc&Hp&Hsr&Hl)]; [done|].
  apply (linked_edges g g' ac [ap]); try done.
  - exact (wf_registered g _ _ Hwf Hc).
  - constructor; [exact (wf_registered g _ _ Hwf Hp)|constructor].
  - intros Hst x ->%list_elem_of_singleton.
    assert (child_id = stem_id g) as Heq
      by exact (wf_registry_inj g _ _ ac Hwf Hc Hst).
    destruct (Hcs Heq) as [->|Hex]; [congruence|].
    apply exists_false in Hex. congruence.
Qed.

(** ** Calls *)

Lemma construct_consistent stem g :
  VirusGenealogy_new stem = Ret tt g → consistent g.
Proof.
  unfold VirusGenealogy_new, VirusGenealogy_ctor, try_catch, bind, Node_new.
  simpl. destruct (Virus_new stem) as [v|]; simpl; [|done].
  intros [= <-].
  change (consistent (allocated (mkGenealogy stem ∅ ∅ 0) stem v)).
  (* an empty store is consistent except that the stem virus is missing *)
  split_and!.
  - apply allocated_wf; [|done]. split; simpl; apply map_Forall_empty.
  - simpl. rewrite lookup_insert_eq. eauto.
  - assert (∀ a n, (<[0:=mkNode stem v [] []]> ∅ : gmap addr _) !! a = Some n →
              a = 0 ∧ n = mkNode stem v [] []) as Hone.
    { intros a n [[<- <-]|[_ ?]]%lookup_insert_Some; done. }
    unfold consistent_upto. simpl. split_and!.
    + intros a n [-> ->]%Hone _. simpl. constructor.
    + intros a na [-> ->]%Hone _ b nb [-> ->]%Hone _. done.
    + intros i a [[<- <-]|[_ ?]]%lookup_insert_Some _; [|done].
      split; [set_solver|]. by rewrite lookup_insert_eq.
    + intros a n [-> ->]%Hone _. simpl. apply not_elem_of_nil.
Qed.

Lemma call_step g (c : call) g' :
  consistent g → disciplined g c → after (run_call c g) = Some g' →
  consistent g'.
Proof.
  intros Hcon Hdis Hafter. pose proof (consistent_wf g Hcon) as Hwf.
  destruct c as [i p|i ps|child_id parent_id|i]; simpl in *.
  - rewrite create_is_create_multi in Hafter.
    pose proof (create_multi_ends g i [p]) as Hends.
    destruct (create_multi i [p] g) as [[] g1|e g1| | |] eqn:Hrun;
      simplify_eq/=.
    + by eapply create_multi_step.
    + by destruct Hends as [-> _].
  - pose proof (create_multi_ends g i ps) as Hends.
    destruct (create_multi i ps g) as [[] g1|e g1| | |] eqn:Hrun;
      simplify_eq/=.
    + by eapply create_multi_step.
    + by destruct Hends as [-> _].
  - destruct Hdis as [Hcs Hcp].
    pose proof (connect_ends g child_id parent_id) as Hends.
    destruct (connect child_id parent_id g) as [[] g1|e g1| | |] eqn:Hrun;
      simplify_eq/=.
    + by eapply connect_step.
    + by destruct Hends as [-> _].
  - destruct (remove i g) as [[] g1|e g1| | |] eqn:Hrun; simplify_eq/=.
    + destruct (decide (i = stem_id g)) as [->|Hi].
      { by rewrite remove_stem in Hrun. }
      destruct (exists_ g i) eqn:Hex.
      2:{ by rewrite remove_missing in Hrun. }
      apply exists_true in Hex as [a Ha].
      destruct (remove_consistent g i a Hcon Ha Hi) as (g2&D&Hrun'&Hc2&Hcas&_).
      by rewrite Hrun in Hrun'; injection Hrun' as <-.
    + by destruct (remove_throw_consistent g i e g' Hcon Hrun) as [-> _].
Qed.

Lemma reachable_disciplined_consistent g :
  reachable_disciplined g → consistent g.
Proof.
  induction 1 as [stem g Hnew|g c g' _ IH Hdis Hafter].
  - by eapply construct_consistent.
  - by eapply call_step.
Qed.

Lemma call_edges g (c : call) g' :
  edge_consistent g → rooted g c → after (run_call c g) = Some g' →
  edge_consistent g'.
Proof.
  intros Hcon Hroot Hafter. pose proof (edge_consistent_wf g Hcon) as Hwf.
  destruct c as [i p|i ps|child_id parent_id|i]; simpl in *.
  - rewrite create_is_create_multi in Hafter.
    pose proof (create_multi_ends g i [p]) as Hends.
    destruct (create_multi i [p] g) as [[] g1|e g1| | |] eqn:Hrun;
      simplify_eq/=.
    + by eapply create_multi_edges.
    + by destruct Hends as [-> _].
  - pose proof (create_multi_ends g i ps) as Hends.
    destruct (create_multi i ps g) as [[] g1|e g1| | |] eqn:Hrun;
      simplify_eq/=.
    + by eapply create_multi_edges.
    + by destruct Hends as [-> _].
  - pose proof (connect_ends g child_id parent_id) as Hends.
    destruct (connect child_id parent_id g) as [[] g1|e g1| | |] eqn:Hrun;
      simplify_eq/=.
    + by eapply connect_edges.
    + by destruct Hends as [-> _].
  - destruct (remove_edges g i g' Hcon Hafter)
      as [[-> _]|(a&D&_&_&_&Hcon'&_)]; done.
Qed.

Lemma reachable_rooted_edges g : reachable_rooted g → edge_consistent g.
Proof.
  induction 1 as [stem g Hnew|g c g' _ IH Hroot Hafter].
  - by eapply consistent_edge_consistent, construct_consistent.
  - by eapply call_edges.
Qed.

Lemma disciplined_rooted g (c : call) : disciplined g c → rooted g c.
Proof. destruct c; simpl; try done. by intros [? _] ?. Qed.

Lemma reachable_disciplined_rooted g :
  reachable_disciplined g → reachable_rooted g.
Proof.
  induction 1 as [stem g Hnew|g c g' _ IH Hdis Hafter].
  - by eapply rooted_new.
  - eapply rooted_call; [done| |done]. by apply disciplined_rooted.
Qed.

End steps.

(** * Reachable genealogies *)

Section reachability.
Context {id_type : Type} `{Countable id_type}.
Context {Virus : Type} `{!VirusClassType Virus id_type}.
Implicit Types (g : VirusGenealogy id_type Virus) (n : Node id_type Virus).
Implicit Types (i o : id_type) (a b : addr).

Lemma create_multi_after g i ps g' :
  wf g → is_Some (known_ids g !! stem_id g) →
  after (create_multi i ps g) = Some g' →
  wf g' ∧ stem_id g' = stem_id g ∧ is_Some (known_ids g' !! stem_id g').
Proof.
  intros Hwf Hstem Hafter.
  pose proof (create_multi_ends g i ps) as Hends.
  destruct (create_multi i ps g) as [[] g1|e g1| | |] eqn:Hrun; simplify_eq/=.
  - destruct (create_multi_Ret_inv g i ps g' Hwf Hrun)
      as [Hi [[-> ->]|(Hne&v&aps&Hv&Haps&Hsr&Hl)]]; [done|].
    pose proof Hsr as (Hs&Hk&_). split_and!.
    + eapply linked_wf; [|done..]. by apply allocated_wf.
    + by rewrite Hs.
    + rewrite Hs, Hk. simpl. destruct Hstem as [a Ha].
      destruct (decide (i = stem_id g)) as [->|?].
      * rewrite lookup_insert_eq. eauto.
      * rewrite lookup_insert_ne by done. eauto.
  - by destruct Hends as [-> _].
Qed.

Lemma call_after g (c : call) g' :
  wf g → is_Some (known_ids g !! stem_id g) →
  after (run_call c g) = Some g' →
  wf g' ∧ stem_id g' = stem_id g ∧ is_Some (known_ids g' !! stem_id g').
Proof.
  intros Hwf Hstem Hafter.
  destruct c as [i p|i ps|child_id parent_id|i]; simpl in *.
  - rewrite create_is_create_multi in Hafter.
    by eapply create_multi_after.
  - by eapply create_multi_after.
  - pose proof (connect_ends g child_id parent_id) as Hends.
    destruct (connect child_id parent_id g) as [[] g1|e g1| | |] eqn:Hrun;
      simplify_eq/=.
    + destruct (connect_Ret_inv g child_id parent_id g' Hwf Hrun)
        as [->|(ac&ap&Hc&Hp&Hsr&Hl)]; [done|].
      pose proof Hsr as (Hs&Hk&_). split_and!.
      * by eapply linked_wf.
      * done.
      * by rewrite Hs, Hk.
    + by destruct Hends as [-> _].
  - pose proof (remove_shrinks i g) as Hsh.
    assert (shrinks g g') as (Hs&_&_&Hst&_).
    { destruct (remove i g); simplify_eq/=; done. }
    split_and!.
    + eapply shrinks_wf; [|done]. destruct (remove i g); simplify_eq/=; done.
    + done.
    + by rewrite Hs, Hst.
Qed.

Lemma reachable_wf g :
  reachable g → wf g ∧ is_Some (known_ids g !! stem_id g).
Proof.
  induction 1 as [stem g Hnew|g c g' _ [IHwf IHstem] Hafter].
  - apply construct_consistent in Hnew as (?&?&_). done.
  - destruct (call_after g c g' IHwf IHstem Hafter) as (?&Hs&?). done.
Qed.

Lemma reachable_disciplined_reachable g :
  reachable_disciplined g → reachable g.
Proof.
  induction 1; [by eapply reachable_new|by eapply reachable_call].
Qed.

Lemma reachable_rooted_reachable g : reachable_rooted g → reachable g.
Proof.
  induction 1; [by eapply reachable_new|by eapply reachable_call].
Qed.

(** C2. In every genealogy a program can reach, the stem virus is
    registered, and [remove(get_stem_id())] throws
    [TriedToRemoveStemVirus] and leaves the genealogy as it was. *)
Theorem stem_virus_is_permanent g :
  reachable g →
  exists_ g (stem_id g) = true
  ∧ remove (stem_id g) g = Throw TriedToRemoveStemVirus g.
Proof.
  intros Hr. split; [|apply remove_stem].
  apply exists_true. by apply reachable_wf.
Qed.

End reachability.

(** * The order of the vectors *)

Section order.
Context {id_type : Type} `{Countable id_type}.
Context {Virus : Type} `{!VirusClassType Virus id_type}.
Implicit Types (g : VirusGenealogy id_type Virus) (n : Node id_type Virus).
Implicit Types (i o : id_type) (a b c d this : addr) (aps : list addr).
Implicit Types (ps : list id_type) (D : gset addr).
Implicit Types (log new : list (addr * addr)) (e : addr * addr).

(** ** Sequences of edges *)

Lemma parents_in_app log1 log2 c :
  parents_in (log1 ++ log2) c = parents_in log1 c ++ parents_in log2 c.
Proof. unfold parents_in. by rewrite filter_app, fmap_app. Qed.

Lemma children_in_app log1 log2 p :
  children_in (log1 ++ log2) p = children_in log1 p ++ children_in log2 p.
Proof. unfold children_in. by rewrite filter_app, fmap_app. Qed.

Lemma parents_in_cons e log c :
  parents_in (e :: log) c
  = (if decide (e.2 = c) then [e.1] else []) ++ parents_in log c.
Proof. unfold parents_in. rewrite filter_cons. by case_decide. Qed.

Lemma children_in_cons e log p :
  children_in (e :: log) p
  = (if decide (e.1 = p) then [e.2] else []) ++ children_in log p.
Proof. unfold children_in. rewrite filter_cons. by case_decide. Qed.

Lemma elem_of_parents_in log c p : p ∈ parents_in log c ↔ (p, c) ∈ log.
Proof.
  induction log as [|[p' c'] log IH]; simpl.
  { unfold parents_in. simpl. by rewrite !elem_of_nil. }
  rewrite parents_in_cons, elem_of_app, elem_of_cons, IH. simpl.
  case_decide; [rewrite list_elem_of_singleton|rewrite elem_of_nil];
    naive_solver.
Qed.

Lemma elem_of_children_in log p c : c ∈ children_in log p ↔ (p, c) ∈ log.
Proof.
  induction log as [|[p' c'] log IH]; simpl.
  { unfold children_in. simpl. by rewrite !elem_of_nil. }
  rewrite children_in_cons, elem_of_app, elem_of_cons, IH. simpl.
  case_decide; [rewrite list_elem_of_singleton|rewrite elem_of_nil];
    naive_solver.
Qed.

Lemma parents_in_nil log c : (∀ e, e ∈ log → e.2 ≠ c) → parents_in log c = [].
Proof.
  intros Hno. destruct (parents_in log c) as [|p l] eqn:Hl; [done|].
  assert (p ∈ parents_in log c) as Hin by (rewrite Hl; left).
  apply elem_of_parents_in in Hin. by destruct (Hno _ Hin).
Qed.

Lemma children_in_nil log p : (∀ e, e ∈ log → e.1 ≠ p) → children_in log p = [].
Proof.
  intros Hno. destruct (children_in log p) as [|c l] eqn:Hl; [done|].
  assert (c ∈ children_in log p) as Hin by (rewrite Hl; left).
  apply elem_of_children_in in Hin. by destruct (Hno _ Hin).
Qed.

(** The edges [add_parent] makes for the node at [this], one for every
    entry of [aps]. *)
Lemma parents_in_new this aps c :
  parents_in ((λ ap, (ap, this)) <$> aps) c
  = if decide (c = this) then aps else [].
Proof.
  induction aps as [|ap aps IH]; [by case_decide|].
  rewrite fmap_cons, parents_in_cons, IH. simpl. by repeat case_decide; subst.
Qed.

Lemma children_in_new this aps p :
  children_in ((λ ap, (ap, this)) <$> aps) p
  = replicate (occurrences p aps) this.
Proof.
  induction aps as [|ap aps IH]; [done|].
  rewrite fmap_cons, children_in_cons, IH, occurrences_cons. simpl.
  by case_decide.
Qed.

(** Taking the entries for the nodes in [D] out of a vector, and taking
    the edges of these nodes out of the sequence. *)
Lemma strip_parents_in g' D log a :
  (∀ e, e ∈ log → (registered g' e.1 ↔ e.1 ∉ D)
                  ∧ (registered g' e.2 ↔ e.2 ∉ D)) →
  a ∉ D →
  strip D (parents_in log a) = parents_in (surviving g' log) a.
Proof.
  intros Hlog Ha. induction log as [|e log IH]; [done|].
  assert (strip D (parents_in log a) = parents_in (surviving g' log) a) as IH'.
  { apply IH. intros e' He'. apply Hlog. by right. }
  destruct (Hlog e) as [H1 H2]; [left|].
  rewrite parents_in_cons, strip_app, IH'. unfold surviving at 2.
  rewrite filter_cons. fold (surviving g' log).
  destruct (decide (e.2 = a)) as [He|He].
  - rewrite strip_cons. simpl.
    destruct (decide (e.1 ∉ D)) as [HD|HD].
    + rewrite decide_True by (split; [by apply H1|apply H2; by rewrite He]).
      rewrite parents_in_cons, decide_True by done. done.
    + rewrite decide_False by (intros [? _]; by apply HD, H1). done.
  - simpl. case_decide; [|done].
    rewrite parents_in_cons, decide_False by done. done.
Qed.

Lemma strip_children_in g' D log a :
  (∀ e, e ∈ log → (registered g' e.1 ↔ e.1 ∉ D)
                  ∧ (registered g' e.2 ↔ e.2 ∉ D)) →
  a ∉ D →
  strip D (children_in log a) = children_in (surviving g' log) a.
Proof.
  intros Hlog Ha. induction log as [|e log IH]; [done|].
  assert (strip D (children_in log a) = children_in (surviving g' log) a) as IH'.
  { apply IH. intros e' He'. apply Hlog. by right. }
  destruct (Hlog e) as [H1 H2]; [left|].
  rewrite children_in_cons, strip_app, IH'. unfold surviving at 2.
  rewrite filter_cons. fold (surviving g' log).
  destruct (decide (e.1 = a)) as [He|He].
  - rewrite strip_cons. simpl.
    destruct (decide (e.2 ∉ D)) as [HD|HD].
    + rewrite decide_True by (split; [apply H1; by rewrite He|by apply H2]).
      rewrite children_in_cons, decide_True by done. done.
    + rewrite decide_False by (intros [_ ?]; by apply HD, H2). done.
  - simpl. case_decide; [|done].
    rewrite children_in_cons, decide_False by done. done.
Qed.

Lemma surviving_all g' log :
  (∀ e, e ∈ log → registered g' e.1 ∧ registered g' e.2) →
  surviving g' log = log.
Proof.
  intros Hlog. induction log as [|e log IH]; [done|].
  unfold surviving. rewrite filter_cons, decide_True by (apply Hlog; left).
  f_equal. apply IH. intros e' He'. apply Hlog. by right.
Qed.

Lemma elem_of_surviving g' log e :
  e ∈ surviving g' log ↔ (registered g' e.1 ∧ registered g' e.2) ∧ e ∈ log.
Proof. unfold surviving. by rewrite list_elem_of_filter. Qed.

(** ** The sequence of a genealogy *)

Lemma edge_log_allocated g i v log :
  wf g → known_ids g !! i = None →
  edge_log g log → edge_log (allocated g i v) log.
Proof.
  intros Hwf Hi [Hends Hnodes].
  assert (¬ registered g (next_addr g)) as Hfresh.
  { intros (n&Hn&_)%registered_iff. by rewrite (wf_fresh g Hwf) in Hn. }
  split.
  - intros e He. destruct (Hends e He) as [? ?].
    split; apply allocated_registered; auto.
  - intros a n Ha Hn. simpl in Hn.
    apply (allocated_registered g i v a Hwf Hi) in Ha as [->|Ha].
    + rewrite lookup_insert_eq in Hn. injection Hn as <-. simpl. split.
      * symmetry. apply parents_in_nil. intros e He Heq.
        destruct (Hends e He) as [_ ?]. apply Hfresh. by rewrite <-Heq.
      * symmetry. apply children_in_nil. intros e He Heq.
        destruct (Hends e He) as [? _]. apply Hfresh. by rewrite <-Heq.
    + rewrite lookup_insert_ne in Hn; [by apply Hnodes|].
      intros <-. done.
Qed.

Lemma edge_log_linked g g' this aps log :
  same_registry g g' → linked (heap g) this aps (heap g') →
  registered g this → Forall (registered g) aps →
  edge_log g log →
  edge_log g' (log ++ ((λ ap, (ap, this)) <$> aps)).
Proof.
  intros Hsr Hl Hthis Haps [Hends Hnodes]. split.
  - intros e [He|He]%elem_of_app.
    + destruct (Hends e He). split; by apply (linked_registered g g' this aps).
    + apply list_elem_of_fmap in He as (ap&->&Hap). simpl.
      split; apply (linked_registered g g' this aps); try done.
      by apply (proj1 (Forall_forall _ _) Haps).
  - intros a n' Ha Hn'. apply (linked_registered g g' this aps a Hsr Hl) in Ha.
    rewrite Hl in Hn'. destruct (heap g !! a) as [n|] eqn:Hn; simplify_eq/=.
    destruct (Hnodes a n Ha Hn) as [-> ->].
    by rewrite parents_in_app, children_in_app, parents_in_new,
      children_in_new.
Qed.

(** [remove]: the edges of the nodes that went are gone, the others are
    where they were. *)
Lemma edge_log_cascade g (roots : addr → Prop) g' D log :
  wf g → cascade g ∅ roots g' D →
  edge_log g log → edge_log g' (surviving g' log).
Proof.
  intros Hwf (Hdet&Hat&Hk&_&_) [Hends Hnodes].
  destruct Hdet as (_&_&_&Hkeep&Hheap).
  assert (∀ x, registered g' x → registered g x ∧ x ∉ D) as Hback.
  { intros x (nx'&Hnx'&Hreg)%registered_iff.
    rewrite Hk in Hreg. apply map_lookup_filter_Some in Hreg as [Hreg HxD].
    split; [|done]. by eapply wf_registered. }
  assert (∀ x, registered g x → x ∉ D → registered g' x) as Hforth.
  { intros x Hx HxD. pose proof Hx as (nx&Hnx&Hreg)%registered_iff.
    apply registered_iff. exists (stripped D nx). split.
    - apply Hheap; [by apply attached_empty|done..].
    - simpl. by apply Hkeep. }
  assert (∀ e, e ∈ log → (registered g' e.1 ↔ e.1 ∉ D)
                         ∧ (registered g' e.2 ↔ e.2 ∉ D)) as Hlog.
  { intros e He. destruct (Hends e He) as [H1 H2].
    split; (split; [by intros [_ ?]%Hback|by apply Hforth]). }
  split.
  - intros e [? _]%elem_of_surviving. done.
  - intros a n' Ha Hn'. destruct (Hback a Ha) as [Ha0 HaD].
    pose proof Ha0 as (n&Hn&_)%registered_iff.
    rewrite (Hheap a n) in Hn'; [|by apply attached_empty|done..].
    injection Hn' as <-. simpl. destruct (Hnodes a n Ha0 Hn) as [-> ->].
    split; [by apply strip_parents_in|by apply strip_children_in].
Qed.

(** ** [connect] makes an edge that was not there *)

Lemma connect_Ret_new g child_id parent_id g' :
  wf g → connect child_id parent_id g = Ret tt g' →
  g' = g ∨
  ∃ ac ap nc, known_ids g !! child_id = Some ac
              ∧ known_ids g !! parent_id = Some ap
              ∧ heap g !! ac = Some nc ∧ ap ∉ parents nc
              ∧ same_registry g g' ∧ linked (heap g) ac [ap] (heap g').
Proof.
  intros Hwf Hrun.
  destruct (connect_Ret_inv g child_id parent_id g' Hwf Hrun)
    as [->|(ac&ap&Hc&Hp&Hsr&Hl)]; [by left|].
  destruct (wf_lookup g _ _ Hwf Hc) as (nc&Hnc&_).
  destruct (decide (ap ∈ parents nc)) as [Hin|Hnin]; [left|right; eauto 10].
  pose proof (get_parents_pure g child_id) as Hpure.
  assert (∃ ps, get_parents child_id g = Ret ps g) as [ps Hps].
  { destruct (get_parents child_id g) as [ps g1| | | |] eqn:Hps;
      try (exfalso; revert Hrun; unfold connect; unfold bind at 1; simpl;
           unfold bind at 1; simpl;
           replace (exists_ g child_id) with true
             by (symmetry; apply exists_true; eauto);
           replace (exists_ g parent_id) with true
             by (symmetry; apply exists_true; eauto);
           simpl; unfold bind at 1; rewrite Hps; done).
    simpl in Hpure. subst g1. eauto. }
  assert (parent_id ∈ ps) as Hpin.
  { rewrite (get_parents_eq g child_id ac nc Hc Hnc) in Hps.
    apply lock_ids_eq in Hps.
    apply list_elem_of_lookup in Hin as [k Hk].
    destruct (Forall2_lookup_l _ _ _ k ap Hps Hk) as (id&Hid&Hnode).
    destruct (wf_lookup g _ _ Hwf Hp) as (np&Hnp&Hidp).
    rewrite Hnp in Hnode. simpl in Hnode. injection Hnode as <-.
    rewrite <-Hidp. by eapply list_elem_of_lookup_2. }
  rewrite (connect_present g child_id parent_id ps) in Hrun;
    [by injection Hrun|apply exists_true; eauto..|done|done].
Qed.

(** ** Calls *)

Lemma edge_log_registered g log e :
  edge_log g log → e ∈ log → registered g e.1 ∧ registered g e.2.
Proof. intros [Hends _]. apply Hends. Qed.

Lemma create_multi_log g i ps g' log :
  wf g → create_multi i ps g = Ret tt g' → edge_log g log →
  ∃ new, edge_log g' (log ++ new) ∧ (∀ e, e ∈ new → e ∉ log)
         ∧ surviving g' (log ++ new) = log ++ new.
Proof.
  intros Hwf Hrun Hlog.
  destruct (create_multi_Ret_inv g i ps g' Hwf Hrun)
    as [Hi [[-> ->]|(Hne&v&aps&Hv&Haps&Hsr&Hl)]].
  { exists []. rewrite app_nil_r. split_and!; [done|by intros ? ?%elem_of_nil|].
    apply surviving_all. by intros e; apply edge_log_registered. }
  assert (Forall (registered (allocated g i v)) aps) as Hreg.
  { clear -Haps Hwf Hi. induction Haps as [|p ap ps aps Hp _ IH];
      constructor; [|done].
    apply allocated_registered; [done..|]. right. by eapply wf_registered. }
  assert (registered (allocated g i v) (next_addr g)) as Hthis
    by (apply allocated_registered; auto).
  assert (edge_log g' (log ++ ((λ ap, (ap, next_addr g)) <$> aps))) as Hlog'.
  { apply (edge_log_linked (allocated g i v) g' (next_addr g) aps); try done.
    by apply edge_log_allocated. }
  eexists. split_and!; [exact Hlog'| |].
  - intros e (ap&->&_)%list_elem_of_fmap Hin.
    destruct (edge_log_registered g log _ Hlog Hin) as [_ Hr]. simpl in Hr.
    apply registered_iff in Hr as (n&Hn&_).
    by rewrite (wf_fresh g Hwf) in Hn.
  - apply surviving_all. by intros e; apply edge_log_registered.
Qed.

Lemma connect_log g child_id parent_id g' log :
  wf g → connect child_id parent_id g = Ret tt g' → edge_log g log →
  ∃ new, edge_log g' (log ++ new) ∧ (∀ e, e ∈ new → e ∉ log)
         ∧ surviving g' (log ++ new) = log ++ new.
Proof.
  intros Hwf Hrun Hlog.
  destruct (connect_Ret_new g child_id parent_id g' Hwf Hrun)
    as [->|(ac&ap&nc&Hc&Hp&Hnc&Hnin&Hsr&Hl)].
  { exists []. rewrite app_nil_r. split_and!; [done|by intros ? ?%elem_of_nil|].
    apply surviving_all. by intros e; apply edge_log_registered. }
  assert (edge_log g' (log ++ ((λ ap, (ap, ac)) <$> [ap]))) as Hlog'.
  { apply (edge_log_linked g g' ac [ap]); try done.
    - by eapply wf_registered.
    - constructor; [by eapply wf_registered|constructor]. }
  eexists. split_and!; [exact Hlog'| |].
  - simpl. intros e ->%list_elem_of_singleton Hin. apply Hnin.
    destruct Hlog as [_ Hnodes].
    destruct (Hnodes ac nc) as [-> _]; [by eapply wf_registered|done|].
    by apply elem_of_parents_in.
  - apply surviving_all. by intros e; apply edge_log_registered.
Qed.

(** What a call does to the sequence: [remove] takes the edges of the
    nodes that went out of it and adds none, [create] and [connect] take
    none out and put theirs at the end. *)
Lemma call_log g (c : call) g' log :
  edge_consistent g → after (run_call c g) = Some g' →
  edge_log g log →
  ∃ new, edge_log g' (surviving g' log ++ new)
         ∧ (∀ e, e ∈ new → e ∉ log)
         ∧ (∀ i, c = Remove i → new = [])
         ∧ ((∀ i, c ≠ Remove i) → surviving g' log = log).
Proof.
  intros Hcon Hafter Hlog. pose proof (edge_consistent_wf g Hcon) as Hwf.
  assert (surviving g log = log) as Hsame.
  { apply surviving_all. by intros e; apply edge_log_registered. }
  assert (∀ new, edge_log g' (log ++ new) → surviving g' log = log) as Hall.
  { intros new Hlog'. apply surviving_all. intros e He.
    apply (edge_log_registered g' (log ++ new) e Hlog').
    apply elem_of_app. by left. }
  assert (∀ (m : M id_type Virus unit),
    (∀ g1, m g = Ret tt g1 →
       ∃ new, edge_log g1 (log ++ new) ∧ (∀ e, e ∈ new → e ∉ log)
              ∧ surviving g1 (log ++ new) = log ++ new) →
    (∀ (ex : exn) g1, m g = Throw ex g1 → g1 = g) →
    (∀ i, c ≠ Remove i) →
    after (m g) = Some g' →
    ∃ new, edge_log g' (surviving g' log ++ new)
           ∧ (∀ e, e ∈ new → e ∉ log)
           ∧ (∀ i, c = Remove i → new = [])
           ∧ ((∀ i, c ≠ Remove i) → surviving g' log = log)) as Hadd.
  { intros m Hret Hthrow Hc Hm.
    destruct (m g) as [[] g1|e g1| | |] eqn:Hrun; simplify_eq/=.
    - destruct (Hret g' eq_refl) as (new&Hlog'&Hnew&_).
      exists new. rewrite (Hall new Hlog'). split_and!; try done.
      intros i ->. by destruct (Hc i).
    - rewrite (Hthrow e g' eq_refl). exists []. rewrite Hsame, app_nil_r.
      split_and!; try done. by intros ? ?%elem_of_nil. }
  destruct c as [i p|i ps|child_id parent_id|i]; simpl in *.
  - apply (Hadd (create i p)); try done.
    + intros g1. rewrite create_is_create_multi. intros Hrun.
      by eapply create_multi_log.
    + intros e g1. rewrite create_is_create_multi. intros Hrun.
      pose proof (create_multi_ends g i [p]) as Hends.
      rewrite Hrun in Hends. by destruct Hends.
  - apply (Hadd (create_multi i ps)); try done.
    + intros g1 Hrun. by eapply create_multi_log.
    + intros e g1 Hrun. pose proof (create_multi_ends g i ps) as Hends.
      rewrite Hrun in Hends. by destruct Hends.
  - apply (Hadd (connect child_id parent_id)); try done.
    + intros g1 Hrun. by eapply connect_log.
    + intros e g1 Hrun.
      pose proof (connect_ends g child_id parent_id) as Hends.
      rewrite Hrun in Hends. by destruct Hends.
  - exists []. rewrite app_nil_r.
    split_and!; [|by intros ? ?%elem_of_nil|done|intros Hc; by destruct (Hc i)].
    destruct (remove_edges g i g' Hcon Hafter)
      as [[-> _]|(a&D&_&_&_&_&Hcas&_)]; [by rewrite Hsame|].
    by eapply edge_log_cascade.
Qed.

(** The constructor leaves the genealogy of the stem virus alone. *)
Lemma construct_inv stem g :
  VirusGenealogy_new stem = Ret tt g →
  ∃ v, Virus_new stem = Some v ∧ g = allocated (mkGenealogy stem ∅ ∅ 0) stem v.
Proof.
  unfold VirusGenealogy_new, VirusGenealogy_ctor, try_catch, bind, Node_new.
  simpl. destruct (Virus_new stem) as [v|]; simpl; [|done].
  intros [= <-]. by exists v.
Qed.

Lemma empty_wf (stem : id_type) :
  wf (mkGenealogy stem ∅ ∅ 0 : VirusGenealogy id_type Virus).
Proof. split; simpl; apply map_Forall_empty. Qed.

Lemma construct_log stem g :
  VirusGenealogy_new stem = Ret tt g → edge_log g [].
Proof.
  intros (v&Hv&->)%construct_inv.
  apply edge_log_allocated; [apply empty_wf|done|].
  split; [by intros ? ?%elem_of_nil|]. by intros a n _ Hn.
Qed.

Lemma reachable_rooted_log g :
  reachable_rooted g → ∃ log, edge_log g log.
Proof.
  induction 1 as [stem g Hnew|g c g' Hr [log IH] Hroot Hafter].
  - exists []. by eapply construct_log.
  - pose proof (reachable_rooted_edges g Hr) as Hcon.
    destruct (call_log g c g' log Hcon Hafter IH) as (new&?&_). eauto.
Qed.

End order.

(** * The contract of the mutating calls *)

Section contract.
Context {id_type : Type} `{Countable id_type}.
Context {Virus : Type} `{!VirusClassType Virus id_type}.
Implicit Types (g : VirusGenealogy id_type Virus) (n : Node id_type Virus).
Implicit Types (i o : id_type) (a b d : addr) (aps : list addr).
Implicit Types (ps : list id_type) (D : gset addr).

Lemma not_nil_elem (l : list addr) : l ≠ [] → ∃ x, x ∈ l.
Proof. destruct l as [|x l]; [done|]. exists x. left. Qed.

(** [remove] on a consistent genealogy, in terms of registered nodes:
    the set [D] of nodes that go is the cascade of the node asked for,
    that node and, step by step, the nodes all of whose parents go, and
    nothing else; the registry loses exactly the entries of [D]; a node
    that stays loses the entries for [D] from both vectors and nothing
    else; a node of [D] other than the one asked for had parents, all of
    them in [D]; a node that stays and had parents still has one; and a
    node with a parent that stays, stays. *)
Lemma remove_cascade_spec g i a :
  consistent g → known_ids g !! i = Some a → i ≠ stem_id g →
  ∃ g' D,
    remove i g = Ret tt g' ∧ consistent g'
    ∧ (∀ d, d ∈ D ↔ goes_with g a d)
    ∧ a ∈ D ∧ (∀ d, d ∈ D → registered g d)
    ∧ exists_ g' i = false
    ∧ (∀ j b, known_ids g' !! j = Some b ↔ known_ids g !! j = Some b ∧ b ∉ D)
    ∧ (∀ b n, registered g b → b ∉ D → heap g !! b = Some n →
         heap g' !! b = Some (stripped D n))
    ∧ (∀ d n, d ∈ D → d ≠ a → heap g !! d = Some n →
         parents n ≠ [] ∧ ∀ p, p ∈ parents n → p ∈ D)
    ∧ (∀ b n, registered g b → b ∉ D → heap g !! b = Some n →
         parents n ≠ [] → ∃ p, p ∈ parents n ∧ p ∉ D)
    ∧ (∀ j b n, known_ids g !! j = Some b → b ≠ a → heap g !! b = Some n →
         (∃ p, p ∈ parents n ∧ ¬ goes_with g a p) →
         known_ids g' !! j = Some b).
Proof.
  intros Hcon Hi Histem.
  destruct (remove_consistent g i a Hcon Hi Histem)
    as (g'&D&Hrun&Hcon'&Hcas&HaD).
  pose proof Hcas as (Hdet&Hat&Hk&Ho&Hl).
  assert (∀ d, d ∈ D ↔ goes_with g a d) as HD.
  { intros d. rewrite <-falls_goes_with. split; [apply Ho|].
    apply (cascade_takes_all g ∅ _ g' D d Hcas). by intros x ->. }
  assert (∀ d n, d ∈ D → d ≠ a → heap g !! d = Some n →
            parents n ≠ [] ∧ ∀ p, p ∈ parents n → p ∈ D) as Hwhy.
  { intros d n Hd Hda Hn. apply HD in Hd.
    destruct Hd as [|d nd _ Hnd Hne Hall]; [done|]. simplify_eq.
    split; [done|]. intros p Hp. by apply HD, Hall. }
  exists g', D. split_and!; try done.
  - intros d Hd. by apply attached_empty, Hat.
  - apply exists_false. rewrite Hk. apply map_lookup_filter_None. right.
    intros b Hb. simplify_eq. simpl. by intros ?.
  - intros j b. rewrite Hk. apply map_lookup_filter_Some.
  - intros b n Hb HbD Hn. destruct Hdet as (_&_&_&_&Hheap).
    apply Hheap; [by apply attached_empty|done..].
  - intros b n Hb HbD Hn Hne.
    destruct (not_nil_elem (strip D (parents n))) as [p Hp].
    { apply (Hl b n); [by apply attached_empty|done..]. }
    apply elem_of_strip in Hp as [? ?]. eauto.
  - intros j b n Hj Hba Hn (p&Hp&Hstay). rewrite Hk.
    apply map_lookup_filter_Some. split; [done|]. simpl. intros HbD.
    destruct (Hwhy b n HbD Hba Hn) as [_ Hall]. by apply Hstay, HD, Hall.
Qed.

(** C3, as the code has it.  A call of [create] (either overload) or
    [connect] that throws leaves the genealogy exactly as it was; so
    does a call of [remove] that throws on a consistent genealogy, where
    it can only throw from the two checks of its argument; and a payload
    constructor that throws makes [create] throw with the genealogy
    unchanged, hence with the identifier unregistered and no edge
    added. *)
Theorem failed_call_leaves_genealogy :
  (∀ g i parent_id e g', create i parent_id g = Throw e g' → g' = g)
  ∧ (∀ g i ps e g', create_multi i ps g = Throw e g' → g' = g)
  ∧ (∀ g child_id parent_id e g',
       connect child_id parent_id g = Throw e g' → g' = g)
  ∧ (∀ g i e g', consistent g → remove i g = Throw e g' → g' = g)
  ∧ (∀ g i e g', i = stem_id g ∨ exists_ g i = false →
       remove i g = Throw e g' → g' = g)
  ∧ (∀ g i parent_id,
       exists_ g i = false → exists_ g parent_id = true →
       Virus_new i = None →
       create i parent_id g = Throw PayloadFailure g)
  ∧ (∀ g i ps,
       exists_ g i = false → exists_all g ps = true → ps ≠ [] →
       Virus_new i = None →
       create_multi i ps g = Throw PayloadFailure g).
Proof.
  assert (∀ g i ps e g', create_multi i ps g = Throw e g' → g' = g) as Hmulti.
  { intros g i ps e g' Hrun. pose proof (create_multi_ends g i ps) as Hends.
    rewrite Hrun in Hends. by destruct Hends. }
  assert (∀ g i ps,
       exists_ g i = false → exists_all g ps = true → ps ≠ [] →
       Virus_new i = None →
       create_multi i ps g = Throw PayloadFailure g) as Hpayload.
  { intros g i ps Hi Hall Hne Hv. unfold create_multi.
    unfold bind at 1. simpl. rewrite Hi. unfold bind at 1. simpl.
    rewrite Hall. simpl. destruct ps as [|p ps]; [done|].
    unfold try_catch, bind at 1, Node_new. rewrite Hv.
    unfold map_erase. apply exists_false in Hi. by rewrite Hi. }
  split_and!.
  - intros g i p e g'. rewrite create_is_create_multi. apply Hmulti.
  - done.
  - intros g c p e g' Hrun. pose proof (connect_ends g c p) as Hends.
    rewrite Hrun in Hends. by destruct Hends.
  - intros g i e g' Hcon Hrun.
    by destruct (remove_throw_consistent g i e g' Hcon Hrun).
  - intros g i e g' Hi Hrun. destruct (decide (i = stem_id g)) as [->|Hne].
    + rewrite remove_stem in Hrun. by injection Hrun.
    + destruct Hi as [?|Hex]; [done|].
      rewrite remove_missing in Hrun by done. by injection Hrun.
  - intros g i p Hi Hp Hv. rewrite create_is_create_multi.
    apply Hpayload; try done. simpl. by rewrite Hp.
  - done.
Qed.

(** C4.  [create(id, parent_ids)] for a new identifier: when some
    identifier of [parent_ids] is not registered it throws
    [VirusNotFound] and the genealogy is untouched, no node having been
    made; when it returns for a non-empty [parent_ids], the new node has
    the listed parents in the listed order, duplicates included, every
    node has gained one entry for the new node at the end of its children
    per occurrence in [parent_ids], and [get_parents(id)] returns
    [parent_ids] as given. *)
Theorem create_multi_links_in_order g i ps :
  wf g →
  (exists_ g i = false → exists_all g ps = false →
     create_multi i ps g = Throw VirusNotFound g)
  ∧ (∀ g', create_multi i ps g = Ret tt g' → ps ≠ [] →
       ∃ v aps,
         Virus_new i = Some v
         ∧ Forall2 (λ p ap, known_ids g !! p = Some ap) ps aps
         ∧ stem_id g' = stem_id g
         ∧ known_ids g' = <[i := next_addr g]> (known_ids g)
         ∧ heap g' !! next_addr g = Some (mkNode i v aps [])
         ∧ (∀ b n, heap g !! b = Some n →
              heap g' !! b =
                Some (set_children
                        (children n ++ replicate (occurrences b aps) (next_addr g))
                        n))
         ∧ get_parents i g' = Ret ps g').
Proof.
  intros Hwf. split.
  { intros Hi Hall. unfold create_multi. unfold bind at 1. simpl. rewrite Hi.
    unfold bind at 1. simpl. by rewrite Hall. }
  intros g' Hrun Hne.
  destruct (create_multi_Ret_inv g i ps g' Hwf Hrun)
    as [Hi [[-> _]|(_&v&aps&Hv&Haps&Hsr&Hl)]]; [done|].
  pose proof (wf_fresh g Hwf) as Hfresh. pose proof Hsr as (Hs&Hk&_).
  assert (∀ ap, ap ∈ aps → is_Some (heap g !! ap)) as Halive.
  { intros ap Hap. clear -Haps Hap Hwf.
    induction Haps as [|p ap' ps aps Hp _ IH]; [by apply elem_of_nil in Hap|].
    apply elem_of_cons in Hap as [->|?]; [|auto].
    destruct (wf_lookup g _ _ Hwf Hp) as (?&->&_). eauto. }
  assert (occurrences (next_addr g) aps = 0) as Hocc.
  { apply occurrences_zero. intros [? ?]%Halive. congruence. }
  assert (heap g' !! next_addr g = Some (mkNode i v aps [])) as Hnew.
  { rewrite Hl. simpl. rewrite lookup_insert_eq. simpl. unfold extended. simpl.
    by rewrite decide_True, Hocc by done. }
  exists v, aps. split_and!; try done.
  - intros b n Hb. rewrite Hl. simpl.
    assert (b ≠ next_addr g) by (intros ->; congruence).
    rewrite lookup_insert_ne, Hb by done. simpl. f_equal. unfold extended.
    rewrite decide_False by done. destruct n. simpl. by rewrite app_nil_r.
  - rewrite (get_parents_eq g' i (next_addr g) (mkNode i v aps []));
      [|by rewrite Hk; simpl; rewrite lookup_insert_eq|done].
    apply lock_ids_eq. simpl. apply Forall2_flip.
    eapply Forall2_impl; [exact Haps|]. simpl. intros p ap Hp.
    rewrite (linked_node_id _ _ _ _ _ Hl). simpl.
    destruct (wf_lookup g _ _ Hwf Hp) as (n&Hn&Hid).
    assert (ap ≠ next_addr g) by (intros ->; congruence).
    rewrite lookup_insert_ne, Hn by done. simpl. by rewrite Hid.
Qed.


(** C7, as the code has it.  In every genealogy reached by calls that
    never make another virus a parent of the stem virus (a virus may be
    made its own parent), [P] occurs in the parents of [C] exactly as
    often as [C] occurs in the children of [P] (so the one holds an
    entry for the other if and only if the other does), for all
    registered [P] and [C], and parents and children of registered nodes
    are registered.  The vectors are in the order in which the edges
    were made: there is one sequence of edges of which the [parents]
    vector of every registered node holds the parents of the edges to
    that node and the [children] vector the children of the edges from
    it, both in the order of the sequence; and every such call that
    leaves a genealogy behind leads to such a genealogy again, whose
    sequence is the old one without the edges of the nodes that are no
    longer registered, the others in their order, followed by the edges
    the call has made, none of which was there before; [remove] makes no
    edge, and [create] and [connect] take none out. *)
Theorem edge_consistency g :
  reachable_rooted g →
  (∀ a b na nb,
     registered g a → registered g b →
     heap g !! a = Some na → heap g !! b = Some nb →
     occurrences b (children na) = occurrences a (parents nb)
     ∧ (a ∈ parents nb ↔ b ∈ children na))
  ∧ (∀ a na x,
       registered g a → heap g !! a = Some na →
       x ∈ parents na ∨ x ∈ children na → registered g x)
  ∧ (∃ log, edge_log g log)
  ∧ (∀ (c : call) g' log,
       rooted g c → after (run_call c g) = Some g' → edge_log g log →
       reachable_rooted g'
       ∧ ∃ new, edge_log g' (surviving g' log ++ new)
                ∧ (∀ e, e ∈ new → e ∉ log)
                ∧ (∀ i, c = Remove i → new = [])
                ∧ ((∀ i, c ≠ Remove i) → surviving g' log = log)).
Proof.
  intros Hr. pose proof (reachable_rooted_edges g Hr) as Hcon.
  pose proof Hcon as (Hwf&_&Hcu). split_and!.
  - intros a b na nb Ha Hb Hna Hnb.
    assert (occurrences b (children na) = occurrences a (parents nb)) as Heq.
    { apply (eu_edges g ∅ a b); try done; by apply attached_empty. }
    split; [done|]. by rewrite <-!occurrences_pos, Heq.
  - intros a na x Ha Hna Hx. apply attached_empty.
    apply (eu_closed g ∅ a na x); try done.
  - by apply reachable_rooted_log.
  - intros c g' log Hroot Hafter Hlog. split; [by eapply rooted_call|].
    by eapply call_log.
Qed.

End contract.

(** * The children iterator *)

Section iterators.
Context {id_type : Type} `{Countable id_type}.
Context {Virus : Type} `{!VirusClassType Virus id_type}.
Implicit Types (g : VirusGenealogy id_type Virus) (n : Node id_type Virus).
Implicit Types (i : id_type) (a : addr).


Lemma get_children_begin_childless g i a n :
  known_ids g !! i = Some a → heap g !! a = Some n → children n = [] →
  get_children_begin i g = Undefined.
Proof.
  intros Hi Hn Hc. unfold get_children_begin. unfold bind at 1. simpl.
  replace (exists_ g i) with true by (symmetry; apply exists_true; eauto).
  simpl. rewrite (bind_Ret _ _ _ _ _ (map_at_eq _ _ _ Hi)).
  unfold Node_begin. rewrite (bind_Ret _ _ _ _ _ (deref_eq _ _ _ Hn)).
  by rewrite Hc.
Qed.

Lemma get_children_begin_first g i a n c cs :
  known_ids g !! i = Some a → heap g !! a = Some n → children n = c :: cs →
  get_children_begin i g = Ret (mkIter a 0) g.
Proof.
  intros Hi Hn Hc. unfold get_children_begin. unfold bind at 1. simpl.
  replace (exists_ g i) with true by (symmetry; apply exists_true; eauto).
  simpl. rewrite (bind_Ret _ _ _ _ _ (map_at_eq _ _ _ Hi)).
  unfold Node_begin. rewrite (bind_Ret _ _ _ _ _ (deref_eq _ _ _ Hn)).
  by rewrite Hc.
Qed.

(** Dereferencing an iterator that points at the [j]-th child reads that
    child's payload and changes nothing. *)
Lemma iter_deref_child g a n j c nc :
  heap g !! a = Some n → children n !! j = Some c → heap g !! c = Some nc →
  iter_deref (mkIter a j) g = Ret (virus nc) g.
Proof.
  intros Hn Hj Hc. unfold iter_deref. simpl.
  rewrite (bind_Ret _ _ _ _ _ (deref_eq _ _ _ Hn)). rewrite Hj.
  unfold Node_get_virus. by rewrite (bind_Ret _ _ _ _ _ (deref_eq _ _ _ Hc)).
Qed.


End iterators.

(** * The scenarios of the specification *)

Ltac by_computation := vm_compute; reflexivity.
Ltac by_decision := apply (bool_decide_unpack _); vm_compute; exact I.

Lemma lineage_S_ret : lineage_S = Ret tt genealogy_S.
Proof. by_computation. Qed.

Lemma lineage_SAB_ret : lineage_SAB = Ret tt genealogy_SAB.
Proof. by_computation. Qed.

Lemma lineage_cycle_ret : lineage_cycle = Ret tt genealogy_cycle.
Proof. by_computation. Qed.

Lemma genealogy_own_reachable : reachable_rooted genealogy_own.
Proof.
  apply (rooted_call
           (genealogy_of (and_then (and_then lineage_S (create "A" "S"))
                                   (connect "A" "A")))
           (Connect "S" "S")); [|by left|by_computation].
  apply (rooted_call genealogy_SA (Connect "A" "A")); [|done|by_computation].
  apply (rooted_call genealogy_S (Create "A" "S")); [|done|by_computation].
  apply (rooted_new "S"). by_computation.
Qed.

(** A virus that is left with itself as its only parent cannot be
    removed: the call gets to [parents.erase(parents.end())]. *)
Lemma remove_self_orphan_undefined :
  lineage_self_orphan = Ret tt genealogy_self_orphan
  ∧ exists_ genealogy_self_orphan "X" = true
  ∧ get_parents "X" genealogy_self_orphan = Ret ["X"] genealogy_self_orphan
  ∧ bool_decide (edge_consistent genealogy_self_orphan) = true
  ∧ remove "X" genealogy_self_orphan = Undefined.
Proof. split_and!; by_computation. Qed.

Lemma genealogy_cycle_reachable : reachable genealogy_cycle.
Proof.
  apply (reachable_call genealogy_SA (Connect "S" "A")); [|by_computation].
  apply (reachable_call genealogy_S (Create "A" "S")); [|by_computation].
  apply (reachable_new "S"). by_computation.
Qed.

(** C1, as the code has it.  On a consistent genealogy (no virus its own
    parent, the stem virus nobody's child), [remove(id)] of a registered
    virus other than the stem virus returns.  The nodes that go with it
    are exactly those of its cascade: the node itself and, step by step,
    every registered node that has parents all of which go; the registry
    entries of these nodes and no others are erased.  A node that stays
    loses the entries for the nodes that went from its parents and its
    children and nothing else, so a node with a parent that stays, stays.
    After root ["S"], [create("A", "S")], [create("B", {"A"})],
    [connect("B", "S")], the parents of ["B"] are ["A"], ["S"], and
    [remove("A")] leaves ["B"] registered and ["A"] not. *)
Theorem remove_cascades :
  (∀ (id_type : Type) (EqD : EqDecision id_type) (Cnt : Countable id_type)
     (Virus : Type) (VC : VirusClassType Virus id_type)
     (g : VirusGenealogy id_type Virus) (i : id_type) (a : addr),
     consistent g → known_ids g !! i = Some a → i ≠ stem_id g →
     ∃ g' (D : gset addr),
       remove i g = Ret tt g' ∧ consistent g'
       ∧ (∀ d, d ∈ D ↔ goes_with g a d)
       ∧ a ∈ D ∧ (∀ d, d ∈ D → registered g d)
       ∧ exists_ g' i = false
       ∧ (∀ j b, known_ids g' !! j = Some b ↔
                 known_ids g !! j = Some b ∧ b ∉ D)
       ∧ (∀ b n, registered g b → b ∉ D → heap g !! b = Some n →
            heap g' !! b = Some (stripped D n))
       ∧ (∀ d n, d ∈ D → d ≠ a → heap g !! d = Some n →
            parents n ≠ [] ∧ ∀ p, p ∈ parents n → p ∈ D)
       ∧ (∀ b n, registered g b → b ∉ D → heap g !! b = Some n →
            parents n ≠ [] → ∃ p, p ∈ parents n ∧ p ∉ D)
       ∧ (∀ j b n, known_ids g !! j = Some b → b ≠ a →
            heap g !! b = Some n →
            (∃ p, p ∈ parents n ∧ ¬ goes_with g a p) →
            known_ids g' !! j = Some b))
  ∧ (∃ g, lineage_SAB = Ret tt g
          ∧ get_parents "B" g = Ret ["A"; "S"] g
          ∧ ∃ g', remove "A" g = Ret tt g'
                  ∧ exists_ g' "B" = true ∧ exists_ g' "A" = false).
Proof.
  split.
  - intros. by apply remove_cascade_spec.
  - exists genealogy_SAB. split_and!; [by_computation..|].
    exists (genealogy_of (remove "A" genealogy_SAB)).
    split_and!; by_computation.
Qed.

(** The theorem at the genealogy of the scenario. *)
Lemma remove_cascades_witness :
  consistent genealogy_SAB
  ∧ known_ids genealogy_SAB !! "A" = Some 1
  ∧ "A" ≠ stem_id genealogy_SAB
  ∧ ∃ g' (D : gset addr),
      remove "A" genealogy_SAB = Ret tt g' ∧ consistent g'
      ∧ (∀ d, d ∈ D ↔ goes_with genealogy_SAB 1 d)
      ∧ 1 ∈ D ∧ (∀ d, d ∈ D → registered genealogy_SAB d)
      ∧ exists_ g' "A" = false
      ∧ (∀ j b, known_ids g' !! j = Some b ↔
                known_ids genealogy_SAB !! j = Some b ∧ b ∉ D)
      ∧ (∀ b n, registered genealogy_SAB b → b ∉ D →
           heap genealogy_SAB !! b = Some n →
           heap g' !! b = Some (stripped D n))
      ∧ (∀ d n, d ∈ D → d ≠ 1 → heap genealogy_SAB !! d = Some n →
           parents n ≠ [] ∧ ∀ p, p ∈ parents n → p ∈ D)
      ∧ (∀ b n, registered genealogy_SAB b → b ∉ D →
           heap genealogy_SAB !! b = Some n →
           parents n ≠ [] → ∃ p, p ∈ parents n ∧ p ∉ D)
      ∧ (∀ j b n, known_ids genealogy_SAB !! j = Some b → b ≠ 1 →
           heap genealogy_SAB !! b = Some n →
           (∃ p, p ∈ parents n ∧ ¬ goes_with genealogy_SAB 1 p) →
           known_ids g' !! j = Some b).
Proof.
  assert (consistent genealogy_SAB) as Hcon by by_decision.
  assert (known_ids genealogy_SAB !! "A" = Some 1) as HA by by_computation.
  assert ("A" ≠ stem_id genealogy_SAB) as Hne by (by vm_compute).
  split_and!; [done..|].
  exact (proj1 remove_cascades _ _ _ _ _ genealogy_SAB "A" 1 Hcon HA Hne).
Defined.

(** A cycle away from the stem virus stays: ["B"] has the parents ["A"]
    and ["C"], ["C"] has the parent ["B"], and [remove("A")] removes
    ["A"] alone, as the cascade of ["A"] is the least set closed under
    its rule. *)
Lemma remove_keeps_cycle_off_stem :
  lineage_loop = Ret tt genealogy_loop
  ∧ bool_decide (consistent genealogy_loop) = true
  ∧ get_parents "B" genealogy_loop = Ret ["A"; "C"] genealogy_loop
  ∧ get_parents "C" genealogy_loop = Ret ["B"] genealogy_loop
  ∧ ∃ g', remove "A" genealogy_loop = Ret tt g'
          ∧ exists_ g' "A" = false
          ∧ exists_ g' "B" = true ∧ exists_ g' "C" = true
          ∧ bool_decide (consistent g') = true.
Proof.
  split_and!; [by_computation..|].
  exists (genealogy_of (remove "A" genealogy_loop)).
  split_and!; by_computation.
Qed.

(** C1 fails as stated: once [connect("S", "A")] has made the stem virus
    a child of ["A"], [remove("A")] throws [TriedToRemoveStemVirus] from
    inside the cascade and ["A"], registered and not the stem virus,
    stays registered. *)
Lemma remove_keeps_node_on_cycle_through_stem :
  reachable genealogy_cycle
  ∧ exists_ genealogy_cycle "A" = true
  ∧ "A" ≠ stem_id genealogy_cycle
  ∧ ∃ g', remove "A" genealogy_cycle = Throw TriedToRemoveStemVirus g'
          ∧ exists_ g' "A" = true.
Proof.
  split_and!; [apply genealogy_cycle_reachable|by_computation|by vm_compute|].
  exists (genealogy_of (remove "A" genealogy_cycle)). split; by_computation.
Qed.

(** The stem virus is still there after [connect("S", "A")]. *)
Lemma stem_virus_is_permanent_witness :
  reachable genealogy_cycle
  ∧ exists_ genealogy_cycle (stem_id genealogy_cycle) = true
  ∧ remove (stem_id genealogy_cycle) genealogy_cycle
    = Throw TriedToRemoveStemVirus genealogy_cycle.
Proof.
  split; [apply genealogy_cycle_reachable|].
  exact (stem_virus_is_permanent genealogy_cycle genealogy_cycle_reachable).
Defined.

(** C3 fails as stated: on the same genealogy [remove("A")] throws after
    it has emptied the parents of ["S"] and the children of ["S"]. *)
Lemma remove_throws_after_changing_genealogy :
  reachable genealogy_cycle
  ∧ ∃ g', remove "A" genealogy_cycle = Throw TriedToRemoveStemVirus g'
          ∧ parents_of genealogy_cycle "S" = [1]
          ∧ parents_of g' "S" = []
          ∧ g' ≠ genealogy_cycle.
Proof.
  split; [apply genealogy_cycle_reachable|].
  exists (genealogy_of (remove "A" genealogy_cycle)).
  split_and!; [by_computation..|].
  intros Heq. apply (f_equal (λ g, parents_of g "S")) in Heq.
  vm_compute in Heq. discriminate.
Qed.

(** [remove("Z")] on the genealogy of the scenario: [VirusNotFound], and
    nothing has changed. *)
Lemma failed_call_leaves_genealogy_witness :
  consistent genealogy_SAB
  ∧ remove "Z" genealogy_SAB = Throw VirusNotFound genealogy_SAB.
Proof.
  assert (consistent genealogy_SAB) as Hcon by by_decision.
  split; [done|].
  assert (remove "Z" genealogy_SAB
          = Throw VirusNotFound (genealogy_of (remove "Z" genealogy_SAB)))
    as Hrun by by_computation.
  destruct (failed_call_leaves_genealogy (id_type:=string) (Virus:=SimpleVirus))
    as (_&_&_&Hremove&_).
  rewrite Hrun.
  exact (f_equal (Throw VirusNotFound)
           (Hremove genealogy_SAB "Z" VirusNotFound _ Hcon Hrun)).
Defined.

(** [create("B", {"A", "S", "A"})]: the parents come back as given, and
    ["A"] has two entries for the new node. *)
Lemma create_multi_links_in_order_witness :
  wf genealogy_SA
  ∧ ∃ g', create_multi "B" ["A"; "S"; "A"] genealogy_SA = Ret tt g'
          ∧ get_parents "B" g' = Ret ["A"; "S"; "A"] g'
          ∧ children_of g' "A" = [2; 2].
Proof.
  assert (wf genealogy_SA) as Hwf by by_decision.
  split; [done|].
  set (g' := genealogy_of (create_multi "B" ["A"; "S"; "A"] genealogy_SA)).
  assert (create_multi "B" ["A"; "S"; "A"] genealogy_SA = Ret tt g')
    as Hrun by by_computation.
  exists g'. split; [done|].
  assert (["A"; "S"; "A"] ≠ ([] : list string)) as Hne by done.
  destruct (proj2 (create_multi_links_in_order genealogy_SA "B"
                     ["A"; "S"; "A"] Hwf) g' Hrun Hne)
    as (v&aps&_&_&_&_&_&_&Hps).
  split; [done|]. by_computation.
Defined.

(** On the genealogy of ["S"] alone: [create("S", "Z")] throws
    [VirusAlreadyCreated] although ["Z"] is missing, [create("A", "Z")]
    throws [VirusNotFound]. *)
Lemma create_single_is_multi_singleton_witness :
  exists_ genealogy_S "S" = true
  ∧ create "S" "Z" genealogy_S = Throw VirusAlreadyCreated genealogy_S
  ∧ exists_ genealogy_S "A" = false ∧ exists_ genealogy_S "Z" = false
  ∧ create "A" "Z" genealogy_S = Throw VirusNotFound genealogy_S.
Proof.
  assert (exists_ genealogy_S "S" = true) as HS by by_computation.
  assert (exists_ genealogy_S "A" = false) as HA by by_computation.
  assert (exists_ genealogy_S "Z" = false) as HZ by by_computation.
  pose proof (create_single_is_multi_singleton genealogy_S "S" "Z") as (_ & HS' & _).
  pose proof (create_single_is_multi_singleton genealogy_S "A" "Z") as (_ & _ & HA').
  exact (conj HS (conj (HS' HS) (conj HA (conj HZ (HA' HA HZ))))).
Defined.

(** C5 fails as stated: [create("S", {})] on the genealogy of the stem
    virus ["S"] throws [VirusAlreadyCreated]. *)
Lemma create_multi_no_parents_throws_for_registered :
  exists_ genealogy_S "S" = true
  ∧ create_multi "S" [] genealogy_S = Throw VirusAlreadyCreated genealogy_S.
Proof. split; by_computation. Qed.

(** [create("A", {})] for the new identifier ["A"] does nothing. *)
Lemma create_multi_no_parents_witness :
  exists_ genealogy_S "A" = false
  ∧ create_multi "A" [] genealogy_S = Ret tt genealogy_S.
Proof.
  assert (exists_ genealogy_S "A" = false) as Hex by by_computation.
  split; [done|].
  exact (proj1 (create_multi_no_parents genealogy_S "A") Hex).
Defined.


(** C7 fails as stated.  After [connect("S", "A")] the call
    [remove("A")] throws half-way and leaves a reachable genealogy in
    which ["S"] is among the children of ["A"] while ["A"] is not among
    the parents of ["S"].  And position by position the two sides never
    had to agree: after [create("A", "S")] and [create("B", "S")] the
    entry for ["B"] is the second child of ["S"] and the entry for ["S"]
    the first parent of ["B"]. *)
Lemma edge_consistency_lost_on_cycle_through_stem :
  (∃ g nS nA,
     reachable g
     ∧ known_ids g !! "S" = Some 0 ∧ known_ids g !! "A" = Some 1
     ∧ heap g !! 0 = Some nS ∧ heap g !! 1 = Some nA
     ∧ 0 ∈ children nA ∧ 1 ∉ parents nS)
  ∧ (∃ g nS nB,
       lineage_siblings = Ret tt g
       ∧ known_ids g !! "S" = Some 0 ∧ known_ids g !! "B" = Some 2
       ∧ heap g !! 0 = Some nS ∧ heap g !! 2 = Some nB
       ∧ children nS !! 1 = Some 2 ∧ parents nB !! 0 = Some 0).
Proof.
  split.
  - set (g := genealogy_of (remove "A" genealogy_cycle)).
    exists g, (mkNode "S" (mkVirus "S") [] []),
           (mkNode "A" (mkVirus "A") [0] [0]).
    split_and!; [|by_computation..| |].
    + apply (reachable_call genealogy_cycle (Remove "A"));
        [apply genealogy_cycle_reachable|by_computation].
    + simpl. left.
    + simpl. apply not_elem_of_nil.
  - exists (genealogy_of lineage_siblings),
           (mkNode "S" (mkVirus "S") [] [1; 2]),
           (mkNode "B" (mkVirus "B") [0] []).
    split_and!; by_computation.
Qed.

(** A genealogy in which both viruses are their own parents is edge
    consistent and has a sequence of edges. *)
Lemma edge_consistency_witness :
  reachable_rooted genealogy_own
  ∧ (∀ a b na nb,
       registered genealogy_own a → registered genealogy_own b →
       heap genealogy_own !! a = Some na → heap genealogy_own !! b = Some nb →
       occurrences b (children na) = occurrences a (parents nb)
       ∧ (a ∈ parents nb ↔ b ∈ children na))
  ∧ (∃ log, edge_log genealogy_own log).
Proof.
  split; [apply genealogy_own_reachable|].
  pose proof (edge_consistency genealogy_own genealogy_own_reachable)
    as (Hcount&_&Hlog&_).
  exact (conj Hcount Hlog).
Defined.

(** C8 fails on the code.  On the genealogy of the stem virus ["S"]
    alone, [get_children_begin("S")] indexes the empty vector of children
    at 0 and [get_children_end("S")] at its size: neither returns an
    iterator, the behaviour is undefined. *)
Theorem children_range_of_childless_virus :
  exists_ genealogy_S "S" = true
  ∧ children_of genealogy_S "S" = []
  ∧ get_children_begin "S" genealogy_S = Undefined
  ∧ get_children_end "S" genealogy_S = Undefined.
Proof. split_and!; by_computation. Qed.

(** * The free store between calls *)

Section store.
Context {id_type : Type} `{Countable id_type}.
Context {Virus : Type} `{!VirusClassType Virus id_type}.
Implicit Types (g : VirusGenealogy id_type Virus) (n : Node id_type Virus).
Implicit Types (i : id_type) (a b c x : addr).

(** ** Relations that every step of [remove] respects *)

Section remove_respects.
Context (R : relation (VirusGenealogy id_type Virus)) `{!PreOrder R}.
Context (Hparent : ∀ c pid, respects R (Node_remove_parent c pid)).
Context (Hchild : ∀ c cid, respects R (Node_remove_child c cid)).
Context (Herase : ∀ i, respects R (map_erase i)).

Lemma collect_orphans_respects tid cs acc :
  respects R (collect_orphans tid cs acc).
Proof.
  revert acc. induction cs as [|c cs IH]; intros acc; simpl.
  { by apply respects_ret. }
  apply respects_bind; [done|done|]. intros _.
  apply respects_bind; [done| |].
  { apply respects_bind; [done|by apply respects_deref|].
    intros n. by apply respects_ret. }
  intros [|]; [|done].
  apply respects_bind; [done| |done].
  apply respects_bind; [done|by apply respects_deref|].
  intros n. by apply respects_ret.
Qed.

Lemma Node_remove_my_trace_respects this :
  respects R (Node_remove_my_trace this).
Proof.
  unfold Node_remove_my_trace.
  apply respects_bind; [done|by apply respects_deref|]. intros n.
  apply respects_bind; [done|apply collect_orphans_respects|]. intros os.
  apply respects_bind; [done|by apply respects_deref|]. intros n'.
  apply respects_bind; [done| |intros; by apply respects_ret].
  apply respects_for_each; [done|]. intros p.
  apply respects_bind; [done|by apply respects_lock|]. done.
Qed.

Lemma remove_fuel_respects k i g :
  ends (remove_fuel k i g) (λ _, R g) (λ _, R g) True.
Proof.
  revert i g. induction k as [|k IH]; intros i g; [done|]. simpl.
  apply ends_bind. simpl. case_decide as Hi; [simpl; reflexivity|].
  apply ends_bind. simpl. destruct (exists_ g i); simpl; [|reflexivity].
  apply ends_bind. unfold map_at.
  destruct (known_ids g !! i) as [a|]; simpl; [|reflexivity].
  apply ends_bind.
  eapply ends_mono; [apply Node_remove_my_trace_respects| |done|done].
  simpl. intros os g1 _ Hg1. apply ends_bind.
  assert (∀ g1, ends (for_each (remove_fuel k) os g1)
                  (λ _, R g1) (λ _, R g1) True) as Hloop.
  { clear g1 Hg1. induction os as [|o os IHos]; intros g1; simpl; [reflexivity|].
    apply ends_bind. eapply ends_mono; [apply IH| |done|done].
    simpl. intros [] g2 _ Hg2.
    eapply ends_mono; [apply IHos| | |done]; simpl; intros; by etrans. }
  eapply ends_mono; [apply Hloop| | |done].
  - simpl. intros [] g2 _ Hg2.
    eapply ends_mono; [apply Herase| | |done]; simpl; intros;
      (etrans; [exact Hg1|]); by etrans.
  - simpl. intros. by etrans.
Qed.

Lemma remove_respects i : respects R (remove i).
Proof.
  intros g. pose proof (remove_fuel_respects (S (total_parents g)) i g) as He.
  pose proof (remove_terminates i g) as Hne. unfold remove in *.
  by destruct (remove_fuel (S (total_parents g)) i g).
Qed.

End remove_respects.

(** ** [remove] only takes entries out *)

#[global] Instance dwindles_preorder :
  PreOrder (dwindles (id_type:=id_type) (Virus:=Virus)).
Proof.
  split.
  - intros g a n Ha. exists n. by split_and!.
  - intros g1 g2 g3 H12 H23 a n3 Ha.
    destruct (H23 a n3 Ha) as (n2&Ha2&?&?&?&?).
    destruct (H12 a n2 Ha2) as (n1&Ha1&?&?&?&?).
    exists n1. split_and!; [done|congruence..|by etrans|by etrans].
Qed.

Lemma dwindles_subseteq g g' : heap g' ⊆ heap g → dwindles g g'.
Proof.
  intros Hsub a n' Ha. exists n'. split_and!; try done.
  by eapply lookup_weaken.
Qed.

Lemma dwindles_store g a n n' :
  heap g !! a = Some n → node_id n' = node_id n → virus n' = virus n →
  sublist (parents n') (parents n) → sublist (children n') (children n) →
  dwindles g (set_heap (<[a := n']> (heap g)) g).
Proof.
  intros Ha Hid Hv Hp Hc b nb. simpl. destruct (decide (a = b)) as [->|Hab].
  - rewrite lookup_insert_eq. intros [= <-]. eauto 10.
  - rewrite lookup_insert_ne by done. intros Hb. exists nb. by split_and!.
Qed.

Lemma Node_remove_parent_dwindles c pid :
  respects (dwindles : relation (VirusGenealogy id_type Virus))
           (Node_remove_parent c pid).
Proof.
  intros g. unfold Node_remove_parent. apply ends_bind.
  unfold deref. destruct (heap g !! c) as [n|] eqn:Hc; simpl; [|done].
  apply ends_bind. eapply ends_mono; [apply find_parent_pure| |done|done].
  simpl. intros [j|] g1 _ [-> Hr]; [|done]. simpl.
  apply (dwindles_store g c n); try done. simpl. apply sublist_delete.
Qed.

Lemma Node_remove_child_dwindles c cid :
  respects (dwindles : relation (VirusGenealogy id_type Virus))
           (Node_remove_child c cid).
Proof.
  intros g. unfold Node_remove_child. apply ends_bind.
  unfold deref. destruct (heap g !! c) as [n|] eqn:Hc; simpl; [|done].
  apply ends_bind. eapply ends_mono; [apply find_child_pure| |done|done].
  simpl. intros [j|] g1 _ [-> Hr]; [|done]. simpl.
  etrans; [|apply dwindles_subseteq, sweep_subseteq].
  apply (dwindles_store g c n); try done. simpl. apply sublist_delete.
Qed.

Lemma map_erase_dwindles i :
  respects (dwindles : relation (VirusGenealogy id_type Virus)) (map_erase i).
Proof.
  intros g. unfold map_erase. destruct (known_ids g !! i); simpl; [|reflexivity].
  apply dwindles_subseteq. etrans; [apply sweep_subseteq|done].
Qed.

Lemma Node_remove_my_trace_dwindles this :
  respects (dwindles : relation (VirusGenealogy id_type Virus))
           (Node_remove_my_trace this).
Proof.
  apply Node_remove_my_trace_respects;
    [apply _|apply Node_remove_parent_dwindles|apply Node_remove_child_dwindles].
Qed.

Lemma remove_dwindles i :
  respects (dwindles : relation (VirusGenealogy id_type Virus)) (remove i).
Proof.
  apply remove_respects;
    [apply _|apply Node_remove_parent_dwindles|apply Node_remove_child_dwindles
    |apply map_erase_dwindles].
Qed.

Lemma remove_fuel_dwindles k i g :
  ends (remove_fuel k i g) (λ _, dwindles g) (λ _, dwindles g) True.
Proof.
  apply remove_fuel_respects;
    [apply _|apply Node_remove_parent_dwindles|apply Node_remove_child_dwindles
    |apply map_erase_dwindles].
Qed.

(** ** Invariants as relations *)

#[global] Instance preserves_preorder (P : VirusGenealogy id_type Virus → Prop) :
  PreOrder (preserves P).
Proof. split; unfold preserves; [by intros g|intros g1 g2 g3; auto]. Qed.

(** ** Owners *)

Lemma referenced_spec g a :
  referenced g a = true ↔
  (∃ i, known_ids g !! i = Some a)
  ∨ (∃ x nx, heap g !! x = Some nx ∧ a ∈ children nx).
Proof.
  unfold referenced. rewrite orb_true_iff, !existsb_exists. split.
  - intros [([i a']&Hin&Hd)|([x nx]&Hin&Hd)].
    + apply list_elem_of_In, elem_of_map_to_list in Hin.
      apply bool_decide_eq_true in Hd. simpl in Hd. subst a'. left. eauto.
    + apply list_elem_of_In, elem_of_map_to_list in Hin.
      apply bool_decide_eq_true in Hd. simpl in Hd. right. eauto.
  - intros [(i&Hi)|(x&nx&Hx&Hin)].
    + left. exists (i, a). split; [|by apply bool_decide_eq_true].
      by apply list_elem_of_In, elem_of_map_to_list.
    + right. exists (x, nx). split; [|by apply bool_decide_eq_true].
      by apply list_elem_of_In, elem_of_map_to_list.
Qed.

Lemma sweep_once_id g : no_garbage g → sweep_once g = g.
Proof.
  intros Hng. unfold sweep_once. rewrite map_filter_id; [by destruct g|].
  intros a n Ha. simpl. by apply (Hng a n).
Qed.

Lemma sweep_once_size g :
  ¬ no_garbage g → size (heap (sweep_once g)) < size (heap g).
Proof.
  intros (a&n&Ha&Hnr)%map_not_Forall; [|apply _].
  unfold sweep_once. simpl. apply map_subset_size. split.
  - apply map_filter_subseteq.
  - intros Hsub. pose proof (lookup_weaken _ _ _ _ Ha Hsub) as Hin.
    apply map_lookup_filter_Some in Hin as [_ ?]. done.
Qed.

Lemma iter_sweep_no_garbage k g :
  size (heap g) ≤ k → no_garbage (Nat.iter k sweep_once g).
Proof.
  revert g. induction k as [|k IH]; intros g Hk.
  - simpl. apply Nat.le_0_r, map_size_empty_iff in Hk.
    unfold no_garbage. rewrite Hk. apply map_Forall_empty.
  - rewrite Nat.iter_succ_r. destruct (decide (no_garbage g)) as [Hng|Hng].
    + rewrite (sweep_once_id g Hng).
      assert (∀ m, Nat.iter m sweep_once g = g) as ->; [|done].
      intros m. induction m as [|m IHm]; [done|].
      by rewrite Nat.iter_succ, IHm, sweep_once_id.
    + apply IH. pose proof (sweep_once_size g Hng). lia.
Qed.

(** [shared_ptr] leaves no node without an owner. *)
Lemma sweep_no_garbage g : no_garbage (sweep g).
Proof. by apply iter_sweep_no_garbage. Qed.

Lemma sweep_id g : no_garbage g → sweep g = g.
Proof.
  intros Hng. unfold sweep. generalize (size (heap g)). intros m.
  induction m as [|m IHm]; [done|]. by rewrite Nat.iter_succ, IHm, sweep_once_id.
Qed.

Lemma Node_remove_parent_no_garbage c pid :
  respects (preserves no_garbage : relation (VirusGenealogy id_type Virus))
           (Node_remove_parent c pid).
Proof.
  intros g. unfold Node_remove_parent. apply ends_bind.
  unfold deref. destruct (heap g !! c) as [n|] eqn:Hc; simpl; [|done].
  apply ends_bind. eapply ends_mono; [apply find_parent_pure| |done|done].
  simpl. intros [j|] g1 _ [-> Hr]; [|done]. simpl.
  intros Hng b nb Hb. simpl in Hb.
  assert (is_Some (heap g !! b)) as [nb0 Hb0].
  { destruct (decide (c = b)) as [->|?]; [by eauto|].
    rewrite lookup_insert_ne in Hb by done. eauto. }
  pose proof (Hng b nb0 Hb0) as Href. simpl in Href.
  apply referenced_spec in Href. apply referenced_spec. simpl.
  destruct Href as [?|(x&nx&Hx&Hin)]; [by left|right].
  destruct (decide (c = x)) as [->|?].
  - eexists x, _. rewrite lookup_insert_eq. split; [done|]. simpl. congruence.
  - exists x, nx. by rewrite lookup_insert_ne.
Qed.

Lemma Node_remove_child_no_garbage c cid :
  respects (preserves no_garbage : relation (VirusGenealogy id_type Virus))
           (Node_remove_child c cid).
Proof.
  intros g. unfold Node_remove_child. apply ends_bind.
  unfold deref. destruct (heap g !! c) as [n|] eqn:Hc; simpl; [|done].
  apply ends_bind. eapply ends_mono; [apply find_child_pure| |done|done].
  simpl. intros [j|] g1 _ [-> Hr]; [|done]. simpl.
  intros _. apply sweep_no_garbage.
Qed.

Lemma map_erase_no_garbage i :
  respects (preserves no_garbage : relation (VirusGenealogy id_type Virus))
           (map_erase i).
Proof.
  intros g. unfold map_erase. destruct (known_ids g !! i); simpl; [|done].
  intros _. apply sweep_no_garbage.
Qed.

Lemma remove_no_garbage i g g' :
  no_garbage g → after (remove i g) = Some g' → no_garbage g'.
Proof.
  intros Hng Hafter.
  pose proof (remove_respects (preserves no_garbage) (Node_remove_parent_no_garbage)
                Node_remove_child_no_garbage map_erase_no_garbage i g) as He.
  destruct (remove i g); simplify_eq/=; by apply He.
Qed.

End store.

(** * [remove] frees what it unregisters

    A node that [remove] has taken out keeps its [children] vector, and
    with it the ownership of nodes that are unregistered later.  These
    owners were all taken out before the nodes they own, so ownership
    among them has no cycle, and when the outermost call erases its
    registry entry everything it unregistered goes. *)

Section freeing.
Context {id_type : Type} `{Countable id_type}.
Context {Virus : Type} `{!VirusClassType Virus id_type}.
Implicit Types (g : VirusGenealogy id_type Virus) (n : Node id_type Virus).
Implicit Types (i o : id_type) (a b c d x y : addr) (T D : gset addr).

Lemma acyclic_ext g T T' :
  (∀ x, attached g T x ↔ attached g T' x) → acyclic g T → acyclic g T'.
Proof.
  intros Hext (rank&N&Hb&He).
  assert (∀ x, stale g T' x → stale g T x) as Hst.
  { intros x [? Hna]. split; [done|]. by rewrite Hext. }
  exists rank, N. split; [by auto|]. intros x nx b Hx Hnx Hin Hbs. eauto.
Qed.

(** Nodes without a registry entry need no mention in [T]. *)
Lemma attached_unregistered g T D x :
  (∀ j y, known_ids g !! j = Some y → y ∉ D) →
  attached g (T ∪ D) x ↔ attached g T x.
Proof.
  intros HD. unfold attached. split; intros [Hreg Hx]; (split; [done|]).
  - set_solver.
  - apply registered_iff in Hreg as (nx&_&Hreg). specialize (HD _ _ Hreg).
    set_solver.
Qed.

Lemma acyclic_leak_free_initial g : leak_free g → acyclic g ∅.
Proof.
  intros Hlf. exists (λ _, 0), 0.
  assert (∀ x, ¬ stale g ∅ x) as Hnone.
  { intros x [[nx Hx] Hna]. apply Hna, attached_empty, registered_iff.
    exists nx. split; [done|]. by apply (Hlf x nx). }
  split; [intros x Hx|intros x nx b Hx]; by destruct (Hnone x).
Qed.

(** Taking the node at [a] out makes it the youngest stale node; it owns
    attached nodes only. *)
Lemma acyclic_trace g T a n os g1 :
  consistent_upto g T → wf g → attached g T a → heap g !! a = Some n →
  Node_remove_my_trace a g = Ret os g1 →
  acyclic g T → acyclic g1 (T ∪ {[a]}).
Proof.
  intros Hcu Hwf Ha Hn Hrun (rank&N&Hb&He).
  destruct (Node_remove_my_trace_spec g T a n Hcu Hwf Ha Hn)
    as (os'&g1'&Hrun'&Hs1&Hk1&Hn1&Hheap1&_&_).
  rewrite Hrun in Hrun'. injection Hrun' as <- <-.
  pose proof (Node_remove_my_trace_dwindles a g) as Hdw.
  rewrite Hrun in Hdw. simpl in Hdw.
  assert (∀ x, stale g1 (T ∪ {[a]}) x → x ≠ a → stale g T x) as Hst.
  { intros x [[nx1 Hx1] Hna] Hxa. destruct (Hdw x nx1 Hx1) as (nx&Hx&Hid&_).
    split; [by eauto|]. intros [Hreg HxT]. apply Hna. split; [|set_solver].
    apply registered_iff. exists nx1. split; [done|]. rewrite Hk1, Hid.
    by apply (registered_lookup g x nx). }
  exists (λ y, if decide (y = a) then N else rank y), (S N). split.
  - intros x Hx. case_decide as Hxa; [lia|].
    pose proof (Hb x (Hst x Hx Hxa)). lia.
  - intros x nx1 b Hx Hx1 Hin Hbs. destruct (decide (x = a)) as [->|Hxa].
    + exfalso. rewrite (Hheap1 a n Ha Hn) in Hx1. injection Hx1 as <-.
      simpl in Hin. apply elem_of_strip in Hin as [Hba Hin].
      assert (b ≠ a) as Hne by set_solver.
      destruct (Hst b Hbs Hne) as [_ Hnat]. apply Hnat.
      apply (cu_closed g T a n b); auto.
    + pose proof (Hst x Hx Hxa) as Hxs.
      destruct (Hdw x nx1 Hx1) as (nx&Hx0&_&_&_&Hsub).
      assert (b ∈ children nx) as Hin0 by (eapply elem_of_sublist; done).
      case_decide as Hba; [by apply Hb|].
      apply (He x nx b); auto.
Qed.

(** Erasing the registry entry of a node that has been taken out and
    destroying what nobody owns any more. *)
Lemma acyclic_erase g T i a :
  known_ids g !! i = Some a → a ∈ T → acyclic g T →
  acyclic (sweep (set_known_ids (delete i (known_ids g)) g)) T.
Proof.
  intros Hi HaT (rank&N&Hb&He).
  set (g3 := set_known_ids (delete i (known_ids g)) g).
  assert (∀ x nx, heap (sweep g3) !! x = Some nx → heap g !! x = Some nx) as Hh.
  { intros x nx Hx. by apply (lookup_weaken _ _ _ _ Hx (sweep_subseteq g3)). }
  assert (∀ x, stale (sweep g3) T x → stale g T x) as Hst.
  { intros x [[nx Hx] Hna]. split; [by eauto|]. intros [Hreg HxT].
    apply Hna. split; [|done]. apply registered_iff. exists nx.
    split; [done|]. rewrite sweep_known_ids. unfold g3. simpl.
    pose proof (registered_lookup g x nx Hreg (Hh x nx Hx)) as Hid.
    rewrite lookup_delete_ne; [done|]. intros Heq. rewrite <-Heq in Hid.
    rewrite Hi in Hid. injection Hid as <-. done. }
  exists rank, N. split; [by auto|].
  intros x nx b Hx Hnx Hin Hbs. apply (He x nx b); auto.
Qed.

(** ** The recursion *)

Section orphans.
Context (k : nat).
Context (IH : remove_keeps_acyclic (id_type:=id_type) (Virus:=Virus) k).

Lemma remove_orphans_acyclic os :
  ∀ g T g2,
    consistent_upto g T → wf g → NoDup os →
    (∀ o, o ∈ os → o ≠ stem_id g ∧
       ∃ b nb, known_ids g !! o = Some b ∧ b ∉ T
               ∧ heap g !! b = Some nb ∧ parents nb = []) →
    acyclic g T →
    for_each (remove_fuel k) os g = Ret tt g2 →
    acyclic g2 T.
Proof.
  induction os as [|o os IHos]; intros g T g2 Hcu Hwf Hnd Hos Hac Hrun.
  { simpl in Hrun. by injection Hrun as <-. }
  apply NoDup_cons in Hnd as [Hno Hnd].
  destruct (Hos o) as (Hostem&b&nb&Hob&HbT&Hnb&Hnil); [left|].
  simpl in Hrun. unfold bind in Hrun.
  destruct (remove_fuel k o g) as [[] g1| | | |] eqn:Hrun1; try done.
  destruct (remove_fuel_ok k g T o b Hcu Hwf Hob HbT Hostem)
    as [Hout|(g1'&D1&Hrun1'&Hwf1&Hcas1&HbD1)]; [congruence|].
  rewrite Hrun1 in Hrun1'. injection Hrun1' as <-.
  pose proof (IH g T o b g1 Hcu Hwf Hob HbT Hostem Hac Hrun1) as Hac1.
  pose proof Hcas1 as (Hd1&Hat1&Hk1&Ho1&Hl1).
  assert (consistent_upto g1 (T ∪ D1)) as Hcu1.
  { apply (cu_detach g T g1 D1); try done.
    intros a Ha HaD. destruct (wf_lookup g _ a Hwf Ha) as (na&Hna&Hida).
    apply (falls_parents g T _ a na (Ho1 a HaD) Hna).
    - intros ->. destruct (wf_lookup g _ _ Hwf Hob) as (?&?&?). congruence.
    - destruct (cu_stem g T a Hcu Ha) as [_ Hp]. rewrite Hna in Hp.
      simpl in Hp. by injection Hp. }
  assert (∀ o' b', o' ∈ os → known_ids g !! o' = Some b' → b' ∉ D1) as Hfresh.
  { intros o' b' Ho' Hb' Hin.
    destruct (Hos o') as (_&b''&nb'&?&_&Hnb'&Hnil'); [by right|]. simplify_eq.
    apply (falls_parents g T _ b' nb' (Ho1 b' Hin) Hnb'); [|done].
    intros ->.
    destruct (wf_lookup g _ _ Hwf Hob) as (?&?&?).
    destruct (wf_lookup g _ _ Hwf Hb') as (?&?&?). simplify_eq. }
  assert (∀ o', o' ∈ os → o' ≠ stem_id g1 ∧
       ∃ b' nb', known_ids g1 !! o' = Some b' ∧ b' ∉ T ∪ D1
                 ∧ heap g1 !! b' = Some nb' ∧ parents nb' = []) as Hos1.
  { intros o' Ho'.
    destruct (Hos o') as (Hst'&b'&nb'&Hb'&Hb'T&Hnb'&Hnil'); [by right|].
    destruct Hd1 as (Hs1&_&_&Hkeep&Hheap). split; [congruence|].
    pose proof (Hfresh o' b' Ho' Hb') as Hb'D.
    exists b', (stripped D1 nb'). split_and!.
    - by apply Hkeep.
    - set_solver.
    - apply Hheap; [|done..]. split; [by eapply wf_registered|done].
    - simpl. by rewrite Hnil'. }
  assert (∀ j y, known_ids g1 !! j = Some y → y ∉ D1) as Hgone1.
  { intros j y Hj. rewrite Hk1 in Hj.
    by apply map_lookup_filter_Some in Hj as [_ ?]. }
  assert (acyclic g1 (T ∪ D1)) as Hac1'.
  { eapply acyclic_ext; [|exact Hac1]. intros x. symmetry.
    by apply attached_unregistered. }
  pose proof (IHos g1 (T ∪ D1) g2 Hcu1 Hwf1 Hnd Hos1 Hac1' Hrun) as Hac2.
  destruct (remove_orphans_spec k os g1 (T ∪ D1)
              Hcu1 Hwf1 Hnd Hos1) as [Hout|(g2'&D2&Hrun2&_&Hcas2&_)];
    [congruence|].
  rewrite Hrun in Hrun2. injection Hrun2 as <-.
  destruct Hcas2 as ((_&_&Hsub2&_)&_).
  eapply acyclic_ext; [|exact Hac2]. intros x.
  apply attached_unregistered. intros j y Hj.
  apply (Hgone1 j y). by eapply lookup_weaken.
Qed.

End orphans.

Lemma remove_fuel_keeps_acyclic k :
  remove_keeps_acyclic (id_type:=id_type) (Virus:=Virus) k.
Proof.
  induction k as [|k IH]; intros g T i a g' Hcu Hwf Hi HaT Histem Hac Hrun;
    [done|].
  assert (attached g T a) as Ha by (split; [by eapply wf_registered|done]).
  destruct (wf_lookup g i a Hwf Hi) as (n&Hn&Hid).
  destruct (Node_remove_my_trace_spec g T a n Hcu Hwf Ha Hn)
    as (os&g1&Hrun1&Hs1&Hk1&Hn1&Hheap1&Hnd&Hos).
  assert (shrinks g g1) as Hsh1.
  { pose proof (Node_remove_my_trace_shrinks a g) as Hsh.
    by rewrite Hrun1 in Hsh; destruct Hsh. }
  assert (wf g1) as Hwf1 by exact (shrinks_wf g g1 Hsh1 Hwf).
  assert (detaches g T g1 {[a]}) as Hdet1.
  { unfold detaches. rewrite Hk1. split_and!; try done.
    intros b nb Hb _ Hnb. by apply Hheap1. }
  assert (consistent_upto g1 (T ∪ {[a]})) as Hcu1.
  { apply (cu_detach g T g1 {[a]}); try done.
    intros a' Ha' Hin. apply elem_of_singleton in Hin. subst a'.
    apply Histem. exact (wf_registry_inj g _ _ a Hwf Hi Ha'). }
  assert (a ∉ parents n) as Hnoself by exact (cu_noself g T a n Hcu Ha Hn).
  assert (∀ o, o ∈ os → o ≠ stem_id g1 ∧
       ∃ b nb, known_ids g1 !! o = Some b ∧ b ∉ T ∪ {[a]}
               ∧ heap g1 !! b = Some nb ∧ parents nb = []) as Hpre.
  { intros o (b&nb&Hb&Hnb&<-&Hne&Hnil)%Hos.
    pose proof (registered_lookup g b nb (proj1 Hb) Hnb) as Hreg. split.
    - rewrite Hs1. intros Heq. rewrite Heq in Hreg.
      destruct (cu_stem g T b Hcu Hreg) as [_ Hp]. rewrite Hnb in Hp.
      simpl in Hp. by injection Hp.
    - exists b, (stripped {[a]} nb). rewrite Hk1. split_and!; try done.
      + apply not_elem_of_union. split; [apply Hb|].
        intros ->%elem_of_singleton. simplify_eq.
        rewrite strip_id in Hnil; [done|]. set_solver.
      + by apply Hheap1. }
  (* the run, step by step *)
  simpl in Hrun. unfold bind at 1 in Hrun. simpl in Hrun.
  rewrite decide_False in Hrun by done.
  unfold bind at 1 in Hrun. simpl in Hrun.
  replace (exists_ g i) with true in Hrun
    by (symmetry; apply exists_true; eauto).
  simpl in Hrun. rewrite (bind_Ret _ _ _ _ _ (map_at_eq _ _ _ Hi)) in Hrun.
  rewrite (bind_Ret _ _ _ _ _ Hrun1) in Hrun. unfold bind in Hrun.
  destruct (for_each (remove_fuel k) os g1) as [[] g2| | | |] eqn:Hrun2;
    try done.
  destruct (remove_orphans_spec k os g1 (T ∪ {[a]})
              Hcu1 Hwf1 Hnd Hpre) as [Hout|(g2'&D2&Hrun2'&Hwf2&Hcas2&_)];
    [congruence|].
  rewrite Hrun2 in Hrun2'. injection Hrun2' as <-.
  pose proof Hcas2 as (Hd2&Hat2&Hk2&_&_).
  assert (a ∉ D2) as HaD2.
  { intros HaD. destruct (Hat2 a HaD) as [_ ?]. set_solver. }
  assert (known_ids g2 !! i = Some a) as Hi2.
  { rewrite Hk2, Hk1. apply map_lookup_filter_Some. done. }
  unfold map_erase in Hrun. rewrite Hi2 in Hrun. injection Hrun as <-.
  (* the order among the stale nodes *)
  pose proof (acyclic_trace g T a n os g1 Hcu Hwf Ha Hn Hrun1 Hac) as Hac1.
  pose proof (remove_orphans_acyclic k IH os g1 (T ∪ {[a]}) g2
                Hcu1 Hwf1 Hnd Hpre Hac1 Hrun2) as Hac2.
  assert (a ∈ T ∪ {[a]}) as HaT' by set_solver.
  pose proof (acyclic_erase g2 (T ∪ {[a]}) i a Hi2 HaT' Hac2) as Hac3.
  eapply acyclic_ext; [|exact Hac3]. intros x.
  apply attached_unregistered. intros j y Hj.
  rewrite sweep_known_ids in Hj. simpl in Hj.
  apply lookup_delete_Some in Hj as [Hji Hj].
  intros ->%elem_of_singleton. apply Hji.
  exact (wf_registry_inj g2 i j a Hwf2 Hi2 Hj).
Qed.

(** ** Between calls *)

(** When the registered nodes are closed under [children], every node
    has an owner and ownership among the others has no cycle, there are
    no others. *)
Lemma acyclic_leak_free g :
  consistent g → no_garbage g → acyclic g ∅ → leak_free g.
Proof.
  intros (Hwf&_&Hcu) Hng (rank&N&_&He).
  assert (∀ z, Decision (attached g ∅ z)) as Hdec.
  { intros z. unfold attached, registered. apply _. }
  assert (∀ m x, rank x < m → ¬ stale g ∅ x) as Hnone.
  { induction m as [|m IHm]; intros x Hlt Hst; [lia|].
    pose proof Hst as [[nx Hx] Hna].
    pose proof (Hng x nx Hx) as Href. simpl in Href.
    apply referenced_spec in Href as [(j&Hj)|(y&ny&Hy&Hin)].
    - apply Hna, attached_empty. by eapply wf_registered.
    - destruct (Hdec y) as [Hat|Hnat].
      + apply Hna. apply (cu_closed g ∅ y ny x); auto.
      + assert (stale g ∅ y) as Hys by (split; eauto).
        pose proof (He y ny x Hys Hy Hin Hst). apply (IHm y); [lia|done]. }
  intros x nx Hx. destruct (Hdec x) as [Hat|Hnat].
  - apply attached_empty in Hat. by apply registered_lookup.
  - exfalso. apply (Hnone (S (rank x)) x); [lia|]. split; eauto.
Qed.

(** [remove] on a consistent genealogy without leaks leaves no leak. *)
Lemma remove_leak_free g i g' :
  consistent g → no_garbage g → leak_free g →
  remove i g = Ret tt g' → leak_free g'.
Proof.
  intros Hcon Hng Hlf Hrun.
  destruct (decide (i = stem_id g)) as [->|Histem].
  { by rewrite remove_stem in Hrun. }
  destruct (exists_ g i) eqn:Hex;
    [|by rewrite remove_missing in Hrun].
  apply exists_true in Hex as [a Hi].
  destruct (remove_consistent g i a Hcon Hi Histem) as (g''&D&Hrun'&Hcon'&_).
  rewrite Hrun in Hrun'. injection Hrun' as <-.
  apply acyclic_leak_free; [done| |].
  - apply (remove_no_garbage i g g' Hng). by rewrite Hrun.
  - destruct Hcon as (Hwf&_&Hcu).
    apply (remove_fuel_keeps_acyclic (S (total_parents g)) g ∅ i a g');
      try done.
    by apply acyclic_leak_free_initial.
Qed.

End freeing.

(** * What every call keeps *)

Section kept.
Context {id_type : Type} `{Countable id_type}.
Context {Virus : Type} `{!VirusClassType Virus id_type}.
Implicit Types (g : VirusGenealogy id_type Virus) (n : Node id_type Virus).
Implicit Types (i o : id_type) (a b c d x y this : addr) (aps : list addr).
Implicit Types (ps : list id_type).

(** ** The constructor *)

Lemma construct_ret stem v :
  Virus_new stem = Some v →
  VirusGenealogy_new stem = Ret tt (allocated (mkGenealogy stem ∅ ∅ 0) stem v).
Proof.
  intros Hv.
  unfold VirusGenealogy_new, VirusGenealogy_ctor, try_catch, bind, Node_new.
  simpl. by rewrite Hv.
Qed.

Lemma construct_throw stem :
  Virus_new stem = None →
  VirusGenealogy_new stem = Throw PayloadFailure (mkGenealogy stem ∅ ∅ 0).
Proof.
  intros Hv.
  unfold VirusGenealogy_new, VirusGenealogy_ctor, try_catch, bind, Node_new.
  simpl. by rewrite Hv.
Qed.

(** ** Invariants of the calls that add

    [create] allocates a node and links it, [connect] links; a property
    that survives both survives every call that is not [remove]. *)

Section invariant.
Context (P : VirusGenealogy id_type Virus → Prop).
Context (Halloc : ∀ g i v,
  wf g → known_ids g !! i = None → Virus_new i = Some v →
  P g → P (allocated g i v)).
Context (Hlink : ∀ g g' this aps,
  wf g → registered g this → Forall (registered g) aps →
  same_registry g g' → linked (heap g) this aps (heap g') →
  P g → P g').

Lemma create_multi_invariant g i ps g' :
  wf g → P g → after (create_multi i ps g) = Some g' → P g'.
Proof.
  intros Hwf HP Hafter. pose proof (create_multi_ends g i ps) as Hends.
  destruct (create_multi i ps g) as [[] g1|e g1| | |] eqn:Hrun; simplify_eq/=.
  - destruct (create_multi_Ret_inv g i ps g' Hwf Hrun)
      as [Hi [[-> ->]|(Hne&v&aps&Hv&Haps&Hsr&Hl)]]; [done|].
    apply (Hlink (allocated g i v) g' (next_addr g) aps); try done.
    + by apply allocated_wf.
    + apply allocated_registered; auto.
    + clear -Haps Hwf Hi. induction Haps as [|p ap ps aps Hp _ IH];
        constructor; [|done].
      apply allocated_registered; [done..|]. right.
      by eapply wf_registered.
    + by apply Halloc.
  - by destruct Hends as [-> _].
Qed.

Lemma connect_invariant g child_id parent_id g' :
  wf g → P g → after (connect child_id parent_id g) = Some g' → P g'.
Proof.
  intros Hwf HP Hafter. pose proof (connect_ends g child_id parent_id) as Hends.
  destruct (connect child_id parent_id g) as [[] g1|e g1| | |] eqn:Hrun;
    simplify_eq/=.
  - destruct (connect_Ret_inv g child_id parent_id g' Hwf Hrun)
      as [->|(ac&ap&Hc&Hp&Hsr&Hl)]; [done|].
    apply (Hlink g g' ac [ap]); try done.
    + by eapply wf_registered.
    + constructor; [by eapply wf_registered|constructor].
  - by destruct Hends as [-> _].
Qed.

Lemma call_invariant g (c : call) g' :
  wf g → P g →
  (∀ i, after (remove i g) = Some g' → P g') →
  after (run_call c g) = Some g' → P g'.
Proof.
  intros Hwf HP Hremove Hafter.
  destruct c as [i p|i ps|child_id parent_id|i]; simpl in *.
  - rewrite create_is_create_multi in Hafter. by eapply create_multi_invariant.
  - by eapply create_multi_invariant.
  - by eapply connect_invariant.
  - by eapply Hremove.
Qed.

Lemma reachable_invariant :
  (∀ stem, P (mkGenealogy stem ∅ ∅ 0)) →
  (∀ g i g', wf g → P g → after (remove i g) = Some g' → P g') →
  ∀ g, reachable g → P g.
Proof.
  intros Hempty Hremove g.
  induction 1 as [stem g Hnew|g c g' Hr IH Hafter].
  - apply construct_inv in Hnew as (v&Hv&->).
    apply Halloc; [apply empty_wf|done|done|apply Hempty].
  - destruct (reachable_wf g Hr) as [Hwf _].
    apply (call_invariant g c g'); eauto.
Qed.

End invariant.

(** ** Payloads *)

Lemma payloads_allocated g i v :
  wf g → known_ids g !! i = None → Virus_new i = Some v →
  payloads_from_ids g → payloads_from_ids (allocated g i v).
Proof.
  intros _ _ Hv Hp a n. simpl.
  intros [[<- <-]|[_ Ha]]%lookup_insert_Some; [done|]. by apply (Hp a n).
Qed.

Lemma payloads_linked g g' this aps :
  wf g → registered g this → Forall (registered g) aps →
  same_registry g g' → linked (heap g) this aps (heap g') →
  payloads_from_ids g → payloads_from_ids g'.
Proof.
  intros _ _ _ _ Hl Hp a n' Ha. rewrite Hl in Ha.
  destruct (heap g !! a) as [n|] eqn:Ha0; simplify_eq/=. by apply (Hp a n).
Qed.

Lemma payloads_dwindles g g' :
  dwindles g g' → payloads_from_ids g → payloads_from_ids g'.
Proof.
  intros Hdw Hp a n' Ha. destruct (Hdw a n' Ha) as (n&Ha0&Hid&Hv&_).
  rewrite Hid, Hv. by apply (Hp a n).
Qed.

Lemma reachable_payloads g : reachable g → payloads_from_ids g.
Proof.
  apply (reachable_invariant payloads_from_ids
           payloads_allocated payloads_linked).
  - intros stem. apply map_Forall_empty.
  - intros g0 i g' _ Hp Hafter. apply (payloads_dwindles g0); [|done].
    pose proof (remove_dwindles i g0) as Hdw.
    destruct (remove i g0); simplify_eq/=; done.
Qed.

(** ** Owners *)

Lemma no_garbage_allocated g i v :
  wf g → known_ids g !! i = None → Virus_new i = Some v →
  no_garbage g → no_garbage (allocated g i v).
Proof.
  intros Hwf Hi _ Hng a n Ha. simpl in Ha. apply referenced_spec. simpl.
  apply lookup_insert_Some in Ha as [[<- <-]|[Hne Ha]].
  - left. exists i. by rewrite lookup_insert_eq.
  - pose proof (Hng a n Ha) as Href. simpl in Href.
    apply referenced_spec in Href as [(j&Hj)|(x&nx&Hx&Hin)].
    + left. exists j. rewrite lookup_insert_ne; [done|]. congruence.
    + right. exists x, nx. split; [|done].
      rewrite lookup_insert_ne; [done|]. intros <-.
      rewrite (wf_fresh g Hwf) in Hx. done.
Qed.

Lemma no_garbage_linked g g' this aps :
  wf g → registered g this → Forall (registered g) aps →
  same_registry g g' → linked (heap g) this aps (heap g') →
  no_garbage g → no_garbage g'.
Proof.
  intros _ _ _ (_&Hk&_) Hl Hng a n' Ha. simpl. rewrite Hl in Ha.
  destruct (heap g !! a) as [n|] eqn:Ha0; simplify_eq/=.
  pose proof (Hng a n Ha0) as Href. simpl in Href.
  apply referenced_spec. rewrite Hk.
  apply referenced_spec in Href as [?|(x&nx&Hx&Hin)]; [by left|right].
  exists x, (extended this aps x nx). rewrite Hl, Hx. split; [done|].
  simpl. apply elem_of_app. by left.
Qed.

Lemma reachable_no_garbage g : reachable g → no_garbage g.
Proof.
  apply (reachable_invariant no_garbage no_garbage_allocated no_garbage_linked).
  - intros stem. apply map_Forall_empty.
  - intros g0 i g' _ Hng Hafter. by eapply remove_no_garbage.
Qed.

(** ** Leaks *)

Lemma leak_free_allocated g i v :
  wf g → known_ids g !! i = None → Virus_new i = Some v →
  leak_free g → leak_free (allocated g i v).
Proof.
  intros _ Hi _ Hlf a n Ha. simpl in *.
  apply lookup_insert_Some in Ha as [[<- <-]|[Hne Ha]].
  - simpl. by rewrite lookup_insert_eq.
  - pose proof (Hlf a n Ha) as Hreg. simpl in Hreg.
    rewrite lookup_insert_ne; [done|]. congruence.
Qed.

Lemma leak_free_linked g g' this aps :
  wf g → registered g this → Forall (registered g) aps →
  same_registry g g' → linked (heap g) this aps (heap g') →
  leak_free g → leak_free g'.
Proof.
  intros _ _ _ (_&Hk&_) Hl Hlf a n' Ha. simpl. rewrite Hl in Ha.
  destruct (heap g !! a) as [n|] eqn:Ha0; simplify_eq/=.
  rewrite Hk. by apply (Hlf a n).
Qed.

Lemma reachable_disciplined_leak_free g :
  reachable_disciplined g → leak_free g.
Proof.
  induction 1 as [stem g Hnew|g c g' Hr IH Hdis Hafter].
  - apply construct_inv in Hnew as (v&Hv&->).
    apply leak_free_allocated; [apply empty_wf|done|done|].
    apply map_Forall_empty.
  - pose proof (reachable_disciplined_consistent g Hr) as Hcon.
    pose proof (reachable_no_garbage g (reachable_disciplined_reachable g Hr))
      as Hng.
    apply (call_invariant leak_free leak_free_allocated leak_free_linked
             g c g'); try done; [by apply consistent_wf|].
    intros i Hrem.
    destruct (remove i g) as [[] g1|e g1| | |] eqn:Hrun; simplify_eq/=.
    + by eapply remove_leak_free.
    + by destruct (remove_throw_consistent g i e g' Hcon Hrun) as [-> _].
Qed.

End kept.

(** * Reading a genealogy, and calls that always end *)

Section reading.
Context {id_type : Type} `{Countable id_type}.
Context {Virus : Type} `{!VirusClassType Virus id_type}.
Implicit Types (g : VirusGenealogy id_type Virus) (n : Node id_type Virus).
Implicit Types (i o : id_type) (a b c d x y this : addr) (aps : list addr).
Implicit Types (ps : list id_type).

(** ** [get_parents] and [operator[]] *)

Lemma get_parents_missing g i :
  exists_ g i = false → get_parents i g = Throw VirusNotFound g.
Proof. intros Hi. unfold get_parents, bind. simpl. by rewrite Hi. Qed.

Lemma get_missing g i :
  exists_ g i = false → get i g = Throw VirusNotFound g.
Proof. intros Hi. unfold get, bind. simpl. by rewrite Hi. Qed.

Lemma get_eq g i a n :
  known_ids g !! i = Some a → heap g !! a = Some n → get i g = Ret (virus n) g.
Proof.
  intros Hi Hn. unfold get. unfold bind at 1. simpl.
  replace (exists_ g i) with true by (symmetry; apply exists_true; eauto).
  simpl. rewrite (bind_Ret _ _ _ _ _ (map_at_eq _ _ _ Hi)).
  unfold Node_get_virus. by rewrite (bind_Ret _ _ _ _ _ (deref_eq _ _ _ Hn)).
Qed.

Lemma registered_ids g (l : list addr) :
  Forall (registered g) l →
  ∃ ids, Forall2 (λ b id, node_id <$> heap g !! b = Some id
                          ∧ known_ids g !! id = Some b) l ids.
Proof.
  induction 1 as [|b l Hb _ [ids IH]]; [by exists []|].
  apply registered_iff in Hb as (nb&Hnb&Hreg).
  exists (node_id nb :: ids). constructor; [|done]. by rewrite Hnb.
Qed.

Lemma get_parents_edges g i a n :
  edge_consistent g → known_ids g !! i = Some a → heap g !! a = Some n →
  ∃ ps, get_parents i g = Ret ps g
        ∧ Forall2 (λ b p, known_ids g !! p = Some b) (parents n) ps.
Proof.
  intros (Hwf&_&Hcu) Hi Hn.
  assert (Forall (registered g) (parents n)) as Hreg.
  { apply Forall_forall. intros b Hb. apply attached_empty.
    apply (eu_closed g ∅ a n b); auto.
    apply attached_empty. by eapply wf_registered. }
  destruct (registered_ids g (parents n) Hreg) as [ps Hps].
  exists ps. split.
  - rewrite (get_parents_eq g i a n Hi Hn). apply lock_ids_eq.
    eapply Forall2_impl; [exact Hps|]. by intros b p [? _].
  - eapply Forall2_impl; [exact Hps|]. by intros b p [_ ?].
Qed.

(** ** The iterator *)

Lemma iter_next_eq g a n j :
  heap g !! a = Some n → j < length (children n) →
  iter_next (mkIter a j) g = Ret (mkIter a (S j)) g.
Proof.
  intros Hn Hj. unfold iter_next. simpl.
  rewrite (bind_Ret _ _ _ _ _ (deref_eq _ _ _ Hn)). by rewrite decide_True.
Qed.

Lemma iter_prev_eq g a n j :
  heap g !! a = Some n → j < length (children n) →
  iter_prev (mkIter a (S j)) g = Ret (mkIter a j) g.
Proof.
  intros Hn Hj. unfold iter_prev. simpl.
  rewrite (bind_Ret _ _ _ _ _ (deref_eq _ _ _ Hn)). by rewrite decide_True.
Qed.

Lemma iter_next_end g a n :
  heap g !! a = Some n →
  iter_next (mkIter a (length (children n))) g = Undefined.
Proof.
  intros Hn. unfold iter_next. simpl.
  rewrite (bind_Ret _ _ _ _ _ (deref_eq _ _ _ Hn)).
  rewrite decide_False by lia. done.
Qed.

Lemma iter_prev_begin g a : iter_prev (mkIter a 0) g ≠ Ret (mkIter a 0) g.
Proof.
  unfold iter_prev, bind, deref. simpl. by destruct (heap g !! a).
Qed.

(** [begin()] and [j] increments. *)
Lemma iter_walk g i a n j :
  known_ids g !! i = Some a → heap g !! a = Some n →
  children n ≠ [] → j ≤ length (children n) →
  Nat.iter j (λ m, let* it := m in iter_next it) (get_children_begin i) g
  = Ret (mkIter a j) g.
Proof.
  intros Hi Hn Hne. induction j as [|j IH]; intros Hj.
  - simpl. destruct (children n) as [|c cs] eqn:Hc; [done|].
    by eapply get_children_begin_first.
  - assert (j ≤ length (children n)) as Hj' by lia.
    rewrite Nat.iter_succ. unfold bind at 1. rewrite (IH Hj').
    apply (iter_next_eq g a n j Hn). lia.
Qed.

(** ** [add_child] *)

Lemma Node_add_child_eq this child g :
  Node_add_child this child g = Node_add_parent child this g.
Proof.
  unfold Node_add_child, Node_add_parent, bind, deref, store, modify.
  destruct (decide (this = child)) as [->|Hne].
  - destruct (heap g !! child) as [n|] eqn:Hn; [|done]. simpl.
    rewrite !lookup_insert_eq. simpl. by rewrite !insert_insert_eq.
  - destruct (heap g !! this) as [nt|] eqn:Ht,
             (heap g !! child) as [nc|] eqn:Hc; simpl;
      rewrite ?lookup_insert_ne, ?Ht, ?Hc by done; try done.
    simpl. by rewrite insert_insert_ne.
Qed.

(** ** One level of [remove] *)

Lemma remove_fuel_unfold k g i a os g1 :
  i ≠ stem_id g → known_ids g !! i = Some a →
  Node_remove_my_trace a g = Ret os g1 →
  remove_fuel (S k) i g
  = (do for_each (remove_fuel k) os in map_erase i) g1.
Proof.
  intros Histem Hi Hrun1. simpl. unfold bind at 1. simpl.
  rewrite decide_False by done. unfold bind at 1. simpl.
  replace (exists_ g i) with true by (symmetry; apply exists_true; eauto).
  simpl. rewrite (bind_Ret _ _ _ _ _ (map_at_eq _ _ _ Hi)).
  by rewrite (bind_Ret _ _ _ _ _ Hrun1).
Qed.

(** ** Calls that return or throw *)

Lemma create_multi_total g i ps :
  wf g →
  (∃ g', create_multi i ps g = Ret tt g') ∨ (∃ e, create_multi i ps g = Throw e g).
Proof.
  intros Hwf. destruct (exists_ g i) eqn:Hi.
  { right. exists VirusAlreadyCreated.
    unfold create_multi, bind, gets, throw. simpl. by rewrite Hi. }
  destruct (exists_all g ps) eqn:Hall.
  2:{ right. exists VirusNotFound. unfold create_multi. unfold bind at 1.
      simpl. rewrite Hi. unfold bind at 1. simpl. by rewrite Hall. }
  destruct (decide (ps = [])) as [->|Hne].
  { left. exists g. unfold create_multi, bind, gets. simpl. by rewrite Hi. }
  destruct (Virus_new i) as [v|] eqn:Hv.
  - left. destruct (exists_all_Forall2 g ps Hwf Hall) as [aps Haps].
    destruct (create_multi_ret g i ps aps v) as (g'&Hrun&_); try done.
    + by apply exists_false.
    + eapply Forall2_impl; [exact Haps|]. by intros p ap [? _].
    + eauto.
  - right. exists PayloadFailure. unfold create_multi.
    unfold bind at 1. simpl. rewrite Hi. unfold bind at 1. simpl.
    rewrite Hall. simpl. destruct ps as [|p ps]; [done|].
    unfold try_catch, bind at 1, Node_new. rewrite Hv.
    unfold map_erase. apply exists_false in Hi. by rewrite Hi.
Qed.

Lemma connect_total g child_id parent_id :
  edge_consistent g →
  (∃ g', connect child_id parent_id g = Ret tt g')
  ∨ connect child_id parent_id g = Throw VirusNotFound g.
Proof.
  intros Hcon. pose proof (edge_consistent_wf g Hcon) as Hwf.
  destruct (exists_ g child_id) eqn:Hc, (exists_ g parent_id) eqn:Hp;
    try (right; unfold connect; unfold bind at 1; simpl;
         unfold bind at 1; simpl; rewrite Hc, Hp; done).
  left. pose proof Hc as Hc'. pose proof Hp as Hp'.
  apply exists_true in Hc' as [ac Hac]. apply exists_true in Hp' as [ap Hap].
  destruct (wf_lookup g _ _ Hwf Hac) as (nc&Hnc&_).
  destruct (get_parents_edges g child_id ac nc Hcon Hac Hnc)
    as (ps&Hps&_).
  destruct (decide (parent_id ∈ ps)) as [Hin|Hnin].
  - exists g. by eapply connect_present.
  - destruct (connect_absent g child_id parent_id ac ap ps)
      as (g'&Hrun&_); try done. eauto.
Qed.

Lemma remove_total g i :
  consistent g →
  (∃ g', remove i g = Ret tt g') ∨ (∃ e, remove i g = Throw e g).
Proof.
  intros Hcon. destruct (decide (i = stem_id g)) as [->|Histem].
  { right. eexists. apply remove_stem. }
  destruct (exists_ g i) eqn:Hex.
  2:{ right. eexists. by apply remove_missing. }
  apply exists_true in Hex as [a Hi].
  destruct (remove_consistent g i a Hcon Hi Histem) as (g'&D&Hrun&_).
  left. eauto.
Qed.

(** ** Programs *)

Lemma run_calls_reachable g cs g' :
  reachable g → run_calls cs g = Some g' →
  reachable g' ∧ stem_id g' = stem_id g.
Proof.
  revert g. induction cs as [|c cs IH]; intros g Hr Hrun; simpl in Hrun.
  { by injection Hrun as <-. }
  destruct (after (run_call c g)) as [g1|] eqn:Hc; [|done]. simpl in Hrun.
  destruct (reachable_wf g Hr) as [Hwf Hstem].
  destruct (call_after g c g1 Hwf Hstem Hc) as (_&Hs&_).
  destruct (IH g1) as [? Hs']; [by eapply reachable_call|done|].
  split; [done|congruence].
Qed.

(** ** [remove] where viruses are their own parents *)

Lemma remove_crash_self_parent g i :
  edge_consistent g → after (remove i g) = None → self_parent g ∅.
Proof.
  intros (Hwf&Hstem&Hcu) Hafter.
  destruct (decide (i = stem_id g)) as [->|Histem].
  { by rewrite remove_stem in Hafter. }
  destruct (exists_ g i) eqn:Hex.
  2:{ by rewrite remove_missing in Hafter. }
  apply exists_true in Hex as [a Hi].
  pose proof (remove_terminates i g) as Hterm. unfold remove in *.
  destruct (remove_fuel_edges (S (total_parents g)) g ∅ i a)
    as [Hout|[(g1&D&Hrun&_)|[_ Hself]]]; try done.
  by rewrite Hrun in Hafter.
Qed.

Lemma remove_own_orphan g i a n :
  edge_consistent g → known_ids g !! i = Some a → i ≠ stem_id g →
  heap g !! a = Some n → parents n ≠ [] → (∀ p, p ∈ parents n → p = a) →
  after (remove i g) = None.
Proof.
  intros (Hwf&Hstem&Hcu) Hi Histem Hn Hne Hall. unfold remove.
  apply (remove_fuel_own_orphan (total_parents g) g ∅ i a n); try done.
  - apply remove_fuel_edges.
  - apply strip_nil_iff. intros p ->%Hall. by apply elem_of_singleton.
Qed.

(** ** [create] undone by [remove] *)

Lemma create_remove g i p g1 :
  consistent g → leak_free g →
  leak_free g1 →
  (∀ g2, remove i g1 = Ret tt g2 → leak_free g2) →
  create i p g = Ret tt g1 →
  ∃ g2, remove i g1 = Ret tt g2
        ∧ stem_id g2 = stem_id g ∧ known_ids g2 = known_ids g
        ∧ heap g2 = heap g.
Proof.
  intros Hcon Hlf Hlf1 Hlf2 Hrun.
  pose proof Hcon as (Hwf&[as_ Hstem]&Hcu).
  rewrite create_is_create_multi in Hrun.
  pose proof (create_multi_step g i [p] g1 Hcon Hrun) as Hcon1.
  pose proof Hcon1 as (Hwf1&_&Hcu1).
  destruct (create_multi_Ret_inv g i [p] g1 Hwf Hrun)
    as [Hi [[? _]|(_&v&aps&Hv&Haps&Hsr&Hl)]]; [done|].
  apply Forall2_cons_inv_l in Haps as (ap&aps'&Hp&Hnil&->).
  apply Forall2_nil_inv_l in Hnil as ->.
  destruct Hsr as (Hs1&Hk1&Hn1). simpl in Hs1, Hk1, Hn1.
  set (a := next_addr g) in *.
  pose proof (wf_fresh g Hwf) as Hfresh. fold a in Hfresh.
  assert (∀ b, is_Some (heap g !! b) → b ≠ a) as Hold.
  { intros b [nb Hb] ->. congruence. }
  assert (ap ≠ a) as Hapa.
  { apply Hold. destruct (wf_lookup g _ _ Hwf Hp) as (?&?&_). eauto. }
  assert (known_ids g1 !! i = Some a) as Hi1
    by (by rewrite Hk1, lookup_insert_eq).
  assert (i ≠ stem_id g1) as Histem.
  { rewrite Hs1. intros ->. congruence. }
  assert (heap g1 !! a = Some (mkNode i v [ap] [])) as Ha1.
  { rewrite Hl. simpl. rewrite lookup_insert_eq. simpl. unfold extended.
    simpl. rewrite decide_True by done.
    rewrite occurrences_cons, decide_False by done. done. }
  (* the nodes of [g] in [g1] *)
  assert (∀ b nb, heap g !! b = Some nb →
            a ∉ parents nb ∧ a ∉ children nb) as Hnoa.
  { intros b nb Hb.
    assert (attached g ∅ b) as Hat.
    { apply attached_empty, registered_iff. exists nb. split; [done|].
      by apply (Hlf b nb). }
    assert (∀ x, x ∈ parents nb ∨ x ∈ children nb → x ≠ a) as Hx.
    { intros x Hx ->.
      destruct (attached_alive g ∅ a (cu_closed g ∅ b nb a Hcu Hat Hb Hx))
        as [? ?]. congruence. }
    split; intros Hin; [by apply (Hx a (or_introl Hin))
                       |by apply (Hx a (or_intror Hin))]. }
  assert (∀ (l : list addr), a ∉ l → strip {[a]} l = l) as Hstrip.
  { intros l Hnin. apply strip_id. by intros x Hx ->%elem_of_singleton. }
  assert (∀ b nb, heap g !! b = Some nb →
            ∃ nb1, heap g1 !! b = Some nb1 ∧ stripped {[a]} nb1 = nb) as Hg1.
  { intros b nb Hb. pose proof (Hold b (mk_is_Some _ _ Hb)) as Hba.
    destruct (Hnoa b nb Hb) as [Hpa Hca].
    eexists. rewrite Hl. simpl. rewrite lookup_insert_ne, Hb by done.
    split; [done|]. unfold stripped, extended. simpl.
    rewrite decide_False, app_nil_r by done. rewrite strip_app.
    rewrite !Hstrip by done. destruct nb as [? ? ? cs]. simpl.
    f_equal. rewrite <-(app_nil_r cs) at 2. f_equal.
    apply strip_nil_iff. intros y [-> _]%elem_of_replicate.
    by apply elem_of_singleton. }
  (* taking the new node out *)
  assert (attached g1 ∅ a) as Hata.
  { apply attached_empty. by eapply wf_registered. }
  destruct (Node_remove_my_trace_spec g1 ∅ a _ Hcu1 Hwf1 Hata Ha1)
    as (os&g1'&Hrun1&Hs1'&Hk1'&Hn1'&Hheap1&_&Hos).
  assert (os = []) as ->.
  { destruct os as [|o os]; [done|]. exfalso.
    destruct (proj1 (Hos o)) as (b&nb&Hb&Hnb&_&Hne&Hnil); [left|].
    destruct (decide (b = a)) as [->|Hba].
    - rewrite Ha1 in Hnb. injection Hnb as <-. simpl in Hnil.
      rewrite Hstrip in Hnil; [done|].
      by intros ->%list_elem_of_singleton.
    - rewrite Hl in Hnb. simpl in Hnb. rewrite lookup_insert_ne in Hnb by done.
      destruct (heap g !! b) as [nb0|] eqn:Hb0; simplify_eq/=.
      rewrite decide_False, app_nil_r in Hne, Hnil by done.
      destruct (Hnoa b nb0 Hb0) as [Hpa _].
      by rewrite Hstrip in Hnil. }
  assert (shrinks g1 g1') as Hsh.
  { pose proof (Node_remove_my_trace_shrinks a g1) as Hsh.
    by rewrite Hrun1 in Hsh; destruct Hsh. }
  set (g3 := set_known_ids (delete i (known_ids g1')) g1').
  assert (remove i g1 = Ret tt (sweep g3)) as Hrem.
  { unfold remove.
    rewrite (remove_fuel_unfold _ g1 i a [] g1' Histem Hi1 Hrun1).
    simpl. unfold bind, ret, map_erase.
    destruct (known_ids g1' !! i) eqn:E; [done|].
    by rewrite Hk1', Hi1 in E. }
  assert (known_ids g3 = known_ids g) as Hk3.
  { unfold g3. simpl. rewrite Hk1', Hk1. simpl.
    rewrite delete_insert_eq. by apply delete_id. }
  exists (sweep g3). split_and!; [done| | |].
  - rewrite sweep_stem_id. unfold g3. simpl. congruence.
  - by rewrite sweep_known_ids.
  - apply map_eq. intros b.
    destruct (heap g !! b) as [nb|] eqn:Hb.
    + rewrite (sweep_registered g3 (node_id nb) b);
        [|rewrite Hk3; by apply (Hlf b nb)].
      unfold g3. simpl. destruct (Hg1 b nb Hb) as (nb1&Hb1&<-).
      apply Hheap1; [|done]. apply attached_empty, registered_iff.
      exists nb1. split; [done|]. by apply (Hlf1 b nb1).
    + destruct (heap (sweep g3) !! b) as [nb2|] eqn:Hb2; [exfalso|done].
      pose proof (Hlf2 (sweep g3) Hrem b nb2 Hb2) as Hreg. simpl in Hreg.
      rewrite sweep_known_ids, Hk3 in Hreg.
      destruct (wf_lookup g _ _ Hwf Hreg) as (?&?&_). congruence.
Qed.

End reading.

(** * The rest of the interface *)

Section interface.
Context {id_type : Type} `{Countable id_type}.
Context {Virus : Type} `{!VirusClassType Virus id_type}.
Implicit Types (g : VirusGenealogy id_type Virus) (n : Node id_type Virus).
Implicit Types (i o : id_type) (a b c d x y this : addr) (aps : list addr).
Implicit Types (ps : list id_type).

(** X1.  The constructor.  When [Virus(stem_id)] can be made, the new
    genealogy is consistent, the stem virus is the only registered
    virus, it has neither parents nor children, and [operator[]] gives
    the payload made for it; when the payload constructor throws, so
    does the constructor, and nothing is registered. *)
Theorem constructor_registers_stem (stem : id_type) :
  match Virus_new stem with
  | Some v =>
      ∃ g, VirusGenealogy_new stem = Ret tt g
           ∧ stem_id g = stem ∧ consistent g
           ∧ (∀ i, exists_ g i = true ↔ i = stem)
           ∧ get_parents stem g = Ret [] g
           ∧ children_of g stem = []
           ∧ get stem g = Ret v g
  | None =>
      ∃ g, VirusGenealogy_new stem = Throw PayloadFailure g
           ∧ known_ids g = ∅ ∧ heap g = ∅
  end.
Proof.
  destruct (Virus_new stem) as [v|] eqn:Hv.
  - pose proof (construct_ret stem v Hv) as Hrun.
    set (g := allocated (mkGenealogy stem ∅ ∅ 0) stem v) in *.
    assert (known_ids g !! stem = Some 0) as Hk by apply lookup_insert_eq.
    assert (heap g !! 0 = Some (mkNode stem v [] [])) as Hh
      by apply lookup_insert_eq.
    exists g. split_and!; try done.
    + by eapply construct_consistent.
    + intros i. rewrite exists_true. unfold g. simpl. split.
      * intros [a [[? _]|[_ ?]]%lookup_insert_Some]; done.
      * intros ->. rewrite lookup_insert_eq. eauto.
    + by rewrite (get_parents_eq g stem 0 _ Hk Hh).
    + unfold children_of, g. simpl. rewrite lookup_insert_eq. simpl.
      by rewrite lookup_insert_eq.
    + by rewrite (get_eq g stem 0 _ Hk Hh).
  - eexists. split; [by apply construct_throw|done].
Qed.

(** X2.  [get_stem_id] answers the same identifier after every program:
    no sequence of calls, whether they return or throw, changes the
    identifier of the stem virus or unregisters it. *)
Theorem stem_id_never_changes g (cs : list call) g' :
  reachable g → run_calls cs g = Some g' →
  get_stem_id g' = Ret (stem_id g) g' ∧ exists_ g' (stem_id g) = true.
Proof.
  intros Hr Hrun. destruct (run_calls_reachable g cs g' Hr Hrun) as [Hr' Hs].
  split.
  - unfold get_stem_id, gets. by rewrite Hs.
  - rewrite <-Hs. apply exists_true. by apply reachable_wf.
Qed.

(** X3.  [get_parents(id)], as long as no other virus has been made a
    parent of the stem virus: for an unregistered [id] it throws
    [VirusNotFound]; for a registered one it returns, without changing
    anything, the identifiers of the entries of the [parents] vector, in
    the order of the vector, and all of them are registered. *)
Theorem get_parents_of_registered g i :
  reachable_rooted g →
  (exists_ g i = false → get_parents i g = Throw VirusNotFound g)
  ∧ (∀ a n, known_ids g !! i = Some a → heap g !! a = Some n →
       ∃ ps, get_parents i g = Ret ps g
             ∧ Forall2 (λ b p, known_ids g !! p = Some b) (parents n) ps
             ∧ exists_all g ps = true).
Proof.
  intros Hr. pose proof (reachable_rooted_edges g Hr) as Hcon.
  split; [apply get_parents_missing|].
  intros a n Hi Hn.
  destruct (get_parents_edges g i a n Hcon Hi Hn) as (ps&Hrun&Hps).
  exists ps. split_and!; try done.
  apply exists_all_Forall. clear -Hps.
  induction Hps as [|b p l ps Hb _ IH]; constructor; [|done].
  apply exists_true. eauto.
Qed.

(** X4.  [operator[]]: for an unregistered identifier it throws
    [VirusNotFound]; for a registered one it returns, without changing
    anything, the payload that [Virus(id)] made when the virus was
    created. *)
Theorem operator_index_payload g i :
  reachable g →
  (exists_ g i = false → get i g = Throw VirusNotFound g)
  ∧ (exists_ g i = true → ∃ v, get i g = Ret v g ∧ Virus_new i = Some v).
Proof.
  intros Hr. split; [apply get_missing|].
  intros [a Hi]%exists_true. destruct (reachable_wf g Hr) as [Hwf _].
  destruct (wf_lookup g i a Hwf Hi) as (n&Hn&Hid).
  exists (virus n). split; [by apply (get_eq g i a n)|].
  rewrite <-Hid. by apply (reachable_payloads g Hr a n).
Qed.

(** X5.  Walking the children.  The [j]-th entry of the [children]
    vector of a registered virus is a registered node; the iterator that
    [get_children_begin] returns, incremented [j] times, dereferences to
    the payload of that node, and a decrement undoes an increment.  The
    genealogy is not changed on the way. *)
Theorem children_iterator_walk g i a n j c :
  reachable_rooted g →
  known_ids g !! i = Some a → heap g !! a = Some n →
  children n !! j = Some c →
  ∃ nc, heap g !! c = Some nc ∧ known_ids g !! node_id nc = Some c
        ∧ (let* it := Nat.iter j (λ m, let* it := m in iter_next it)
                        (get_children_begin i) in
           iter_deref it) g = Ret (virus nc) g
        ∧ (let* it := Nat.iter j (λ m, let* it := m in iter_next it)
                        (get_children_begin i) in
           let* it' := iter_next it in iter_prev it') g = Ret (mkIter a j) g.
Proof.
  intros Hr Hi Hn Hj. pose proof (reachable_rooted_edges g Hr) as (Hwf&_&Hcu).
  assert (registered g c) as (nc&Hnc&Hreg)%registered_iff.
  { apply attached_empty. apply (eu_closed g ∅ a n c Hcu); [|done|].
    - apply attached_empty. by eapply wf_registered.
    - right. by eapply list_elem_of_lookup_2. }
  pose proof (lookup_lt_Some _ _ _ Hj) as Hlt.
  assert (children n ≠ []) as Hne by (intros Hnil; by rewrite Hnil in Hj).
  assert (j ≤ length (children n)) as Hle by lia.
  pose proof (iter_walk g i a n j Hi Hn Hne Hle) as Hwalk.
  exists nc. split_and!; try done.
  - unfold bind at 1. rewrite Hwalk.
    by apply (iter_deref_child g a n j c nc).
  - unfold bind at 1. rewrite Hwalk.
    rewrite (bind_Ret _ _ _ _ _ (iter_next_eq g a n j Hn Hlt)).
    by apply (iter_prev_eq g a n j).
Qed.


(** X7.  [remove] ends on every genealogy, consistent or not: every
    call of [remove] that goes on to call itself has taken an entry out
    of a [parents] vector before, so one more level than there are such
    entries is never needed, and a larger budget gives the same
    outcome. *)
Theorem remove_terminates_on_every_genealogy g i (k : nat) :
  S (total_parents g) ≤ k →
  remove i g ≠ OutOfFuel ∧ remove_fuel k i g = remove i g.
Proof.
  intros Hk. pose proof (remove_terminates i g) as Hne. split; [done|].
  unfold remove in *. by apply remove_fuel_mono.
Qed.

(** X8.  [remove] only takes away, on every genealogy and however it
    ends: the identifier of the stem virus and its registry entry stay,
    no identifier is registered and no node is made, and a node that is
    still alive has its identifier and its payload, and vectors that are
    what is left of the old ones, in the old order. *)
Theorem remove_only_takes_away g i g' :
  after (remove i g) = Some g' →
  stem_id g' = stem_id g ∧ next_addr g' = next_addr g
  ∧ known_ids g' ⊆ known_ids g
  ∧ known_ids g' !! stem_id g = known_ids g !! stem_id g
  ∧ (∀ a n', heap g' !! a = Some n' →
       ∃ n, heap g !! a = Some n
            ∧ node_id n' = node_id n ∧ virus n' = virus n
            ∧ sublist (parents n') (parents n)
            ∧ sublist (children n') (children n)).
Proof.
  intros Hafter. pose proof (remove_shrinks i g) as Hsh.
  pose proof (remove_dwindles i g) as Hdw.
  assert (shrinks g g' ∧ dwindles g g') as [(?&?&?&?&_) ?].
  { destruct (remove i g); simplify_eq/=; done. }
  done.
Qed.

(** X9.  [create(id, parent_id)] undone by [remove(id)].  In a
    genealogy reached without making the stem virus a child or a virus
    its own parent, removing a virus right after it was created gives
    back the registry and all the nodes as they were. *)
Theorem create_then_remove g i p g1 :
  reachable_disciplined g → create i p g = Ret tt g1 →
  ∃ g2, remove i g1 = Ret tt g2
        ∧ stem_id g2 = stem_id g ∧ known_ids g2 = known_ids g
        ∧ heap g2 = heap g.
Proof.
  intros Hr Hrun.
  assert (reachable_disciplined g1) as Hr1.
  { apply (disciplined_call g (Create i p) g1 Hr); [done|].
    simpl. by rewrite Hrun. }
  apply (create_remove g i p g1); try done.
  - by apply reachable_disciplined_consistent.
  - by apply reachable_disciplined_leak_free.
  - by apply reachable_disciplined_leak_free.
  - intros g2 Hrem. apply reachable_disciplined_leak_free.
    apply (disciplined_call g1 (Remove i) g2 Hr1); [done|].
    simpl. by rewrite Hrem.
Qed.

(** X10.  Nothing leaks.  In a genealogy reached without making the
    stem virus a child or a virus its own parent, every node that is
    alive is the node the registry holds for its identifier: the nodes
    that [remove] has unregistered are destroyed, also those that were
    on a cycle of [children] pointers. *)
Theorem removed_nodes_are_destroyed g a n :
  reachable_disciplined g → heap g !! a = Some n →
  known_ids g !! node_id n = Some a.
Proof.
  intros Hr Hn. by apply (reachable_disciplined_leak_free g Hr a n).
Qed.

(** X11.  [add_child] is [add_parent] seen from the other node:
    [parent.add_child(child)] leaves the two nodes as
    [child.add_parent(parent)] does. *)
Theorem add_child_mirrors_add_parent this child g :
  Node_add_child this child g = Node_add_parent child this g.
Proof. apply Node_add_child_eq. Qed.

(** X12.  Calls that end.  On a genealogy whose edges are consistent,
    [create] and [connect] return or throw; so does [remove] when no
    virus is its own parent.  None of them terminates the process or
    runs into undefined behaviour. *)
Theorem calls_return_or_throw g (c : call) :
  edge_consistent g →
  (∀ i, c ≠ Remove i) ∨ ¬ self_parent g ∅ →
  is_Some (after (run_call c g)).
Proof.
  intros Hcon Hc. pose proof (edge_consistent_wf g Hcon) as Hwf.
  destruct c as [i p|i ps|child_id parent_id|i]; simpl.
  - rewrite create_is_create_multi.
    destruct (create_multi_total g i [p] Hwf) as [[g' ->]|[e ->]]; by eexists.
  - destruct (create_multi_total g i ps Hwf) as [[g' ->]|[e ->]]; by eexists.
  - destruct (connect_total g child_id parent_id Hcon) as [[g' ->]| ->];
      by eexists.
  - destruct Hc as [Hc|Hself]; [by destruct (Hc i)|].
    destruct (after (remove i g)) as [g'|] eqn:Hafter; [by eexists|].
    by destruct Hself; apply (remove_crash_self_parent g i).
Qed.

(** X13.  [remove] where viruses may be their own parents.  On a
    genealogy whose edges are consistent, a call of [remove] that
    returns or throws leaves the edges consistent; it has thrown from
    one of the checks of its argument and changed nothing, or returned
    and removed exactly the cascade of the virus, taking the entries for
    the removed nodes out of the vectors of the others.  A call that
    does neither has met a virus that is its own parent. *)
Theorem remove_with_self_parents g i :
  edge_consistent g →
  (∀ g', after (remove i g) = Some g' →
     edge_consistent g'
     ∧ (g' = g ∧ (i = stem_id g ∨ exists_ g i = false)
        ∨ ∃ a (D : gset addr),
            known_ids g !! i = Some a ∧ remove i g = Ret tt g'
            ∧ (∀ d, d ∈ D ↔ goes_with g a d)
            ∧ (∀ j b, known_ids g' !! j = Some b ↔
                      known_ids g !! j = Some b ∧ b ∉ D)
            ∧ (∀ b n, registered g b → b ∉ D → heap g !! b = Some n →
                 heap g' !! b = Some (stripped D n))))
  ∧ (after (remove i g) = None →
     ∃ b nb, registered g b ∧ heap g !! b = Some nb ∧ b ∈ parents nb).
Proof.
  intros Hcon. split.
  - intros g' Hafter.
    destruct (remove_edges g i g' Hcon Hafter)
      as [[-> (e&_&Hwhy)]|(a&D&Hi&Histem&Hrun&Hcon'&Hcas&HaD)].
    { split; [done|]. left. split; [done|].
      destruct Hwhy as [[_ ?]|(_&_&?)]; auto. }
    split; [done|]. right. exists a, D.
    pose proof Hcas as (Hdet&Hat&Hk&Ho&Hl).
    split_and!; try done.
    + intros d. rewrite <-falls_goes_with. split; [apply Ho|].
      apply (cascade_takes_all g ∅ _ g' D d Hcas). by intros x ->.
    + intros j b. rewrite Hk. apply map_lookup_filter_Some.
    + intros b n Hb HbD Hn. destruct Hdet as (_&_&_&_&Hheap).
      apply Hheap; [by apply attached_empty|done..].
  - intros Hafter.
    destruct (remove_crash_self_parent g i Hcon Hafter) as (b&nb&Hb&Hnb&Hin).
    exists b, nb. split_and!; try done.
    exact (proj1 (attached_empty g b) Hb).
Qed.

(** X14.  A virus that is left with itself as its only parent cannot be
    removed.  [remove] takes the virus out of its own [parents] vector,
    finds it orphaned and calls itself for it again; the second call
    looks for the entry that is gone and erases [parents.end()].  The
    call neither returns nor throws. *)
Theorem own_orphan_is_not_removed g i a n :
  edge_consistent g →
  known_ids g !! i = Some a → i ≠ stem_id g → heap g !! a = Some n →
  parents n ≠ [] → (∀ p, p ∈ parents n → p = a) →
  after (remove i g) = None.
Proof. apply remove_own_orphan. Qed.

End interface.

(** ** The theorems on the scenarios *)

Lemma genealogy_SAB_disciplined : reachable_disciplined genealogy_SAB.
Proof.
  apply (disciplined_call
           (genealogy_of (and_then (and_then lineage_S (create "A" "S"))
                                   (create_multi "B" ["A"])))
           (Connect "B" "S")); [|by vm_compute|by_computation].
  apply (disciplined_call genealogy_SA (CreateMulti "B" ["A"]));
    [|done|by_computation].
  apply (disciplined_call genealogy_S (Create "A" "S")); [|done|by_computation].
  apply (disciplined_new "S"). by_computation.
Qed.

(** After [create("A", "S")], [connect("S", "A")] and the [remove("A")]
    that throws, the stem virus is still ["S"]. *)
Lemma stem_id_never_changes_witness :
  reachable genealogy_S
  ∧ get_stem_id (genealogy_of (remove "A" genealogy_cycle))
    = Ret "S" (genealogy_of (remove "A" genealogy_cycle))
  ∧ exists_ (genealogy_of (remove "A" genealogy_cycle)) "S" = true.
Proof.
  assert (reachable genealogy_S) as Hr.
  { apply (reachable_new "S"). by_computation. }
  assert (run_calls [Create "A" "S"; Connect "S" "A"; Remove "A"] genealogy_S
          = Some (genealogy_of (remove "A" genealogy_cycle))) as Hrun
    by by_computation.
  split; [done|].
  exact (stem_id_never_changes genealogy_S _ _ Hr Hrun).
Defined.

(** The parents of ["A"] where ["A"] is its own parent. *)
Lemma get_parents_of_registered_witness :
  reachable_rooted genealogy_own
  ∧ ∃ ps, get_parents "A" genealogy_own = Ret ps genealogy_own
          ∧ Forall2 (λ b p, known_ids genealogy_own !! p = Some b) [0; 1] ps
          ∧ exists_all genealogy_own ps = true.
Proof.
  split; [apply genealogy_own_reachable|].
  assert (known_ids genealogy_own !! "A" = Some 1) as Hi by by_computation.
  assert (heap genealogy_own !! 1
          = Some (mkNode "A" (mkVirus "A") [0; 1] [1])) as Hn by by_computation.
  exact (proj2 (get_parents_of_registered genealogy_own "A"
                  genealogy_own_reachable) 1 _ Hi Hn).
Defined.

(** The payload of ["A"] after the failed [remove]. *)
Lemma operator_index_payload_witness :
  reachable genealogy_cycle
  ∧ ∃ v, get "A" genealogy_cycle = Ret v genealogy_cycle
         ∧ Virus_new "A" = Some v.
Proof.
  split; [apply genealogy_cycle_reachable|].
  assert (exists_ genealogy_cycle "A" = true) as Hex by by_computation.
  exact (proj2 (operator_index_payload genealogy_cycle "A"
                  genealogy_cycle_reachable) Hex).
Defined.

(** Where both viruses are their own parents, the children of ["S"] are
    ["A"] and ["S"]: one increment from the first leads to ["S"]. *)
Lemma children_iterator_walk_witness :
  reachable_rooted genealogy_own
  ∧ ∃ nc, heap genealogy_own !! 0 = Some nc
          ∧ known_ids genealogy_own !! node_id nc = Some 0
          ∧ (let* it := Nat.iter 1 (λ m, let* it := m in iter_next it)
                          (get_children_begin "S") in
             iter_deref it) genealogy_own = Ret (virus nc) genealogy_own
          ∧ (let* it := Nat.iter 1 (λ m, let* it := m in iter_next it)
                          (get_children_begin "S") in
             let* it' := iter_next it in iter_prev it') genealogy_own
            = Ret (mkIter 0 1) genealogy_own.
Proof.
  split; [apply genealogy_own_reachable|].
  assert (known_ids genealogy_own !! "S" = Some 0) as Hi by by_computation.
  assert (heap genealogy_own !! 0
          = Some (mkNode "S" (mkVirus "S") [0] [1; 0])) as Hn by by_computation.
  exact (children_iterator_walk genealogy_own "S" 0 _ 1 0
           genealogy_own_reachable Hi Hn eq_refl).
Defined.

(** [remove("A")] on the genealogy with the cycle through the stem
    virus, with a budget of five levels. *)
Lemma remove_terminates_on_every_genealogy_witness :
  S (total_parents genealogy_cycle) ≤ 5
  ∧ remove "A" genealogy_cycle ≠ OutOfFuel
  ∧ remove_fuel 5 "A" genealogy_cycle = remove "A" genealogy_cycle.
Proof.
  assert (S (total_parents genealogy_cycle) ≤ 5) as Hk by (vm_compute; lia).
  split; [done|].
  exact (remove_terminates_on_every_genealogy genealogy_cycle "A" 5 Hk).
Defined.

(** The [remove("A")] that throws half way has only taken away. *)
Lemma remove_only_takes_away_witness :
  after (remove "A" genealogy_cycle)
    = Some (genealogy_of (remove "A" genealogy_cycle))
  ∧ known_ids (genealogy_of (remove "A" genealogy_cycle))
      ⊆ known_ids genealogy_cycle
  ∧ ∀ a n', heap (genealogy_of (remove "A" genealogy_cycle)) !! a = Some n' →
      ∃ n, heap genealogy_cycle !! a = Some n
           ∧ node_id n' = node_id n ∧ virus n' = virus n
           ∧ sublist (parents n') (parents n)
           ∧ sublist (children n') (children n).
Proof.
  assert (after (remove "A" genealogy_cycle)
          = Some (genealogy_of (remove "A" genealogy_cycle))) as Hafter
    by by_computation.
  split; [done|].
  pose proof (remove_only_takes_away genealogy_cycle "A" _ Hafter)
    as (_&_&Hsub&_&Hdw).
  exact (conj Hsub Hdw).
Defined.

(** [create("C", "B")] on the genealogy of the scenario, undone. *)
Lemma create_then_remove_witness :
  reachable_disciplined genealogy_SAB
  ∧ ∃ g2, remove "C" (genealogy_of (create "C" "B" genealogy_SAB)) = Ret tt g2
          ∧ stem_id g2 = stem_id genealogy_SAB
          ∧ known_ids g2 = known_ids genealogy_SAB
          ∧ heap g2 = heap genealogy_SAB.
Proof.
  split; [apply genealogy_SAB_disciplined|].
  assert (create "C" "B" genealogy_SAB
          = Ret tt (genealogy_of (create "C" "B" genealogy_SAB))) as Hrun
    by by_computation.
  exact (create_then_remove genealogy_SAB "C" "B" _
           genealogy_SAB_disciplined Hrun).
Defined.

(** The node of ["B"] in the genealogy of the scenario. *)
Lemma removed_nodes_are_destroyed_witness :
  reachable_disciplined genealogy_SAB
  ∧ known_ids genealogy_SAB !! "B" = Some 2.
Proof.
  split; [apply genealogy_SAB_disciplined|].
  assert (heap genealogy_SAB !! 2
          = Some (mkNode "B" (mkVirus "B") [1; 0] [])) as Hn by by_computation.
  exact (removed_nodes_are_destroyed genealogy_SAB 2 _
           genealogy_SAB_disciplined Hn).
Defined.

(** [connect("A", "S")] where both viruses are their own parents. *)
Lemma calls_return_or_throw_witness :
  edge_consistent genealogy_own
  ∧ is_Some (after (run_call (Connect "A" "S") genealogy_own)).
Proof.
  assert (edge_consistent genealogy_own) as Hcon by by_decision.
  split; [done|].
  apply (calls_return_or_throw genealogy_own (Connect "A" "S") Hcon).
  left. intros i. discriminate.
Defined.

(** [remove("A")] where ["A"] is its own parent and a child of ["S"]:
    it returns, and ["A"] is gone. *)
Lemma remove_with_self_parents_witness :
  edge_consistent genealogy_own
  ∧ edge_consistent (genealogy_of (remove "A" genealogy_own))
  ∧ (genealogy_of (remove "A" genealogy_own) = genealogy_own
       ∧ ("A" = stem_id genealogy_own ∨ exists_ genealogy_own "A" = false)
     ∨ ∃ a (D : gset addr),
         known_ids genealogy_own !! "A" = Some a
         ∧ remove "A" genealogy_own
           = Ret tt (genealogy_of (remove "A" genealogy_own))
         ∧ (∀ d, d ∈ D ↔ goes_with genealogy_own a d)
         ∧ (∀ j b, known_ids (genealogy_of (remove "A" genealogy_own)) !! j
                   = Some b ↔
                   known_ids genealogy_own !! j = Some b ∧ b ∉ D)
         ∧ (∀ b n, registered genealogy_own b → b ∉ D →
              heap genealogy_own !! b = Some n →
              heap (genealogy_of (remove "A" genealogy_own)) !! b
              = Some (stripped D n))).
Proof.
  assert (edge_consistent genealogy_own) as Hcon by by_decision.
  assert (after (remove "A" genealogy_own)
          = Some (genealogy_of (remove "A" genealogy_own))) as Hafter
    by by_computation.
  split; [done|].
  exact (proj1 (remove_with_self_parents genealogy_own "A" Hcon) _ Hafter).
Defined.

(** ["X"] after [remove("P")] has left it with itself as its only
    parent. *)
Lemma own_orphan_is_not_removed_witness :
  edge_consistent genealogy_self_orphan
  ∧ after (remove "X" genealogy_self_orphan) = None.
Proof.
  assert (edge_consistent genealogy_self_orphan) as Hcon by by_decision.
  assert (known_ids genealogy_self_orphan !! "X" = Some 2) as Hi
    by by_computation.
  assert ("X" ≠ stem_id genealogy_self_orphan) as Hne by (by vm_compute).
  assert (heap genealogy_self_orphan !! 2
          = Some (mkNode "X" (mkVirus "X") [2] [2])) as Hn by by_computation.
  split; [done|].
  apply (own_orphan_is_not_removed genealogy_self_orphan "X" 2 _
           Hcon Hi Hne Hn); [done|].
  by intros p ->%list_elem_of_singleton.
Defined.
